(** * switch-tetris: the falling-piece engine and the gamepad normaliser

    A shallow embedding of [src/tetris.ts] (arena, player, collision,
    rotation with wall kick, line sweep, score-driven speed, locking a
    piece, the listeners bound to the gamepad) and of the parts of the
    gamepad library that resolve a controller mapping, filter axis
    values, keep the listeners, detect button edges and poll for
    gamepads, followed by the properties proved about them.

    Conventions of the embedding:
    - a JavaScript array is a [list]; a number that holds an integer
      (cell, index, column, row, score) is a [Z]; a number that is only
      assigned decimal literals or compared with them (the speed
      multiplier, an axis value) is the rational it denotes, a [Q];
      NaN and the infinities are left out;
    - reading an array outside its range yields [undefined], writing
      beyond its end extends it;
    - the module-level variables of [tetris.ts] are the fields of one
      [Game] record that every operation takes and returns;
    - the loops whose trip count is not fixed on entry (the scan of
      [arenaSweep], the walk of [playerRotate]) take a fuel argument and
      report [OutOfFuel] when it runs out; the theorems give a fuel that
      suffices;
    - an exception ends a computation with [Throws]; the state it
      leaves behind is not modelled;
    - an object used as a map from names to values is a [gmap] of its
      own properties;
    - writes to the page (score text, mode text, canvas) are not modelled.

    Layout: the embedding ([JS], [Tetris], [Gamepad], [Play], [Events],
    [Controls]), the vocabulary of the properties and the sample states,
    then the proofs. *)

From Stdlib Require Import ZArith QArith Lqa String Ascii Lia.
From stdpp Require Import base list gmap strings.

Open Scope Z_scope.

(** ** JavaScript values and arrays *)

Module JS.

(** What a matrix cell can hold: a number, or [undefined] (the value of a
    hole or of a slot that was assigned an out-of-range read). *)
Inductive cell : Type :=
| undefined
| Num (n : Z).

#[global] Instance cell_eq_dec : EqDecision cell.
Proof. solve_decision. Defined.

(** [v === 0] *)
Definition strict_eq_zero (v : cell) : bool :=
  match v with
  | Num 0 => true
  | _ => false
  end.

(** [v !== 0] *)
Definition strict_ne_zero (v : cell) : bool := negb (strict_eq_zero v).

(** [arr[i]] for a number [i]: [None] stands for [undefined]. *)
Definition get {A : Type} (arr : list A) (i : Z) : option A :=
  if i <? 0 then None else arr !! Z.to_nat i.

(** [row[i]] where the elements are cells. *)
Definition read (row : list cell) (i : Z) : cell :=
  default undefined (get row i).

(** [row[i] = v] for a loop counter [i]: in range it overwrites, beyond the
    end it extends the array, the skipped slots reading [undefined]. *)
Definition write (row : list cell) (i : nat) (v : cell) : list cell :=
  if decide (i < length row)%nat
  then <[i := v]> row
  else row ++ replicate (i - length row) undefined ++ [v].

(** [row.fill(0)] *)
Definition fill_zero (row : list cell) : list cell :=
  map (fun _ => Num 0) row.

(** Outcome of a computation: a value, an exception thrown on the way
    (reading a property of [undefined], [createPiece] on an unknown type),
    or a loop still running when the fuel is spent. *)
Inductive result (A : Type) : Type :=
| Ok (a : A)
| Throws
| OutOfFuel.

Arguments Ok {A} a.
Arguments Throws {A}.
Arguments OutOfFuel {A}.

(** [for (i = 0; i < n; ++i) if (test i) return true; ... return false] *)
Definition for_any (n : nat) (test : nat -> bool) : bool :=
  existsb test (seq 0 n).

(** [for (i = 0; i < n; ++i) s = body(s, i)] *)
Definition for_each {S : Type} (n : nat) (body : S -> nat -> S) (s : S) : S :=
  foldl body s (seq 0 n).

End JS.

(** ** The game engine ([tetris.ts]) *)

Module Tetris.
Import JS.

(** A matrix is an array of rows. *)
Abbreviation Matrix := (list (list cell)).

Definition nums (l : list Z) : list cell := map Num l.

(** [mode]: 0 is Normal-Mode, 1 is Fill-Mode. *)
Inductive Mode : Type := Normal | Fill.

Inductive PieceType : Type :=
| Piece_I | Piece_L | Piece_J | Piece_O | Piece_Z | Piece_S | Piece_T.

Record Position : Type := mkPosition { pos_x : Z; pos_y : Z }.

Record Player : Type := mkPlayer {
  pos : Position;
  matrix : Matrix;
  score : Z
}.

Record Game : Type := mkGame {
  arena : Matrix;
  player : Player;
  gamePaused : bool;
  mode : Mode;
  speedModifier : Q
}.

Definition with_pos_x (p : Player) (v : Z) : Player :=
  mkPlayer (mkPosition v (pos_y (pos p))) (matrix p) (score p).

Definition with_pos_y (p : Player) (v : Z) : Player :=
  mkPlayer (mkPosition (pos_x (pos p)) v) (matrix p) (score p).

Definition with_matrix (p : Player) (m : Matrix) : Player :=
  mkPlayer (pos p) m (score p).

Definition with_score (p : Player) (v : Z) : Player :=
  mkPlayer (pos p) (matrix p) v.

Definition with_player (g : Game) (p : Player) : Game :=
  mkGame (arena g) p (gamePaused g) (mode g) (speedModifier g).

Definition with_arena (g : Game) (a : Matrix) : Game :=
  mkGame a (player g) (gamePaused g) (mode g) (speedModifier g).

Definition with_speedModifier (g : Game) (q : Q) : Game :=
  mkGame (arena g) (player g) (gamePaused g) (mode g) q.

(** [gamePaused == false || mode != 0], the guard of every player move. *)
Definition may_move (g : Game) : bool :=
  negb (gamePaused g) ||
  match mode g with Normal => false | Fill => true end.

(** [createMatrix(w, h)] *)
Definition createMatrix (w h : nat) : Matrix :=
  replicate h (replicate w (Num 0)).

Definition createPiece (type : PieceType) : Matrix :=
  match type with
  | Piece_I => [nums [0; 1; 0; 0];
                nums [0; 1; 0; 0];
                nums [0; 1; 0; 0];
                nums [0; 1; 0; 0]]
  | Piece_L => [nums [0; 2; 0];
                nums [0; 2; 0];
                nums [0; 2; 2]]
  | Piece_J => [nums [0; 3; 0];
                nums [0; 3; 0];
                nums [3; 3; 0]]
  | Piece_O => [nums [4; 4];
                nums [4; 4]]
  | Piece_Z => [nums [5; 5; 0];
                nums [0; 5; 5];
                nums [0; 0; 0]]
  | Piece_S => [nums [0; 6; 6];
                nums [6; 6; 0];
                nums [0; 0; 0]]
  | Piece_T => [nums [0; 7; 0];
                nums [7; 7; 7];
                nums [0; 0; 0]]
  end.

(** [m[r][c]] for loop counters [r < m.length]. *)
Definition cell_at (m : Matrix) (r c : nat) : cell :=
  match m !! r with
  | Some row => default undefined (row !! c)
  | None => undefined
  end.

(** [m[r][c] = v] for loop counters [r < m.length]. *)
Definition set_cell (m : Matrix) (r c : nat) (v : cell) : Matrix :=
  alter (fun row => write row c v) r m.

(** [(arena[r] && arena[r][c])]: a missing row gives [undefined], a row
    (an array, hence truthy) gives its element. *)
Definition arena_cell (arena : Matrix) (r c : Z) : cell :=
  match get arena r with
  | None => undefined
  | Some row => read row c
  end.

Definition collide (arena : Matrix) (player : Player) : bool :=
  for_any (length (matrix player)) (fun y =>
    for_any (length (default [] (matrix player !! y))) (fun x =>
      strict_ne_zero (cell_at (matrix player) y x) &&
      strict_ne_zero (arena_cell arena (Z.of_nat y + pos_y (pos player))
                                       (Z.of_nat x + pos_x (pos player))))).

(** The body of the two nested loops of [rotate]. *)
Definition swap_cells (m : Matrix) (y x : nat) : Matrix :=
  let temp := cell_at m y x in
  let m1 := set_cell m y x (cell_at m x y) in
  set_cell m1 x y temp.

Definition transpose_in_place (m : Matrix) : Matrix :=
  for_each (length m) (fun m y => for_each y (fun m x => swap_cells m y x) m) m.

Definition rotate (m : Matrix) (dir : Z) : Matrix :=
  let m' := transpose_in_place m in
  if dir >? 0 then map reverse m' else reverse m'.

(** [arena[y][x] === 0] for some [x]: the inner loop of [arenaSweep]
    reaches [continue outer]. *)
Definition has_empty_cell (row : list cell) : bool :=
  for_any (length row) (fun x => strict_eq_zero (default undefined (row !! x))).

(** The [outer] loop of [arenaSweep], entered at its test [y > 0] with the
    current [rowCount], arena and score. A cleared row is spliced out,
    filled with 0 and unshifted; [++y] then the loop's [--y] leave [y] as
    it was. *)
Fixpoint sweep_loop (fuel : nat) (y rowCount : Z) (arena : Matrix) (score : Z)
  : result (Matrix * Z) :=
  match fuel with
  | O => OutOfFuel
  | S fuel' =>
      if y >? 0 then
        match get arena y with
        | None => Throws
        | Some row =>
            if has_empty_cell row
            then sweep_loop fuel' (y - 1) rowCount arena score
            else
              let arena' := fill_zero row :: delete (Z.to_nat y) arena in
              sweep_loop fuel' (y + 1 - 1) (rowCount * 2) arena'
                         (score + rowCount * 10)
        end
      else Ok (arena, score)
  end.

Definition arenaSweep (fuel : nat) (g : Game) : result Game :=
  match mode g with
  | Fill => Ok g
  | Normal =>
      match sweep_loop fuel (Z.of_nat (length (arena g)) - 1) 1
                       (arena g) (score (player g)) with
      | Ok (a, s) => Ok (with_player (with_arena g a) (with_score (player g) s))
      | Throws => Throws
      | OutOfFuel => OutOfFuel
      end
  end.

Definition playerMove (offset : Z) (g : Game) : Game :=
  if may_move g then
    let g1 := with_player g (with_pos_x (player g) (pos_x (pos (player g)) + offset)) in
    if collide (arena g1) (player g1)
    then with_player g1 (with_pos_x (player g1) (pos_x (pos (player g1)) - offset))
    else g1
  else g.

(** The [while (collide(arena, player))] loop of [playerRotate]; [pos] is
    the column saved on entry, [offset] the next horizontal step. *)
Fixpoint kick_loop (fuel : nat) (dir pos0 offset : Z) (g : Game) : result Game :=
  match fuel with
  | O => OutOfFuel
  | S fuel' =>
      if collide (arena g) (player g) then
        let g1 := with_player g (with_pos_x (player g) (pos_x (pos (player g)) + offset)) in
        let offset' := - (offset + (if offset >? 0 then 1 else -1)) in
        match matrix (player g1) !! 0%nat with
        | None => Throws
        | Some row0 =>
            if offset' >? Z.of_nat (length row0) then
              let g2 := with_player g1 (with_matrix (player g1)
                                          (rotate (matrix (player g1)) (- dir))) in
              Ok (with_player g2 (with_pos_x (player g2) pos0))
            else kick_loop fuel' dir pos0 offset' g1
        end
      else Ok g
  end.

Definition playerRotate (fuel : nat) (dir : Z) (g : Game) : result Game :=
  if may_move g then
    let pos0 := pos_x (pos (player g)) in
    let g1 := with_player g (with_matrix (player g) (rotate (matrix (player g)) dir)) in
    kick_loop fuel dir pos0 1 g1
  else Ok g.

Definition updateScore (g : Game) : Game :=
  let s := score (player g) in
  if (s >? 30) && (s <? 60) then with_speedModifier g 0.9%Q
  else if (s >? 60) && (s <? 90) then with_speedModifier g 0.8%Q
  else if (s >? 90) && (s <? 120) then with_speedModifier g 0.7%Q
  else if (s >? 120) && (s <? 150) then with_speedModifier g 0.6%Q
  else if (s >? 150) && (s <? 180) then with_speedModifier g 0.5%Q
  else if (s >? 180) && (s <? 210) then with_speedModifier g 0.4%Q
  else if (s >? 210) && (s <? 240) then with_speedModifier g 0.3%Q
  else if (s >? 240) && (s <? 270) then with_speedModifier g 0.2%Q
  else if (s >? 270) && (s <? 300) then with_speedModifier g 0.1%Q
  else g.

(** ["TJLOSZI".split("")] *)
Definition pieces : list PieceType :=
  [Piece_T; Piece_J; Piece_L; Piece_O; Piece_S; Piece_Z; Piece_I].

(** [playerReset], the index [(pieces.length * Math.random()) | 0] being
    the argument [pick]. *)
Definition playerReset (pick : nat) (g : Game) : result Game :=
  match pieces !! pick, arena g !! 0%nat with
  | Some type, Some arena0 =>
      let m := createPiece type in
      let x := Z.of_nat (length arena0) / 2
               - Z.of_nat (length (default [] (m !! 0%nat))) / 2 in
      let p := mkPlayer (mkPosition x 0) m (score (player g)) in
      let g1 := with_player (with_speedModifier g 1) p in
      if collide (arena g1) (player g1) then
        let g2 := with_arena g1 (map fill_zero (arena g1)) in
        Ok (updateScore (with_player g2 (with_score (player g2) 0)))
      else Ok g1
  | _, _ => Throws
  end.

End Tetris.

(** ** The gamepad library: mapping resolution and the axis filter *)

Module Gamepad.

Open Scope string_scope.

(** An object whose properties are strings, in [for ... in] order. *)
Definition object : Type := list (string * string).

(** [o[field]]: [None] stands for [undefined]. *)
Fixpoint prop (o : object) (field : string) : option string :=
  match o with
  | [] => None
  | (k, v) :: o' => if String.eqb k field then Some v else prop o' field
  end.

(** [a !== b] on a property value and a possibly missing one. *)
Definition strict_ne (a : string) (b : option string) : bool :=
  match b with
  | Some b' => negb (String.eqb a b')
  | None => true
  end.

(** One entry of a [buttons.byAxis] table: the number -1, or the triple
    [axis index, zero value, one value]. *)
Inductive ButtonAxis : Type :=
| NoAxis (n : Z)
| RangedAxis (axis zero one : Z).

Record Buttons : Type := mkButtons {
  byButton : list Z;
  buttons_byAxis : option (list ButtonAxis)
}.

Record Axes : Type := mkAxes { byAxis : list Z }.

Record Mapping : Type := mkMapping {
  env : object;
  buttons : Buttons;
  axes : Axes
}.

(** [Gamepad.Type] *)
Definition Type_N64 : string := "n64".
Definition Type_PLAYSTATION : string := "playstation".
Definition Type_LOGITECH : string := "logitech".
Definition Type_XBOX : string := "xbox".
Definition Type_UNKNOWN : string := "unknown".

(** [FirefoxPlatform.getType()], [WebKitPlatform.getType()] and
    [nullPlatform.getType()] *)
Definition FirefoxPlatform_getType : string := "Firefox".
Definition WebKitPlatform_getType : string := "WebKit".
Definition nullPlatform_getType : string := "null".

Definition StandardMapping : Mapping :=
  mkMapping []
    (mkButtons [0; 1; 2; 3; 4; 5; 6; 7; 8; 9; 10; 11; 12; 13; 14; 15; 16] None)
    (mkAxes [0; 1; 2; 3]).

Definition Mappings : list Mapping :=
  [ (* Retrolink N64 controller on Firefox *)
    mkMapping [("platform", FirefoxPlatform_getType); ("type", Type_N64)]
      (mkButtons [2; 1; 3; 0; 4; 5; -1; -1; 8; 9; -1; -1; 12; 13; 14; 15; -1] None)
      (mkAxes [1; 2; -1; -1]);
    (* Retrolink N64 controller on WebKit *)
    mkMapping [("platform", WebKitPlatform_getType); ("type", Type_N64)]
      (mkButtons [2; 1; 3; 0; 4; 5; -1; -1; 8; 9; -1; -1; 12; 13; 14; 15; -1] None)
      (mkAxes [0; 1; -1; -1]);
    (* XBOX360 controller on Firefox *)
    mkMapping [("platform", FirefoxPlatform_getType); ("type", Type_XBOX)]
      (mkButtons [0; 1; 2; 3; 4; 5; 15; 16; 9; 8; 6; 7; 11; 12; 13; 14; 10] None)
      (mkAxes [0; 1; 2; 3]);
    (* PS3 controller on Firefox *)
    mkMapping [("platform", FirefoxPlatform_getType); ("type", Type_PLAYSTATION)]
      (mkButtons [14; 13; 15; 12; 10; 11; 8; 9; 0; 3; 1; 2; 4; 6; 7; 5; 16] None)
      (mkAxes [0; 1; 2; 3]);
    (* Logitech gamepad on WebKit *)
    mkMapping [("platform", WebKitPlatform_getType); ("type", Type_LOGITECH)]
      (mkButtons [1; 2; 0; 3; 4; 5; 6; 7; 8; 9; 10; 11; 11; 12; 13; 14; 10] None)
      (mkAxes [0; 1; 2; 3]);
    (* Logitech gamepad on Firefox *)
    mkMapping [("platform", FirefoxPlatform_getType); ("type", Type_LOGITECH)]
      (mkButtons [0; 1; 2; 3; 4; 5; -1; -1; 6; 7; 8; 9; 11; 12; 13; 14; 10]
         (Some [NoAxis (-1); NoAxis (-1); NoAxis (-1); NoAxis (-1);
                NoAxis (-1); NoAxis (-1); RangedAxis 2 0 1; RangedAxis 2 0 (-1)]))
      (mkAxes [0; 1; 3; 4]) ].

(** [String.prototype.toLowerCase] on the ASCII letters. *)
Definition lower_char (c : ascii) : ascii :=
  let n := nat_of_ascii c in
  if (65 <=? n)%nat && (n <=? 90)%nat then ascii_of_nat (n + 32) else c.

Fixpoint toLowerCase (s : string) : string :=
  match s with
  | EmptyString => EmptyString
  | String c s' => String (lower_char c) (toLowerCase s')
  end.

(** The ASCII characters matched by [\s]: tab, line feed, vertical tab,
    form feed, carriage return and space. *)
Definition is_space (c : ascii) : bool :=
  let n := nat_of_ascii c in
  ((9 <=? n)%nat && (n <=? 13)%nat) || (n =? 32)%nat.

(** [s.replace(/\s+/g, " ")]; [in_run] tells that the previous character
    was white space, already replaced. *)
Fixpoint squeeze_spaces (in_run : bool) (s : string) : string :=
  match s with
  | EmptyString => EmptyString
  | String c s' =>
      if is_space c
      then if in_run then squeeze_spaces true s'
           else String " "%char (squeeze_spaces true s')
      else String c (squeeze_spaces false s')
  end.

Fixpoint trim_start (s : string) : string :=
  match s with
  | EmptyString => EmptyString
  | String c s' => if is_space c then trim_start s' else s
  end.

Fixpoint trim_end (s : string) : string :=
  match s with
  | EmptyString => EmptyString
  | String c s' =>
      match trim_end s' with
      | EmptyString => if is_space c then EmptyString else String c EmptyString
      | t => String c t
      end
  end.

(** [s.replace(/^\s+|\s+$/g, "")] *)
Definition trim (s : string) : string := trim_end (trim_start s).

(** [s.indexOf(pattern)] *)
Definition indexOf (s pattern : string) : Z :=
  match String.index 0 pattern s with
  | Some n => Z.of_nat n
  | None => -1
  end.

(** [n !== -1] *)
Definition found (n : Z) : bool := negb (Z.eqb n (-1)).

Definition _resolveControllerType (id : string) : string :=
  let id := trim (squeeze_spaces false (toLowerCase id)) in
  if found (indexOf id "playstation") then Type_PLAYSTATION
  else if found (indexOf id "logitech")
          || found (indexOf id "wireless gamepad") then Type_LOGITECH
  else if found (indexOf id "xbox") || found (indexOf id "360") then Type_XBOX
  else if (found (indexOf id "79-6-generic") && found (indexOf id "joystick"))
          || (found (indexOf id "vendor: 0079 product: 0006")
              && found (indexOf id "generic usb joystick")) then Type_N64
  else Type_UNKNOWN.

(** [Gamepad.envMatchesFilter(filter, env)]: every field of the filter is
    visited, a differing one sets the result to false. *)
Definition envMatchesFilter (filter env : object) : bool :=
  foldl (fun result '(field, v) =>
           if strict_ne v (prop env field) then false else result)
        true filter.

(** The loop of [_resolveMapping]: it stops at the first entry whose
    [env] covers the environment. *)
Fixpoint first_match (mappings : list Mapping) (e : object) : option Mapping :=
  match mappings with
  | [] => None
  | test :: rest =>
      if envMatchesFilter (env test) e then Some test else first_match rest e
  end.

(** [_resolveMapping(gamepad)], with [platform] for [this.platform.getType()]
    and [id] for [gamepad.id]. *)
Definition _resolveMapping (platform id : string) : Mapping :=
  let e := [("platform", platform); ("type", _resolveControllerType id)] in
  default StandardMapping (first_match Mappings e).

(** The two thresholds a [Gamepad] object carries. *)
Record Thresholds : Type := mkThresholds {
  deadzone : Q;
  maximizeThreshold : Q
}.

(** The values the constructor assigns: 0.03 and 0.97. *)
Definition default_thresholds : Thresholds := mkThresholds 0.03%Q 0.97%Q.

(** [a < b] on numbers. *)
Definition Qltb (a b : Q) : bool := negb (Qle_bool b a).

(** [_applyDeadzoneMaximize(value, deadzone, maximizeThreshold)]; an omitted
    argument is [None]. *)
Definition _applyDeadzoneMaximize (this : Thresholds) (value : Q)
    (deadzone_arg maximizeThreshold_arg : option Q) : Q :=
  let deadzone := default (deadzone this) deadzone_arg in
  let maximizeThreshold := default (maximizeThreshold this) maximizeThreshold_arg in
  if Qle_bool 0 value then
    if Qltb value deadzone then 0%Q
    else if Qltb maximizeThreshold value then 1%Q
    else value
  else
    if Qltb (- deadzone) value then 0%Q
    else if Qltb value (- maximizeThreshold) then (-1)%Q
    else value.

End Gamepad.

(** ** The rest of the engine: locking a piece ([tetris.ts]) *)

Module Play.
Import JS Tetris.

(** [r] then [k], an exception or a spent fuel cutting the sequence. *)
Definition and_then {A B : Type} (r : result A) (k : A -> result B) : result B :=
  match r with
  | Ok a => k a
  | Throws => Throws
  | OutOfFuel => OutOfFuel
  end.

(** [arena[r][c] = value]. A missing row throws (a property of
    [undefined] cannot be set). A negative [c] names a property that is
    not an element of the row: the elements stay as they are, and the only
    read of a negative column, in [collide], tests [!== 0], which holds of
    [undefined] and of the non-zero [value] alike. Otherwise the element
    is written, the row growing when [c] is beyond its end. *)
Definition store (arena : Matrix) (r c : Z) (value : cell) : result Matrix :=
  match get arena r with
  | None => Throws
  | Some row =>
      if c <? 0 then Ok arena
      else Ok (<[Z.to_nat r := write row (Z.to_nat c) value]> arena)
  end.

(** The inner [row.forEach((value, x) => ...)] of [merge], at row [y] of
    the piece. *)
Definition merge_row (p : Position) (y : nat) (row : list cell) (arena : Matrix)
  : result Matrix :=
  for_each (length row)
    (fun acc x =>
       and_then acc (fun a =>
         let value := default undefined (row !! x) in
         if strict_ne_zero value
         then store a (Z.of_nat y + pos_y p) (Z.of_nat x + pos_x p) value
         else Ok a))
    (Ok arena).

(** [merge(arena, player)]. [forEach] passes over holes; a cell that
    reads [undefined] is taken here as a stored value, which is what the
    matrices of [createPiece] and their turns can hold at most. *)
Definition merge (arena : Matrix) (player : Player) : result Matrix :=
  for_each (length (matrix player))
    (fun acc y =>
       and_then acc (merge_row (pos player) y (default [] (matrix player !! y))))
    (Ok arena).

(** The game state with the drop timer [dropCounter], which [playerDrop]
    resets. *)
Record Session : Type := mkSession {
  game : Game;
  dropCounter : Q
}.

Definition with_game (s : Session) (g : Game) : Session :=
  mkSession g (dropCounter s).

(** [playerDrop(offset)]; [pick] is the random index of [playerReset],
    [fuel] bounds the scan of [arenaSweep]. *)
Definition playerDrop (fuel pick : nat) (offset : Z) (s : Session) : result Session :=
  let g := game s in
  if may_move g then
    let g1 := with_player g (with_pos_y (player g) (pos_y (pos (player g)) + offset)) in
    if collide (arena g1) (player g1) then
      let g2 := with_player g1 (with_pos_y (player g1) (pos_y (pos (player g1)) - 1)) in
      and_then (merge (arena g2) (player g2)) (fun a =>
      and_then (playerReset pick (with_arena g2 a)) (fun g3 =>
      and_then (arenaSweep fuel g3) (fun g4 =>
      Ok (mkSession (updateScore g4) 0%Q))))
    else Ok (mkSession g1 0%Q)
  else Ok s.

Definition with_mode (g : Game) (m : Mode) : Game :=
  mkGame (arena g) (player g) (gamePaused g) m (speedModifier g).

Definition with_gamePaused (g : Game) (b : bool) : Game :=
  mkGame (arena g) (player g) b (mode g) (speedModifier g).

Definition switchMode (pick : nat) (g : Game) : result Game :=
  match mode g with
  | Normal => playerReset pick (with_mode g Fill)
  | Fill => playerReset pick (with_mode g Normal)
  end.

Definition togglePause (g : Game) : Game :=
  match mode g with
  | Fill => g
  | Normal => if gamePaused g then with_gamePaused g false
              else with_gamePaused g true
  end.

(** The first argument of [move]: "x", "y" or "z". *)
Inductive Direction : Type := dir_x | dir_y | dir_z.

Definition move (fuel pick : nat) (dir : Direction) (offset : Z) (s : Session)
  : result Session :=
  match dir with
  | dir_x => Ok (with_game s (playerMove offset (game s)))
  | dir_y => playerDrop fuel pick offset s
  | dir_z => and_then (playerRotate fuel offset (game s))
                      (fun g => Ok (with_game s g))
  end.

End Play.

(** ** The gamepad library: listeners, updaters and polling *)

Module Events.

(** *** Listeners: [bind], [unbind], [_fire] *)

(** The keys of [GamepadEvents], the events a listener is bound to. *)
Inductive EventName : Type :=
| connected | disconnected | unsupported | tick
| button_down | button_up | axis_changed.

#[global] Instance EventName_eq_dec : EqDecision EventName.
Proof. solve_decision. Defined.

(** The property of [this.listeners] an event is filed under. *)
Definition event_key (event : EventName) : string :=
  match event with
  | connected => "connected"
  | disconnected => "disconnected"
  | unsupported => "unsupported"
  | tick => "tick"
  | button_down => "button-down"
  | button_up => "button-up"
  | axis_changed => "axis-changed"
  end.

Section Listeners.

(** The listeners are functions, compared by identity. *)
Context {L : Type} `{EqDecision L}.

(** [bind(event, listener)] on [this.listeners], an object from event
    names to arrays of listeners. *)
Definition bind (event : EventName) (listener : L) (listeners : gmap string (list L))
  : gmap string (list L) :=
  let listeners :=
    match listeners !! event_key event with
    | None => <[event_key event := []]> listeners
    | Some _ => listeners
    end in
  match listeners !! event_key event with
  | Some arr => <[event_key event := arr ++ [listener]]> listeners
  | None => listeners
  end.

(** The loop of [unbind]: the array without the first element that is the
    listener, if there is one. *)
Fixpoint splice_first (listener : L) (arr : list L) : option (list L) :=
  match arr with
  | [] => None
  | x :: rest =>
      if decide (x = listener) then Some rest
      else match splice_first listener rest with
           | Some rest' => Some (x :: rest')
           | None => None
           end
  end.

(** [unbind(type, listener)]; an argument left out is [None]. The result
    pairs the listeners with the value returned. *)
Definition unbind (type : option EventName) (listener : option L)
    (listeners : gmap string (list L)) : gmap string (list L) * bool :=
  match type with
  | None => (∅, false)
  | Some type =>
      match listener with
      | None => (<[event_key type := []]> listeners, false)
      | Some listener =>
          match listeners !! event_key type with
          | None => (listeners, false)
          | Some arr =>
              match splice_first listener arr with
              | Some arr' => (<[event_key type := arr']> listeners, true)
              | None => (listeners, false)
              end
          end
      end
  end.

(** [_fire(event, ...data)]: the listeners it calls, in order. *)
Definition _fire (event : EventName) (listeners : gmap string (list L)) : list L :=
  match listeners !! event_key event with
  | None => []
  | Some arr => arr
  end.

End Listeners.

(** *** Updaters: the closure of [_addButtonUpdater] *)

(** What the updater of a button fires, with the control name and, for a
    change of value, the value of the event data. The values are the
    numbers the button getter returns, taken as rationals: the updater
    only compares them. *)
Inductive Event : Type :=
| BUTTON_DOWN (control : string)
| BUTTON_UP (control : string)
| AXIS_CHANGED (axis : string) (value : Q).

(** [gamepad.state] and [gamepad.lastState]. *)
Record Pad : Type := mkPad {
  state : gmap string Q;
  lastState : gmap string Q
}.

(** [v > 0.5], false of [undefined]. *)
Definition above_half (v : option Q) : bool :=
  match v with
  | Some q => Gamepad.Qltb 0.5 q
  | None => false
  end.

(** [a !== b] on numbers, [b] possibly [undefined]. *)
Definition differs (a : Q) (b : option Q) : bool :=
  match b with
  | Some q => negb (Qeq_bool a q)
  | None => true
  end.

(** The updater of a button; [value] is what its getter returns. *)
Definition button_updater (controlName : string) (value : Q) (gamepad : Pad)
  : Pad * list Event :=
  let lastValue := lastState gamepad !! controlName in
  let isDown := above_half (Some value) in
  let wasDown := above_half lastValue in
  let edge :=
    if isDown && negb wasDown then [BUTTON_DOWN controlName]
    else if negb isDown && wasDown then [BUTTON_UP controlName]
    else [] in
  let change :=
    if differs value (Some 0%Q) && differs value (Some 1%Q) && differs value lastValue
    then [AXIS_CHANGED controlName value]
    else [] in
  (mkPad (<[controlName := value]> (state gamepad))
         (<[controlName := value]> (lastState gamepad)),
   edge ++ change).

(** The updater of one button run once per sample, as [_update] does
    tick after tick; the events in the order fired. *)
Fixpoint button_samples (controlName : string) (samples : list Q) (gamepad : Pad)
  : Pad * list Event :=
  match samples with
  | [] => (gamepad, [])
  | value :: rest =>
      let '(gamepad1, fired) := button_updater controlName value gamepad in
      let '(gamepad2, fired') := button_samples controlName rest gamepad1 in
      (gamepad2, fired ++ fired')
  end.

(** *** Polling: [WebKitPlatform.update] *)

Section Polling.

(** The gamepad objects, compared by identity. *)
Context {P : Type} `{EqDecision P}.

(** The calls [update] makes on its listener. *)
Inductive Call : Type :=
| _disconnect (gamepad : P)
| _connect (gamepad : P).

(** The body of the first loop, at index [i]: a known gamepad that the
    poll does not list is spliced out and reported. *)
Definition drop_gone (gamepads : list (option P)) (acc : list P * list Call)
    (i : nat) : list P * list Call :=
  match acc.1 !! i with
  | Some gamepad =>
      if decide (Some gamepad ∈ gamepads) then acc
      else (delete i acc.1, acc.2 ++ [_disconnect gamepad])
  | None => acc
  end.

(** The body of the second loop: an entry of the poll that is a gamepad
    not yet known is pushed and reported. *)
Definition add_new (acc : list P * list Call) (entry : option P)
  : list P * list Call :=
  match entry with
  | Some gamepad =>
      if decide (gamepad ∈ acc.1) then acc
      else (acc.1 ++ [gamepad], acc.2 ++ [_connect gamepad])
  | None => acc
  end.

(** [update()], [gamepads] being what [gamepadGetter()] returns and
    [known] the array [knownGamepads]; the first loop runs from the last
    index down to 0. *)
Definition update (gamepads : list (option P)) (known : list P)
  : list P * list Call :=
  foldl add_new
        (foldl (drop_gone gamepads) (known, []) (reverse (seq 0 (length known))))
        gamepads.

End Polling.

End Events.

(** ** The controls: the listeners [tetris.ts] binds to the gamepad *)

Module Controls.
Import JS Tetris Play.

(** The hold flags and the tick counter. *)
Record Holds : Type := mkHolds {
  holdLeft : bool;
  holdRight : bool;
  holdDown : bool;
  holdUp : bool;
  inputStep : Z
}.

Definition inputStepPause : Z := 6.

Definition with_holdLeft (h : Holds) (b : bool) : Holds :=
  mkHolds b (holdRight h) (holdDown h) (holdUp h) (inputStep h).

Definition with_holdRight (h : Holds) (b : bool) : Holds :=
  mkHolds (holdLeft h) b (holdDown h) (holdUp h) (inputStep h).

Definition with_holdDown (h : Holds) (b : bool) : Holds :=
  mkHolds (holdLeft h) (holdRight h) b (holdUp h) (inputStep h).

Definition with_holdUp (h : Holds) (b : bool) : Holds :=
  mkHolds (holdLeft h) (holdRight h) (holdDown h) b (inputStep h).

Definition with_inputStep (h : Holds) (n : Z) : Holds :=
  mkHolds (holdLeft h) (holdRight h) (holdDown h) (holdUp h) n.

(** [if (hold) { move(dir, offset); }] *)
Definition when_held (hold : bool) (step : Session -> result Session) (s : Session)
  : result Session :=
  if hold then step s else Ok s.

(** The listener of "tick"; [pick_down] and [pick_up] are the random
    indices of the [playerReset] of the two drops. *)
Definition on_tick (fuel pick_down pick_up : nat) (h : Holds) (s : Session)
  : result (Holds * Session) :=
  if inputStepPause <=? inputStep h then
    and_then (when_held (holdLeft h) (move fuel pick_down dir_x (-1)) s) (fun s =>
    and_then (when_held (holdRight h) (move fuel pick_down dir_x 1) s) (fun s =>
    and_then (when_held (holdDown h) (move fuel pick_down dir_y 1) s) (fun s =>
    and_then (when_held (holdUp h) (move fuel pick_up dir_y (-2)) s) (fun s =>
    Ok (with_inputStep h 0, s)))))
  else Ok (with_inputStep h (inputStep h + 1), s).

(** The listener of "tick" run [n] times. *)
Fixpoint ticks (fuel pick_down pick_up : nat) (n : nat) (h : Holds) (s : Session)
  : result (Holds * Session) :=
  match n with
  | O => Ok (h, s)
  | S n' =>
      and_then (on_tick fuel pick_down pick_up h s)
               (fun '(h', s') => ticks fuel pick_down pick_up n' h' s')
  end.

(** The listener of "axis-changed", on [e.axis] and [e.value]. *)
Definition on_axis_changed (axis : string) (value : Q) (h : Holds) : Holds :=
  if String.eqb axis "LEFT_STICK_X" then
    if Gamepad.Qltb value (-0.5) then with_holdRight (with_holdLeft h true) false
    else if Gamepad.Qltb 0.5 value then with_holdLeft (with_holdRight h true) false
    else if Gamepad.Qltb value 0.5 || Gamepad.Qltb (-0.5) value
         then with_holdRight (with_holdLeft h false) false
    else h
  else if String.eqb axis "LEFT_STICK_Y" then
    if Gamepad.Qltb 0.5 value then with_holdDown h true
    else if Gamepad.Qltb value 0.5 then with_holdDown h false
    else h
  else h.

(** The listener of "button-down", on [e.control]. *)
Definition on_button_down (fuel pick : nat) (control : string) (h : Holds)
    (s : Session) : result (Holds * Session) :=
  if String.eqb control "DPAD_LEFT" then Ok (with_holdLeft h true, s)
  else if String.eqb control "RIGHT_BOTTOM_SHOULDER" then Ok (h, s)
  else if String.eqb control "DPAD_RIGHT" then Ok (with_holdRight h true, s)
  else if String.eqb control "DPAD_DOWN" then Ok (with_holdDown h true, s)
  else if String.eqb control "DPAD_UP" then Ok (with_holdUp h true, s)
  else if String.eqb control "LEFT_TOP_SHOULDER"
       then and_then (move fuel pick dir_z 0 s) (fun s => Ok (h, s))
  else if String.eqb control "RIGHT_TOP_SHOULDER"
       then and_then (move fuel pick dir_z 1 s) (fun s => Ok (h, s))
  else if String.eqb control "START_FORWARD"
       then Ok (h, with_game s (togglePause (game s)))
  else if String.eqb control "SELECT_BACK"
       then Ok (h, with_game s (togglePause (game s)))
  else if String.eqb control "FACE_3"
       then and_then (switchMode pick (game s)) (fun g => Ok (h, with_game s g))
  else Ok (h, s).

(** The listener of "button-up". *)
Definition on_button_up (control : string) (h : Holds) : Holds :=
  if String.eqb control "DPAD_LEFT" then with_holdLeft h false
  else if String.eqb control "DPAD_RIGHT" then with_holdRight h false
  else if String.eqb control "DPAD_DOWN" then with_holdDown h false
  else if String.eqb control "DPAD_UP" then with_holdUp h false
  else h.

End Controls.

Import JS Tetris.

(** ** Vocabulary of the properties *)

Definition rotate4 (m : Matrix) (dir : Z) : Matrix :=
  rotate (rotate (rotate (rotate m dir) dir) dir) dir.

(** The piece of [p] holds [v] at row [y], column [x] of its matrix. *)
Definition piece_cell (p : Player) (y x : nat) (v : cell) : Prop :=
  exists row, matrix p !! y = Some row /\ row !! x = Some v.

(** Row [r], column [c] lies in [0,width) x [0,height). *)
Definition in_bounds (width height : nat) (r c : Z) : Prop :=
  (0 <= c < Z.of_nat width) /\ (0 <= r < Z.of_nat height).

(** An arena of [height] rows, each of [width] cells. *)
Definition is_arena (width height : nat) (a : Matrix) : Prop :=
  length a = height /\ Forall (fun row => length row = width) a.

(** Every cell of the arena is 0. *)
Definition arena_empty (a : Matrix) : Prop :=
  Forall (Forall (fun v => v = Num 0)) a.

(** The arena holds a non-zero value at row [r], column [c]. *)
Definition occupied (a : Matrix) (r c : Z) : Prop :=
  exists row v, get a r = Some row /\ get row c = Some v /\ v <> Num 0.

(** The environment object [_resolveMapping] builds. *)
Definition environment (platform id : string) : Gamepad.object :=
  [("platform"%string, platform);
   ("type"%string, Gamepad._resolveControllerType id)].

(** A row without an empty (zero) cell: the inner loop of [arenaSweep]
    runs to its end. *)
Definition row_full (row : list cell) : bool := negb (has_empty_cell row).

(** The rows without an empty cell, and the others, in arena order. *)
Definition full_rows (a : Matrix) : Matrix := List.filter row_full a.
Definition kept_rows (a : Matrix) : Matrix := List.filter has_empty_cell a.

(** The rows one sweep removes: once a full row is met at an index the
    scan visits (1 and below), every full row goes, the top one included
    since it has moved down by then; otherwise none. *)
Definition cleared_rows (a : Matrix) : Matrix :=
  if existsb row_full (tail a) then full_rows a else [].

(** The rows one sweep leaves in place. *)
Definition remaining_rows (a : Matrix) : Matrix :=
  if existsb row_full (tail a) then kept_rows a else a.

Definition rows_cleared (a : Matrix) : nat := length (cleared_rows a).

(** The scan leaves no full row behind: the top row has an empty cell, or
    a full row lies below it. *)
Definition scan_complete (a : Matrix) : Prop :=
  (forall top, a !! 0%nat = Some top -> has_empty_cell top = true)
  \/ existsb row_full (tail a) = true.

(** 10 + 20 + ... + 10 * 2^(n-1): the i-th cleared row awards
    10 * 2^(i-1). *)
Fixpoint award (n : nat) : Z :=
  match n with
  | O => 0
  | S n' => award n' + 10 * 2 ^ Z.of_nat n'
  end.

(** Fuel that suffices for one sweep of the arena. *)
Definition sweep_fuel (a : Matrix) : nat := S (2 * length a).

(** A matrix of [n] rows of [n] cells. *)
Definition square (n : nat) (m : Matrix) : Prop :=
  length m = n /\ Forall (fun row => length row = n) m.

(** [g'] is [g] with the piece moved to another column. *)
Definition same_but_column (g g' : Game) : Prop :=
  exists x', g' = with_player g (with_pos_x (player g) x').

(** The state [playerRotate] leaves when it gives up: the matrix turned
    by [- dir], the saved column [pos0] put back. *)
Definition undone (dir pos0 : Z) (g : Game) : Game :=
  with_player g (mkPlayer (mkPosition pos0 (pos_y (pos (player g))))
                          (rotate (matrix (player g)) (- dir))
                          (score (player g))).

(** ** Sample states *)

(** The arena of the game, [createMatrix(12, 20)]. *)
Definition empty_arena : Matrix := createMatrix 12 20.

Definition player_at (x y : Z) (type : PieceType) : Player :=
  mkPlayer (mkPosition x y) (createPiece type) 0.

Definition game_of (a : Matrix) (p : Player) : Game :=
  mkGame a p false Normal 1%Q.

(** An arena whose top row alone is full. *)
Definition top_full_arena : Matrix :=
  replicate 12 (Num 1) :: replicate 19 (replicate 12 (Num 0)).

(** An arena whose bottom row alone is full. *)
Definition bottom_full_arena : Matrix :=
  replicate 19 (replicate 12 (Num 0)) ++ [replicate 12 (Num 1)].

(** An arena with two full rows, the bottom one and the one two above. *)
Definition two_full_arena : Matrix :=
  replicate 17 (replicate 12 (Num 0))
  ++ [replicate 12 (Num 1); Num 0 :: replicate 11 (Num 1); replicate 12 (Num 2)].

(** A well: the four top rows empty, below them only column 0 free. *)
Definition well_arena : Matrix :=
  replicate 4 (replicate 12 (Num 0))
  ++ replicate 16 (Num 0 :: replicate 11 (Num 1)).

(** The I piece in the well, against the left wall, two rows down. *)
Definition game_in_well : Game :=
  game_of well_arena (player_at (-1) 2 Piece_I).

(** ** Vocabulary of the further properties *)

(** The piece sits on free cells inside the arena. *)
Definition legal (g : Game) : Prop := collide (arena g) (player g) = false.

(** Row [r], column [c] is an element of the arena. *)
Definition in_range (a : Matrix) (r c : Z) : Prop :=
  exists row, get a r = Some row /\ 0 <= c < Z.of_nat (length row).

(** Two matrices with rows of the same lengths. *)
Definition same_shape (a b : Matrix) : Prop := map length a = map length b.

(** The cells of the matrix are numbers. *)
Definition numeric (m : Matrix) : Prop :=
  Forall (Forall (fun v => v <> undefined)) m.

(** Row [r] is not a row of the arena. *)
Definition outside_rows (a : Matrix) (r : Z) : bool :=
  negb ((0 <=? r) && (r <? Z.of_nat (length a))).

(** Row [y] of the piece holds a cell that reads non-zero. *)
Definition row_has_block (p : Player) (y : nat) : bool :=
  for_any (length (default [] (matrix p !! y)))
          (fun x => strict_ne_zero (cell_at (matrix p) y x)).

(** The width of a piece: the length of the first row of its matrix. *)
Definition piece_width (type : PieceType) : nat :=
  length (default [] (createPiece type !! 0%nat)).

(** The column [playerReset] gives a fresh piece on an arena of [width]
    columns. *)
Definition spawn_column (width : nat) (type : PieceType) : Z :=
  Z.of_nat width / 2 - Z.of_nat (piece_width type) / 2.

(** The player [playerReset] sets up, before the collision test. *)
Definition fresh_player (width : nat) (type : PieceType) (sc : Z) : Player :=
  mkPlayer (mkPosition (spawn_column width type) 0) (createPiece type) sc.

(** ** Further sample states *)

Definition sample_square : Matrix :=
  [nums [1; 2; 3]; nums [4; 5; 6]; nums [7; 8; 9]].

(** The T piece resting on the full bottom row. *)
Definition session_resting : Play.Session :=
  Play.mkSession (game_of bottom_full_arena (player_at 5 17 Piece_T)) 350%Q.

(** The O piece as spawned on the empty arena. *)
Definition session_spawned : Play.Session :=
  Play.mkSession (game_of empty_arena (player_at 5 0 Piece_O)) 0%Q.

(** No character of the string is white space. *)
Fixpoint no_space (s : string) : bool :=
  match s with
  | EmptyString => true
  | String c s' => negb (Gamepad.is_space c) && no_space s'
  end.

(** The id as [_resolveControllerType] searches it. *)
Definition normalised (id : string) : string :=
  Gamepad.trim (Gamepad.squeeze_spaces false (Gamepad.toLowerCase id)).

(** The presses and releases of a trace alternate, starting from a button
    that is down or not: the result is whether the button is down at the
    end, [None] when a press follows a press or a release a release. *)
Fixpoint edges_from (down : bool) (fired : list Events.Event) : option bool :=
  match fired with
  | [] => Some down
  | Events.BUTTON_DOWN _ :: rest => if down then None else edges_from true rest
  | Events.BUTTON_UP _ :: rest => if down then edges_from false rest else None
  | Events.AXIS_CHANGED _ _ :: rest => edges_from down rest
  end.

(** The event reports a value strictly between rest and full, if it
    reports one. *)
Definition partial_value (e : Events.Event) : Prop :=
  match e with
  | Events.AXIS_CHANGED _ value => ~ (value == 0)%Q /\ ~ (value == 1)%Q
  | _ => True
  end.

(** The control an event names. *)
Definition control_of (e : Events.Event) : string :=
  match e with
  | Events.BUTTON_DOWN c | Events.BUTTON_UP c | Events.AXIS_CHANGED c _ => c
  end.

(** Listeners 1 and 2 bound to "tick", numbers standing for the
    functions. *)
Definition sample_listeners : gmap string (list nat) :=
  <["tick"%string := [1%nat; 2%nat]]> ∅.

(** Left and right held, the counter at [inputStepPause]. *)
Definition holding_both : Controls.Holds := Controls.mkHolds true true false false 6.

(** The O piece against the left wall of the empty arena. *)
Definition session_at_wall : Play.Session :=
  Play.mkSession (game_of empty_arena (player_at 0 0 Piece_O)) 0%Q.

(** ** Rotation of the seven pieces *)

(** C2: for each of the seven matrices of [createPiece], four [rotate]s in
    one direction (clockwise, [dir > 0], or counter-clockwise, [dir <= 0])
    give back the original cells. *)
Theorem rotate_four_times (type : PieceType) (dir : Z) :
  rotate4 (createPiece type) dir = createPiece type.
Proof.
  unfold rotate4, rotate.
  destruct (dir >? 0); destruct type; vm_compute; reflexivity.
Qed.

(** ** Rotation of a square matrix *)

Section SquareRotation.

Variable n : nat.

Lemma square_row (m : Matrix) (i : nat) (row : list cell) :
  square n m -> m !! i = Some row -> length row = n.
Proof.
  intros [_ Hrows] Hrow. exact (proj1 (Forall_lookup _ _) Hrows _ _ Hrow).
Qed.

Lemma for_each_S {S : Type} (k : nat) (body : S -> nat -> S) (s : S) :
  for_each (Datatypes.S k) body s = body (for_each k body s) k.
Proof. unfold for_each. now rewrite seq_S, foldl_snoc. Qed.

Lemma set_cell_square (m : Matrix) (r c : nat) (v : cell) :
  square n m -> (c < n)%nat -> square n (set_cell m r c v).
Proof.
  intros [Hlen Hrows] Hc. unfold set_cell. split.
  - now rewrite length_alter.
  - apply Forall_alter; [exact Hrows|].
    intros row _ Hrow. unfold write.
    destruct (decide (c < length row)%nat); [|lia].
    now rewrite length_insert.
Qed.

Lemma cell_at_set_cell (m : Matrix) (r c : nat) (v : cell) (i j : nat) :
  square n m -> (r < n)%nat -> (c < n)%nat ->
  cell_at (set_cell m r c v) i j
  = if decide (i = r /\ j = c) then v else cell_at m i j.
Proof.
  intros Hsq Hr Hc. unfold cell_at, set_cell.
  destruct (decide (r = i)) as [<-|Hne].
  - rewrite list_lookup_alter_eq.
    destruct (m !! r) as [row|] eqn:Hrow; simpl.
    + pose proof (square_row _ _ _ Hsq Hrow) as Hlen. unfold write.
      destruct (decide (c < length row)%nat); [|lia].
      destruct (decide (j = c)) as [->|Hj].
      * rewrite list_lookup_insert_eq by lia.
        destruct (decide (r = r /\ c = c)); [reflexivity|tauto].
      * rewrite list_lookup_insert_ne by congruence.
        destruct (decide (r = r /\ j = c)); [tauto|reflexivity].
    + apply lookup_ge_None in Hrow. destruct Hsq as [Hlen _]. lia.
  - rewrite list_lookup_alter_ne by exact Hne.
    destruct (decide (i = r /\ j = c)); [lia|reflexivity].
Qed.

Lemma swap_cells_square (m : Matrix) (y x : nat) :
  square n m -> (y < n)%nat -> (x < n)%nat -> square n (swap_cells m y x).
Proof.
  intros Hsq Hy Hx. unfold swap_cells.
  apply set_cell_square; [|exact Hy]. apply set_cell_square; assumption.
Qed.

Lemma cell_at_swap_cells (m : Matrix) (y x i j : nat) :
  square n m -> (y < n)%nat -> (x < n)%nat ->
  cell_at (swap_cells m y x) i j
  = if decide (i = x /\ j = y) then cell_at m y x
    else if decide (i = y /\ j = x) then cell_at m x y
    else cell_at m i j.
Proof.
  intros Hsq Hy Hx. unfold swap_cells.
  rewrite cell_at_set_cell by (try apply set_cell_square; assumption).
  destruct (decide (i = x /\ j = y)); [reflexivity|].
  now rewrite cell_at_set_cell by assumption.
Qed.

(** The inner loop at row [y], after the columns below [k]. *)
Lemma inner_loop_spec (m : Matrix) (y k : nat) :
  square n m -> (y < n)%nat -> (k <= y)%nat ->
  square n (for_each k (fun m x => swap_cells m y x) m)
  /\ forall i j, (i < n)%nat -> (j < n)%nat ->
       cell_at (for_each k (fun m x => swap_cells m y x) m) i j
       = if decide ((i = y /\ j < k) \/ (j = y /\ i < k))%nat
         then cell_at m j i else cell_at m i j.
Proof.
  intros Hsq Hy. induction k as [|k IH]; intros Hk.
  - split; [exact Hsq|]. intros i j _ _.
    destruct (decide _) as [H|_]; [lia|reflexivity].
  - destruct IH as [IHsq IHcell]; [lia|]. rewrite for_each_S. split.
    + apply swap_cells_square; [assumption|lia|lia].
    + intros i j Hi Hj. rewrite cell_at_swap_cells by (assumption || lia).
      rewrite !IHcell by lia.
      repeat destruct (decide _); try reflexivity; try lia;
        try (f_equal; lia).
      all: destruct_and?; subst; try reflexivity; try lia.
Qed.


(** The outer loop, after the rows above [k]. *)
Lemma outer_loop_spec (m : Matrix) (k : nat) :
  square n m -> (k <= n)%nat ->
  square n (for_each k (fun m y => for_each y (fun m x => swap_cells m y x) m) m)
  /\ forall i j, (i < n)%nat -> (j < n)%nat ->
       cell_at (for_each k
                  (fun m y => for_each y (fun m x => swap_cells m y x) m) m) i j
       = if decide (i < k /\ j < k)%nat then cell_at m j i else cell_at m i j.
Proof.
  intros Hsq. induction k as [|k IH]; intros Hk.
  - split; [exact Hsq|]. intros i j _ _.
    destruct (decide _) as [H|_]; [lia|reflexivity].
  - destruct IH as [IHsq IHcell]; [lia|]. rewrite for_each_S.
    destruct (inner_loop_spec _ k k IHsq) as [Hsq' Hcell']; [lia|lia|].
    split; [exact Hsq'|].
    intros i j Hi Hj. rewrite Hcell', !IHcell by lia.
    repeat destruct (decide _); try reflexivity; try lia.
    all: destruct_or?; destruct_and?; subst; try reflexivity; try lia.
    all: assert (i = j) as -> by lia; reflexivity.
Qed.

Lemma transpose_in_place_spec (m : Matrix) :
  square n m ->
  square n (transpose_in_place m)
  /\ forall i j, (i < n)%nat -> (j < n)%nat ->
       cell_at (transpose_in_place m) i j = cell_at m j i.
Proof.
  intros Hsq. unfold transpose_in_place. rewrite (proj1 Hsq).
  destruct (outer_loop_spec m n Hsq) as [Hsq' Hcell]; [lia|].
  split; [exact Hsq'|]. intros i j Hi Hj. rewrite Hcell by lia.
  destruct (decide _); [reflexivity|lia].
Qed.

Lemma square_reverse (m : Matrix) : square n m -> square n (reverse m).
Proof.
  intros [Hlen Hrows]. split; [now rewrite length_reverse|].
  now apply Forall_reverse.
Qed.

Lemma square_map_reverse (m : Matrix) : square n m -> square n (map reverse m).
Proof.
  intros [Hlen Hrows]. split; [now rewrite length_map|].
  apply Forall_map. eapply Forall_impl; [exact Hrows|].
  intros row Hrow. simpl. now rewrite length_reverse.
Qed.

Lemma cell_at_reverse (m : Matrix) (i j : nat) :
  square n m -> (i < n)%nat ->
  cell_at (reverse m) i j = cell_at m (n - S i) j.
Proof.
  intros [Hlen _] Hi. unfold cell_at.
  rewrite reverse_lookup by lia. now rewrite Hlen.
Qed.

Lemma cell_at_map_reverse (m : Matrix) (i j : nat) :
  square n m -> (j < n)%nat ->
  cell_at (map reverse m) i j = cell_at m i (n - S j).
Proof.
  intros Hsq Hj. unfold cell_at. rewrite list_lookup_fmap.
  destruct (m !! i) as [row|] eqn:Hrow; simpl; [|reflexivity].
  pose proof (square_row _ _ _ Hsq Hrow) as Hlen.
  rewrite reverse_lookup by lia. now rewrite Hlen.
Qed.

(** Two square matrices with the same cells are equal. *)
Lemma square_ext (m1 m2 : Matrix) :
  square n m1 -> square n m2 ->
  (forall i j, (i < n)%nat -> (j < n)%nat -> cell_at m1 i j = cell_at m2 i j) ->
  m1 = m2.
Proof.
  intros Hsq1 Hsq2 Hcells.
  apply (list_eq_same_length _ _ n); [apply Hsq2|apply Hsq1|].
  intros i row1 row2 Hi Hrow1 Hrow2.
  apply (list_eq_same_length _ _ n);
    [exact (square_row _ _ _ Hsq2 Hrow2)|exact (square_row _ _ _ Hsq1 Hrow1)|].
  intros j v1 v2 Hj Hv1 Hv2.
  specialize (Hcells i j Hi Hj). unfold cell_at in Hcells.
  now rewrite Hrow1, Hrow2, Hv1, Hv2 in Hcells.
Qed.

Lemma rotate_square (m : Matrix) (dir : Z) :
  square n m -> square n (rotate m dir).
Proof.
  intros Hsq. unfold rotate.
  destruct (transpose_in_place_spec m Hsq) as [Hsq' _].
  destruct (dir >? 0); [now apply square_map_reverse|now apply square_reverse].
Qed.

(** Clockwise: the cell at row [i], column [j] comes from row [n-1-j],
    column [i]. *)
Lemma cell_at_rotate_cw (m : Matrix) (dir : Z) (i j : nat) :
  square n m -> dir > 0 -> (i < n)%nat -> (j < n)%nat ->
  cell_at (rotate m dir) i j = cell_at m (n - S j) i.
Proof.
  intros Hsq Hdir Hi Hj. unfold rotate.
  destruct (transpose_in_place_spec m Hsq) as [Hsq' Hcell].
  destruct (Z.gtb_spec dir 0); [|lia].
  rewrite cell_at_map_reverse by assumption. apply Hcell; lia.
Qed.

(** Counter-clockwise: the cell at row [i], column [j] comes from row
    [j], column [n-1-i]. *)
Lemma cell_at_rotate_ccw (m : Matrix) (dir : Z) (i j : nat) :
  square n m -> dir <= 0 -> (i < n)%nat -> (j < n)%nat ->
  cell_at (rotate m dir) i j = cell_at m j (n - S i).
Proof.
  intros Hsq Hdir Hi Hj. unfold rotate.
  destruct (transpose_in_place_spec m Hsq) as [Hsq' Hcell].
  destruct (Z.gtb_spec dir 0); [lia|].
  rewrite cell_at_reverse by assumption. apply Hcell; lia.
Qed.

(** Turning back undoes a turn, for every direction but 0. *)
Lemma rotate_undo (m : Matrix) (dir : Z) :
  square n m -> dir <> 0 -> rotate (rotate m dir) (- dir) = m.
Proof.
  intros Hsq Hdir.
  apply square_ext; [now apply rotate_square, rotate_square|exact Hsq|].
  intros i j Hi Hj. destruct (Z.lt_ge_cases 0 dir).
  - rewrite cell_at_rotate_ccw by (try apply rotate_square; assumption || lia).
    rewrite cell_at_rotate_cw by (assumption || lia).
    f_equal. lia.
  - rewrite cell_at_rotate_cw by (try apply rotate_square; assumption || lia).
    rewrite cell_at_rotate_ccw by (assumption || lia).
    f_equal. lia.
Qed.

(** At [dir = 0] the turn back is a second turn the same way: a half
    turn in all. *)
Lemma rotate_zero_twice (m : Matrix) (i j : nat) :
  square n m -> (i < n)%nat -> (j < n)%nat ->
  cell_at (rotate (rotate m 0) (- 0)) i j = cell_at m (n - S i) (n - S j).
Proof.
  intros Hsq Hi Hj.
  rewrite cell_at_rotate_ccw by (try apply rotate_square; assumption || lia).
  rewrite cell_at_rotate_ccw by (assumption || lia).
  reflexivity.
Qed.

End SquareRotation.

(** ** Horizontal moves *)

Lemma with_pos_x_back (p : Player) (offset : Z) :
  with_pos_x (with_pos_x p (pos_x (pos p) + offset))
             (pos_x (pos (with_pos_x p (pos_x (pos p) + offset))) - offset) = p.
Proof.
  destruct p as [[px py] m s]; unfold with_pos_x; simpl.
  f_equal. f_equal. lia.
Qed.

(** C10: when moves are allowed (the game is not paused, or the mode is
    Fill) and the piece shifted by [offset] collides, [playerMove offset]
    leaves position, matrix, score and arena, indeed the whole state, as
    they were. *)
Theorem playerMove_atomic_on_collision (offset : Z) (g : Game) :
  gamePaused g = false \/ mode g = Fill ->
  collide (arena g)
          (with_pos_x (player g) (pos_x (pos (player g)) + offset)) = true ->
  playerMove offset g = g.
Proof.
  intros Hmove Hcol. unfold playerMove.
  assert (may_move g = true) as ->.
  { unfold may_move. destruct Hmove as [-> | ->]; [reflexivity|].
    apply orb_true_r. }
  destruct g as [a p paused md sp]; simpl in *.
  rewrite Hcol. unfold with_player; simpl.
  now rewrite with_pos_x_back.
Qed.

Lemma playerMove_atomic_on_collision_witness :
  playerMove 1 (game_of empty_arena (player_at 10 0 Piece_O))
  = game_of empty_arena (player_at 10 0 Piece_O).
Proof.
  apply (playerMove_atomic_on_collision 1
           (game_of empty_arena (player_at 10 0 Piece_O))).
  - left. reflexivity.
  - vm_compute. reflexivity.
Defined.

(** ** Score-driven speed *)

Ltac decide_band :=
  repeat match goal with
         | |- context [?a >? ?b] => destruct (Z.gtb_spec a b); try lia
         | |- context [?a <? ?b] => destruct (Z.ltb_spec a b); try lia
         end.

Lemma updateScore_band (g : Game) (k : Z) :
  1 <= k <= 9 ->
  30 * k < score (player g) < 30 * (k + 1) ->
  (speedModifier (updateScore g) == 1 - 0.1 * inject_Z k)%Q.
Proof.
  intros Hk Hs. unfold updateScore.
  assert (k = 1 \/ k = 2 \/ k = 3 \/ k = 4 \/ k = 5 \/ k = 6 \/ k = 7
          \/ k = 8 \/ k = 9) as Hcases by lia.
  destruct Hcases as [-> | [-> | [-> | [-> | [-> | [-> | [-> | [-> | ->]]]]]]]];
    decide_band; simpl; reflexivity.
Qed.

Lemma updateScore_floor (g : Game) :
  (0.1 <= speedModifier g)%Q -> (0.1 <= speedModifier (updateScore g))%Q.
Proof.
  intros Hg. unfold updateScore.
  repeat match goal with
         | |- context [if ?c then _ else _] => destruct c
         end; simpl; try assumption; vm_compute; discriminate.
Qed.

Lemma playerReset_floor (pick : nat) (g g' : Game) :
  playerReset pick g = Ok g' -> (0.1 <= speedModifier g')%Q.
Proof.
  unfold playerReset.
  destruct (pieces !! pick); [|discriminate].
  destruct (arena g !! 0%nat); [|discriminate].
  match goal with |- context [if ?c then _ else _] => destruct c end;
    intros [= <-].
  - apply updateScore_floor. vm_compute. discriminate.
  - vm_compute. discriminate.
Qed.

(** At 30 and below, on the band borders 60, 90, ..., 270 and from 300 on,
    [updateScore] leaves the multiplier as it finds it. *)
Lemma updateScore_outside_bands (g : Game) :
  score (player g) <= 30 \/ 300 <= score (player g)
  \/ (exists k, 2 <= k <= 9 /\ score (player g) = 30 * k) ->
  updateScore g = g.
Proof.
  intros Hs. unfold updateScore.
  destruct Hs as [Hs | [Hs | (k & Hk & Hs)]]; decide_band; reflexivity.
Qed.

(** C7: after [updateScore], a score in the k-th 30-point band,
    30k < score < 30(k+1) with k = 1..9, gives the gravity multiplier
    1 - 0.1 k; and the multiplier never goes below 0.1: [updateScore]
    keeps it at or above 0.1 and [playerReset] sets it back to 1. *)
Theorem speedModifier_bands (g : Game) :
  (forall k : Z, 1 <= k <= 9 ->
     30 * k < score (player g) < 30 * (k + 1) ->
     (speedModifier (updateScore g) == 1 - 0.1 * inject_Z k)%Q)
  /\ ((0.1 <= speedModifier g)%Q -> (0.1 <= speedModifier (updateScore g))%Q)
  /\ (forall pick g', playerReset pick g = Ok g' -> (0.1 <= speedModifier g')%Q).
Proof.
  split; [|split].
  - intros k. apply updateScore_band.
  - apply updateScore_floor.
  - intros pick g'. apply playerReset_floor.
Qed.

Lemma speedModifier_bands_witness :
  (speedModifier
     (updateScore (game_of empty_arena (mkPlayer (mkPosition 5 0) [] 70)))
   == 1 - 0.1 * inject_Z 2)%Q
  /\ (0.1 <= speedModifier
               (updateScore (game_of empty_arena (mkPlayer (mkPosition 5 0) [] 70))))%Q
  /\ (0.1 <= speedModifier (game_of empty_arena (player_at 5 0 Piece_O)))%Q.
Proof.
  pose proof (speedModifier_bands
                (game_of empty_arena (mkPlayer (mkPosition 5 0) [] 70)))
    as [Hb [Hf _]].
  split; [|split].
  - apply (Hb 2); simpl; lia.
  - apply Hf. vm_compute. discriminate.
  - pose proof (speedModifier_bands (game_of empty_arena (player_at 0 7 Piece_T)))
      as [_ [_ Hr]].
    apply (Hr 3%nat). vm_compute. reflexivity.
Defined.

(** ** The dead-zone filter of the gamepad library *)

Lemma Qltb_lt (a b : Q) : Gamepad.Qltb a b = true <-> (a < b)%Q.
Proof.
  unfold Gamepad.Qltb. rewrite negb_true_iff.
  split.
  - intros H. apply Qnot_le_lt. intros Hle.
    apply Qle_bool_iff in Hle. congruence.
  - intros H. destruct (Qle_bool b a) eqn:E; [|reflexivity].
    apply Qle_bool_iff in E. lra.
Qed.

Lemma Qltb_ge (a b : Q) : Gamepad.Qltb a b = false <-> (b <= a)%Q.
Proof.
  unfold Gamepad.Qltb. rewrite negb_false_iff. apply Qle_bool_iff.
Qed.

Ltac decide_filter :=
  repeat match goal with
         | |- context [Qle_bool ?a ?b] =>
             let E := fresh "E" in
             destruct (Qle_bool a b) eqn:E;
             [apply Qle_bool_iff in E
             |assert (b < a)%Q
                by (apply Qnot_le_lt; intros ?%Qle_bool_iff; congruence);
              clear E]
         | |- context [Gamepad.Qltb ?a ?b] =>
             let E := fresh "E" in
             destruct (Gamepad.Qltb a b) eqn:E;
             [apply Qltb_lt in E | apply Qltb_ge in E]
         end.

(** C8: with the default thresholds 0.03 and 0.97, the filter maps every
    value of the open interval (-0.03, 0.03) to 0, every value above 0.97
    to 1, every value below -0.97 to -1, and returns any other value as
    it is. *)
Theorem applyDeadzoneMaximize_default (value : Q) :
  let out := Gamepad._applyDeadzoneMaximize Gamepad.default_thresholds
                                             value None None in
  ((- 0.03 < value /\ value < 0.03)%Q -> out = 0%Q)
  /\ ((0.97 < value)%Q -> out = 1%Q)
  /\ ((value < - 0.97)%Q -> out = (-1)%Q)
  /\ (~ (- 0.03 < value /\ value < 0.03)%Q -> ~ (0.97 < value)%Q ->
      ~ (value < - 0.97)%Q -> out = value).
Proof.
  unfold Gamepad._applyDeadzoneMaximize; simpl.
  repeat split; intros; decide_filter;
    try reflexivity; exfalso; try lra;
    match goal with
    | H : ~ _ |- _ => apply H; lra
    end.
Qed.

Lemma applyDeadzoneMaximize_default_witness :
  Gamepad._applyDeadzoneMaximize Gamepad.default_thresholds 0.02%Q None None = 0%Q
  /\ Gamepad._applyDeadzoneMaximize Gamepad.default_thresholds 0.98%Q None None = 1%Q
  /\ Gamepad._applyDeadzoneMaximize Gamepad.default_thresholds (- 0.98)%Q None None
     = (-1)%Q
  /\ Gamepad._applyDeadzoneMaximize Gamepad.default_thresholds 0.5%Q None None
     = 0.5%Q.
Proof.
  split; [|split; [|split]].
  - apply (applyDeadzoneMaximize_default 0.02%Q). split; reflexivity.
  - apply (applyDeadzoneMaximize_default 0.98%Q). reflexivity.
  - apply (applyDeadzoneMaximize_default (- 0.98)%Q). reflexivity.
  - apply (applyDeadzoneMaximize_default 0.5%Q).
    + intros [_ H]. vm_compute in H. discriminate.
    + intros H. vm_compute in H. discriminate.
    + intros H. vm_compute in H. discriminate.
Defined.

(** ** Resolution of the controller mapping *)

Lemma first_match_none (mappings : list Gamepad.Mapping) (e : Gamepad.object) :
  (forall test, In test mappings ->
                Gamepad.envMatchesFilter (Gamepad.env test) e = false) ->
  Gamepad.first_match mappings e = None.
Proof.
  induction mappings as [|test rest IH]; intros Hnone; simpl.
  - reflexivity.
  - rewrite (Hnone test) by (left; reflexivity).
    apply IH. intros t Ht. apply Hnone. right. exact Ht.
Qed.

(** A controller of unknown type gets the standard mapping on every
    platform: each entry of [Mappings] names a type. *)
Lemma resolveMapping_unknown_type (platform id : string) :
  Gamepad._resolveControllerType id = Gamepad.Type_UNKNOWN ->
  Gamepad._resolveMapping platform id = Gamepad.StandardMapping.
Proof.
  intros Htype. unfold Gamepad._resolveMapping. rewrite Htype.
  cbn.
  repeat match goal with
         | |- context [String.eqb ?a platform] => destruct (String.eqb a platform)
         end; reflexivity.
Qed.

(** C9: on the Firefox platform the identity string
    "Xbox 360 Controller (XInput STANDARD GAMEPAD)" resolves to the
    XBOX/Firefox entry of [Mappings] (the third one), which is not the
    standard mapping; and whenever no entry of [Mappings] matches the
    platform and the controller type, [_resolveMapping] returns
    [StandardMapping]. *)
Theorem resolveMapping_xbox_firefox_and_fallback :
  (Gamepad.Mappings !! 2%nat
   = Some (Gamepad._resolveMapping Gamepad.FirefoxPlatform_getType
             "Xbox 360 Controller (XInput STANDARD GAMEPAD)")
   /\ Gamepad.env (Gamepad._resolveMapping Gamepad.FirefoxPlatform_getType
                     "Xbox 360 Controller (XInput STANDARD GAMEPAD)")
      = [("platform"%string, Gamepad.FirefoxPlatform_getType);
         ("type"%string, Gamepad.Type_XBOX)]
   /\ Gamepad._resolveMapping Gamepad.FirefoxPlatform_getType
        "Xbox 360 Controller (XInput STANDARD GAMEPAD)"
      <> Gamepad.StandardMapping)
  /\ (forall platform id : string,
        (forall test, In test Gamepad.Mappings ->
           Gamepad.envMatchesFilter (Gamepad.env test) (environment platform id)
           = false) ->
        Gamepad._resolveMapping platform id = Gamepad.StandardMapping).
Proof.
  split.
  - split; [|split].
    + vm_compute. reflexivity.
    + vm_compute. reflexivity.
    + vm_compute. discriminate.
  - intros platform id Hnone. unfold Gamepad._resolveMapping.
    fold (environment platform id).
    now rewrite (first_match_none _ _ Hnone).
Qed.

Lemma resolveMapping_xbox_firefox_and_fallback_witness :
  Gamepad._resolveMapping Gamepad.WebKitPlatform_getType
    "Xbox 360 Controller (XInput STANDARD GAMEPAD)"
  = Gamepad.StandardMapping.
Proof.
  apply (proj2 resolveMapping_xbox_firefox_and_fallback).
  intros test Hin.
  repeat (destruct Hin as [<- | Hin]; [vm_compute; reflexivity|]).
  destruct Hin.
Defined.

(** ** Collision *)

Section Collide.

Lemma for_any_true (n : nat) (test : nat -> bool) :
  for_any n test = true <-> exists i, (i < n)%nat /\ test i = true.
Proof.
  unfold for_any. rewrite existsb_exists. split.
  - intros (i & Hin & Hi). apply in_seq in Hin. exists i. split; [lia|exact Hi].
  - intros (i & Hlt & Hi). exists i. split; [apply in_seq; lia|exact Hi].
Qed.

Lemma strict_ne_zero_true (v : cell) : strict_ne_zero v = true <-> v <> Num 0.
Proof.
  unfold strict_ne_zero, strict_eq_zero.
  destruct v as [|[| |]]; simpl; split; congruence.
Qed.

Lemma get_of_nat {A : Type} (l : list A) (n : nat) : get l (Z.of_nat n) = l !! n.
Proof.
  unfold get. destruct (Z.ltb_spec (Z.of_nat n) 0); [lia|].
  now rewrite Nat2Z.id.
Qed.

Lemma get_Some {A : Type} (l : list A) (i : Z) (a : A) :
  get l i = Some a -> 0 <= i < Z.of_nat (length l).
Proof.
  unfold get. destruct (Z.ltb_spec i 0); [discriminate|].
  intros Hl. apply lookup_lt_Some in Hl. lia.
Qed.

Lemma get_None {A : Type} (l : list A) (i : Z) :
  ~ (0 <= i < Z.of_nat (length l)) -> get l i = None.
Proof.
  intros Hout. unfold get. destruct (Z.ltb_spec i 0); [reflexivity|].
  apply lookup_ge_None. lia.
Qed.

Lemma piece_cell_cell_at (p : Player) (y x : nat) (v : cell) :
  piece_cell p y x v -> cell_at (matrix p) y x = v.
Proof.
  intros (row & Hrow & Hv). unfold cell_at. now rewrite Hrow, Hv.
Qed.

(** [collide] answers true exactly when some cell of the piece read as
    non-zero sits on an arena position read as non-zero. *)
Lemma collide_true_iff (a : Matrix) (p : Player) :
  collide a p = true <->
  exists y x v, piece_cell p y x v /\ v <> Num 0 /\
    arena_cell a (Z.of_nat y + pos_y (pos p)) (Z.of_nat x + pos_x (pos p))
    <> Num 0.
Proof.
  unfold collide. rewrite for_any_true. split.
  - intros (y & Hy & Hrow). apply for_any_true in Hrow as (x & Hx & Hcell).
    apply andb_true_iff in Hcell as [Hp Ha].
    apply lookup_lt_is_Some in Hy as [row Hrow]. rewrite Hrow in Hx; simpl in Hx.
    apply lookup_lt_is_Some in Hx as [v Hv].
    exists y, x, v. split; [exists row; split; assumption|].
    unfold cell_at in Hp. rewrite Hrow, Hv in Hp; simpl in Hp.
    split; apply strict_ne_zero_true; assumption.
  - intros (y & x & v & Hcell & Hv & Ha).
    pose proof (piece_cell_cell_at _ _ _ _ Hcell) as Hat.
    destruct Hcell as (row & Hrow & Hx).
    exists y. split; [eapply lookup_lt_Some; eassumption|].
    apply for_any_true. exists x. rewrite Hrow; simpl.
    split; [eapply lookup_lt_Some; eassumption|].
    rewrite Hat. apply andb_true_iff.
    split; apply strict_ne_zero_true; assumption.
Qed.

Lemma collide_false_iff (a : Matrix) (p : Player) :
  collide a p = false <->
  forall y x v, piece_cell p y x v -> v <> Num 0 ->
    arena_cell a (Z.of_nat y + pos_y (pos p)) (Z.of_nat x + pos_x (pos p))
    = Num 0.
Proof.
  rewrite <- not_true_iff_false, collide_true_iff. split.
  - intros Hno y x v Hcell Hv.
    destruct (decide (arena_cell a (Z.of_nat y + pos_y (pos p))
                                   (Z.of_nat x + pos_x (pos p)) = Num 0))
      as [Heq | Hne]; [exact Heq|].
    exfalso. apply Hno. exists y, x, v. auto.
  - intros Hall (y & x & v & Hcell & Hv & Ha). apply Ha. eauto.
Qed.

Variables (width height : nat) (a : Matrix).
Hypothesis Harena : is_arena width height a.

Lemma arena_cell_outside (r c : Z) :
  ~ in_bounds width height r c -> arena_cell a r c = undefined.
Proof.
  destruct Harena as [Hh Hw]. intros Hout. unfold arena_cell.
  destruct (get a r) as [row|] eqn:Hrow; [|reflexivity].
  unfold read. rewrite get_None; [reflexivity|].
  apply get_Some in Hrow as Hr. unfold get in Hrow.
  destruct (r <? 0); [discriminate|].
  rewrite (proj1 (Forall_lookup _ _) Hw _ _ Hrow).
  intros Hc. apply Hout. split; [exact Hc|]. now rewrite <- Hh.
Qed.

Lemma arena_cell_inside_empty (r c : Z) :
  arena_empty a -> in_bounds width height r c -> arena_cell a r c = Num 0.
Proof.
  destruct Harena as [Hh Hw]. intros Hempty [Hc Hr]. unfold arena_cell, read, get.
  destruct (Z.ltb_spec r 0); [lia|]. destruct (Z.ltb_spec c 0); [lia|].
  destruct (lookup_lt_is_Some_2 a (Z.to_nat r)) as [row Hrow]; [lia|].
  rewrite Hrow.
  pose proof (proj1 (Forall_lookup _ _) Hw _ _ Hrow) as Hlen.
  cbv beta in Hlen.
  destruct (lookup_lt_is_Some_2 row (Z.to_nat c)) as [v Hv]; [lia|].
  rewrite Hv; simpl.
  pose proof (proj1 (Forall_lookup _ _) Hempty _ _ Hrow) as Hrow0.
  exact (proj1 (Forall_lookup _ _) Hrow0 _ _ Hv).
Qed.

Lemma arena_cell_occupied (r c : Z) :
  occupied a r c -> arena_cell a r c <> Num 0.
Proof.
  intros (row & v & Hrow & Hv & Hne). unfold arena_cell, read.
  now rewrite Hrow, Hv.
Qed.

End Collide.

(** C1: on an arena of [width] x [height] cells, [collide] returns false
    when the arena is empty and every non-zero cell of the piece lies
    within the bounds, and returns true when some non-zero cell of the
    piece overlaps a non-zero arena cell or falls outside
    [0,width) x [0,height). *)
Theorem collide_empty_inside_or_blocked
    (width height : nat) (a : Matrix) (p : Player) :
  is_arena width height a ->
  (arena_empty a ->
   (forall y x v, piece_cell p y x v -> v <> Num 0 ->
      in_bounds width height (Z.of_nat y + pos_y (pos p))
                             (Z.of_nat x + pos_x (pos p))) ->
   collide a p = false)
  /\
  ((exists y x v, piece_cell p y x v /\ v <> Num 0 /\
      (occupied a (Z.of_nat y + pos_y (pos p)) (Z.of_nat x + pos_x (pos p))
       \/ ~ in_bounds width height (Z.of_nat y + pos_y (pos p))
                                   (Z.of_nat x + pos_x (pos p)))) ->
   collide a p = true).
Proof.
  intros Harena. split.
  - intros Hempty Hin. apply collide_false_iff. intros y x v Hcell Hv.
    eapply arena_cell_inside_empty; eauto.
  - intros (y & x & v & Hcell & Hv & Hblock). apply collide_true_iff.
    exists y, x, v. repeat split; try assumption.
    destruct Hblock as [Hocc | Hout].
    + now apply arena_cell_occupied.
    + rewrite (arena_cell_outside _ _ _ Harena _ _ Hout). discriminate.
Qed.

Lemma empty_arena_is_arena : is_arena 12 20 empty_arena.
Proof.
  split; [reflexivity|]. unfold empty_arena, createMatrix.
  apply Forall_replicate. reflexivity.
Qed.

Lemma empty_arena_empty : arena_empty empty_arena.
Proof.
  unfold arena_empty, empty_arena, createMatrix.
  apply Forall_replicate, Forall_replicate. reflexivity.
Qed.

(** The cells of the O piece: rows 0 and 1, columns 0 and 1. *)
Lemma piece_cell_O (px py : Z) (y x : nat) (v : cell) :
  piece_cell (player_at px py Piece_O) y x v -> (y < 2)%nat /\ (x < 2)%nat.
Proof.
  intros (row & Hrow & Hv). simpl in Hrow.
  destruct y as [|[|y]]; try discriminate;
    injection Hrow as <-;
    apply lookup_lt_Some in Hv; simpl in Hv; lia.
Qed.

Lemma collide_empty_inside_or_blocked_witness :
  collide empty_arena (player_at 5 0 Piece_O) = false
  /\ collide empty_arena (player_at 11 0 Piece_O) = true
  /\ collide (<[1%nat := replicate 12 (Num 3)]> empty_arena)
             (player_at 5 0 Piece_O) = true.
Proof.
  split; [|split].
  - apply (proj1 (collide_empty_inside_or_blocked 12 20 empty_arena
                    (player_at 5 0 Piece_O) empty_arena_is_arena)).
    + exact empty_arena_empty.
    + intros y x v Hcell _. apply piece_cell_O in Hcell.
      unfold in_bounds; simpl. lia.
  - apply (proj2 (collide_empty_inside_or_blocked 12 20 empty_arena
                    (player_at 11 0 Piece_O) empty_arena_is_arena)).
    exists 0%nat, 1%nat, (Num 4). split; [|split].
    + exists (nums [4; 4]). split; reflexivity.
    + discriminate.
    + right. unfold in_bounds; simpl. lia.
  - assert (is_arena 12 20 (<[1%nat := replicate 12 (Num 3)]> empty_arena))
      as Hwf.
    { split; [reflexivity|]. vm_compute.
      repeat (constructor; [reflexivity|]). constructor. }
    apply (proj2 (collide_empty_inside_or_blocked 12 20
                    (<[1%nat := replicate 12 (Num 3)]> empty_arena)
                    (player_at 5 0 Piece_O) Hwf)).
    exists 1%nat, 0%nat, (Num 4). split; [|split].
    + exists (nums [4; 4]). split; reflexivity.
    + discriminate.
    + left. exists (replicate 12 (Num 3)), (Num 3).
      split; [reflexivity|]. split; [reflexivity|discriminate].
Defined.

(** ** Rows above the arena *)

(** A position whose row index is negative reads [undefined]. *)
Lemma arena_cell_above (a : Matrix) (r c : Z) :
  r < 0 -> arena_cell a r c = undefined.
Proof.
  intros Hr. unfold arena_cell, get.
  destruct (Z.ltb_spec r 0); [reflexivity|lia].
Qed.

(** C5, as the code has it: rows above the arena top collide. Whenever a
    non-zero cell of the piece has a row index [y + pos.y < 0], [collide]
    returns true, whatever the arena and the columns. *)
Theorem collide_above_top (a : Matrix) (p : Player) :
  (exists y x v, piece_cell p y x v /\ v <> Num 0 /\
                 Z.of_nat y + pos_y (pos p) < 0) ->
  collide a p = true.
Proof.
  intros (y & x & v & Hcell & Hv & Habove). apply collide_true_iff.
  exists y, x, v. repeat split; try assumption.
  rewrite arena_cell_above by exact Habove. discriminate.
Qed.

Lemma collide_above_top_witness :
  collide empty_arena (player_at 5 (-1) Piece_T) = true.
Proof.
  apply (collide_above_top empty_arena (player_at 5 (-1) Piece_T)).
  exists 0%nat, 1%nat, (Num 7). split; [|split].
  - exists (nums [0; 7; 0]). split; reflexivity.
  - discriminate.
  - simpl. lia.
Defined.

(** C5 as claimed fails: the O piece two rows above the empty 12 x 20
    arena has all its cells above the top, with columns 5 and 6 inside
    the arena, and [collide] returns true. *)
Lemma collide_above_top_counterexample :
  is_arena 12 20 empty_arena
  /\ (forall y x v, piece_cell (player_at 5 (-2) Piece_O) y x v -> v <> Num 0 ->
        Z.of_nat y + pos_y (pos (player_at 5 (-2) Piece_O)) < 0
        /\ 0 <= Z.of_nat x + pos_x (pos (player_at 5 (-2) Piece_O)) < 12)
  /\ collide empty_arena (player_at 5 (-2) Piece_O) <> false.
Proof.
  split; [exact empty_arena_is_arena|]. split.
  - intros y x v Hcell _. apply piece_cell_O in Hcell. simpl. lia.
  - vm_compute. discriminate.
Qed.

(** ** Line sweep *)

Lemma existsb_indexed {A : Type} (f : A -> bool) (d : A) (l : list A) :
  for_any (length l) (fun i => f (default d (l !! i))) = existsb f l.
Proof.
  apply eq_true_iff_eq. rewrite for_any_true, existsb_exists. split.
  - intros (i & Hi & Hf). apply lookup_lt_is_Some in Hi as [x Hx].
    rewrite Hx in Hf. exists x. split; [|exact Hf].
    apply list_elem_of_In, list_elem_of_lookup. eauto.
  - intros (x & Hin & Hf).
    apply list_elem_of_In, list_elem_of_lookup in Hin as [i Hi].
    exists i. split; [eapply lookup_lt_Some; eassumption|].
    now rewrite Hi.
Qed.

Lemma has_empty_cell_existsb (row : list cell) :
  has_empty_cell row = existsb strict_eq_zero row.
Proof. apply existsb_indexed. Qed.

Lemma has_empty_cell_fill_zero (row : list cell) :
  row <> [] -> has_empty_cell (fill_zero row) = true.
Proof.
  rewrite has_empty_cell_existsb. destruct row as [|v row]; [congruence|].
  reflexivity.
Qed.

Lemma award_closed (n : nat) : award n = 10 * (2 ^ Z.of_nat n - 1).
Proof.
  induction n as [|n IH]; [reflexivity|].
  cbn [award]. rewrite IH, Nat2Z.inj_succ, Z.pow_succ_r by lia. ring.
Qed.

(** Once every row the scan can still visit has an empty cell, the loop
    only counts [y] down and returns the arena and score as they are. *)
Lemma sweep_loop_settled (fuel : nat) :
  forall (y rowCount : Z) (a : Matrix) (sc : Z),
    y < Z.of_nat (length a) ->
    (forall i row, 0 < i <= y -> get a i = Some row -> has_empty_cell row = true) ->
    (Z.to_nat y < fuel)%nat ->
    sweep_loop fuel y rowCount a sc = Ok (a, sc).
Proof.
  induction fuel as [|fuel IH]; intros y rowCount a sc Hy Hrows Hfuel; [lia|].
  cbn [sweep_loop]. destruct (Z.gtb_spec y 0) as [Hpos|Hneg]; [|reflexivity].
  destruct (get a y) as [row|] eqn:Hrow.
  - rewrite (Hrows y row) by (lia || assumption).
    apply IH; [lia| |lia].
    intros i r Hi. apply Hrows. lia.
  - exfalso. unfold get in Hrow. destruct (Z.ltb_spec y 0); [lia|].
    apply lookup_ge_None in Hrow. lia.
Qed.

Lemma award_step (n : nat) : award (S n) = 10 + 2 * award n.
Proof. rewrite !award_closed, Nat2Z.inj_succ, Z.pow_succ_r by lia. ring. Qed.

Lemma full_rows_snoc (rows : Matrix) (r : list cell) :
  full_rows (rows ++ [r])
  = full_rows rows ++ (if has_empty_cell r then [] else [r]).
Proof.
  unfold full_rows. rewrite List.filter_app. cbn [List.filter]. unfold row_full.
  now destruct (has_empty_cell r).
Qed.

Lemma kept_rows_snoc (rows : Matrix) (r : list cell) :
  kept_rows (rows ++ [r])
  = kept_rows rows ++ (if has_empty_cell r then [r] else []).
Proof.
  unfold kept_rows. rewrite List.filter_app. cbn [List.filter].
  now destruct (has_empty_cell r).
Qed.

(** The scan with cleared rows already on top: [zs] are the zeroed rows
    unshifted so far, [rows] the rows still to visit, [done] the rows
    below, already visited. Every row of [rows] is visited. *)
Lemma sweep_loop_below_cleared (rows : Matrix) :
  forall (zs done : Matrix) (rowCount sc : Z) (fuel : nat),
    zs <> [] ->
    Forall (fun r => has_empty_cell r = true) zs ->
    Forall (fun r => r <> []) rows ->
    (2 * length rows + length zs < fuel)%nat ->
    sweep_loop fuel (Z.of_nat (length zs + length rows) - 1) rowCount
               (zs ++ rows ++ done) sc
    = Ok (map fill_zero (full_rows rows) ++ zs ++ kept_rows rows ++ done,
          sc + rowCount * award (length (full_rows rows))).
Proof.
  induction rows as [|r rows IH] using rev_ind;
    intros zs done rowCount sc fuel Hzs Hempty Hrows Hfuel.
  - cbn [app full_rows kept_rows List.filter map length award].
    rewrite Z.mul_0_r, Z.add_0_r.
    apply sweep_loop_settled.
    + rewrite length_app. lia.
    + intros i row Hi Hget. unfold get in Hget.
      destruct (Z.ltb_spec i 0); [lia|].
      rewrite lookup_app_l in Hget by lia.
      exact (proj1 (Forall_lookup _ _) Hempty _ _ Hget).
    + lia.
  - apply Forall_app in Hrows as [Hrows Hr].
    apply Forall_inv in Hr. rewrite length_app in Hfuel; simpl in Hfuel.
    destruct fuel as [|fuel]; [lia|].
    assert (0 < length zs)%nat by (destruct zs; [congruence|simpl; lia]).
    replace (Z.of_nat (length zs + length (rows ++ [r])) - 1)
      with (Z.of_nat (length (zs ++ rows)))
      by (rewrite !length_app; simpl; lia).
    replace (zs ++ (rows ++ [r]) ++ done) with ((zs ++ rows) ++ r :: done)
      by (now rewrite <- !app_assoc).
    cbn [sweep_loop].
    destruct (Z.gtb_spec (Z.of_nat (length (zs ++ rows))) 0) as [_|Hneg];
      [|rewrite length_app in Hneg; lia].
    rewrite get_of_nat, list_lookup_middle by reflexivity.
    rewrite full_rows_snoc, kept_rows_snoc.
    destruct (has_empty_cell r) eqn:Hr_empty.
    + replace (Z.of_nat (length (zs ++ rows)) - 1)
        with (Z.of_nat (length zs + length rows) - 1)
        by (rewrite length_app; lia).
      rewrite <- app_assoc.
      rewrite (IH zs (r :: done) rowCount sc fuel) by (assumption || lia).
      rewrite !app_nil_r, <- !app_assoc. reflexivity.
    + rewrite Nat2Z.id, delete_middle.
      replace (Z.of_nat (length (zs ++ rows)) + 1 - 1)
        with (Z.of_nat (length (fill_zero r :: zs) + length rows) - 1)
        by (rewrite length_app; simpl; lia).
      rewrite <- app_assoc.
      change (fill_zero r :: zs ++ rows ++ done)
        with ((fill_zero r :: zs) ++ rows ++ done).
      rewrite (IH (fill_zero r :: zs) done (rowCount * 2) (sc + rowCount * 10) fuel).
      * rewrite length_app, Nat.add_1_r, award_step, map_app.
        cbn [map]. rewrite app_nil_r, <- !app_assoc. cbn [app].
        f_equal. f_equal. ring.
      * discriminate.
      * constructor; [now apply has_empty_cell_fill_zero|assumption].
      * assumption.
      * simpl. lia.
Qed.

(** The scan from the bottom of [rows], nothing cleared yet. *)
Lemma sweep_loop_from_bottom (rows : Matrix) :
  forall (done : Matrix) (rowCount sc : Z) (fuel : nat),
    Forall (fun r => r <> []) rows ->
    (2 * length rows < fuel)%nat ->
    sweep_loop fuel (Z.of_nat (length rows) - 1) rowCount (rows ++ done) sc
    = Ok (if existsb row_full (tail rows)
          then (map fill_zero (full_rows rows) ++ kept_rows rows ++ done,
                sc + rowCount * award (length (full_rows rows)))
          else (rows ++ done, sc)).
Proof.
  induction rows as [|r rows IH] using rev_ind;
    intros done rowCount sc fuel Hrows Hfuel.
  - destruct fuel as [|fuel]; [lia|]. reflexivity.
  - apply Forall_app in Hrows as [Hrows Hr]. apply Forall_inv in Hr.
    rewrite length_app in Hfuel; simpl in Hfuel.
    destruct fuel as [|fuel]; [lia|].
    destruct rows as [|r0 rows]; [reflexivity|].
    replace (Z.of_nat (length ((r0 :: rows) ++ [r])) - 1)
      with (Z.of_nat (length (r0 :: rows)))
      by (rewrite length_app; simpl; lia).
    replace (((r0 :: rows) ++ [r]) ++ done) with ((r0 :: rows) ++ r :: done)
      by (now rewrite <- app_assoc).
    cbn [sweep_loop].
    destruct (Z.gtb_spec (Z.of_nat (length (r0 :: rows))) 0) as [_|Hneg];
      [|simpl in Hneg; lia].
    rewrite get_of_nat, list_lookup_middle by reflexivity.
    rewrite full_rows_snoc, kept_rows_snoc.
    assert (existsb row_full (tail ((r0 :: rows) ++ [r]))
            = existsb row_full (tail (r0 :: rows)) || row_full r) as ->.
    { cbn [tail app]. rewrite existsb_app. cbn [existsb].
      now rewrite orb_false_r. }
    unfold row_full at 2.
    destruct (has_empty_cell r) eqn:Hr_empty; cbn [negb].
    + rewrite orb_false_r.
      rewrite (IH (r :: done) rowCount sc fuel) by (assumption || lia).
      destruct (existsb row_full (tail (r0 :: rows))); [|reflexivity].
      rewrite !app_nil_r, <- !app_assoc. reflexivity.
    + rewrite orb_true_r, Nat2Z.id, delete_middle.
      replace (Z.of_nat (length (r0 :: rows)) + 1 - 1)
        with (Z.of_nat (length [fill_zero r] + length (r0 :: rows)) - 1)
        by (simpl; lia).
      change (fill_zero r :: (r0 :: rows) ++ done)
        with ([fill_zero r] ++ (r0 :: rows) ++ done).
      rewrite (sweep_loop_below_cleared (r0 :: rows) [fill_zero r] done
                 (rowCount * 2) (sc + rowCount * 10) fuel).
      * rewrite length_app, Nat.add_1_r, award_step, map_app.
        cbn [map]. rewrite app_nil_r, <- !app_assoc. cbn [app].
        f_equal. f_equal. ring.
      * discriminate.
      * constructor; [now apply has_empty_cell_fill_zero|constructor].
      * assumption.
      * simpl in *. lia.
Qed.

(** What one sweep computes, given enough fuel, on an arena whose rows
    are not empty arrays. *)
Lemma arenaSweep_result (g : Game) (fuel : nat) :
  mode g = Normal ->
  Forall (fun r => r <> []) (arena g) ->
  (sweep_fuel (arena g) <= fuel)%nat ->
  arenaSweep fuel g
  = Ok (if existsb row_full (tail (arena g))
        then with_player
               (with_arena g (map fill_zero (full_rows (arena g))
                              ++ kept_rows (arena g)))
               (with_score (player g)
                  (score (player g) + award (length (full_rows (arena g)))))
        else g).
Proof.
  intros Hmode Hrows Hfuel. unfold arenaSweep, sweep_fuel in *. rewrite Hmode.
  pose proof (sweep_loop_from_bottom (arena g) [] 1 (score (player g)) fuel
                Hrows) as Hloop.
  rewrite !app_nil_r in Hloop. rewrite Hloop by lia.
  destruct (existsb row_full (tail (arena g))).
  - now rewrite Z.mul_1_l.
  - destruct g as [a [ps m sc] paused md sp]. reflexivity.
Qed.

Lemma no_full_row (a : Matrix) :
  existsb row_full a = false -> full_rows a = [] /\ kept_rows a = a.
Proof.
  unfold full_rows, kept_rows.
  induction a as [|r a IH]; [split; reflexivity|].
  cbn [existsb List.filter]. intros [Hr Ha]%orb_false_iff.
  rewrite Hr. unfold row_full in Hr. apply negb_false_iff in Hr. rewrite Hr.
  destruct (IH Ha) as [-> ->]. split; reflexivity.
Qed.

Lemma sweep_keeps_height (a : Matrix) :
  length (map fill_zero (cleared_rows a) ++ remaining_rows a) = length a.
Proof.
  unfold cleared_rows, remaining_rows.
  destruct (existsb row_full (tail a)); [|reflexivity].
  rewrite length_app, length_map. unfold full_rows, kept_rows.
  rewrite <- (filter_length row_full a). f_equal.
  f_equal. apply List.filter_ext. intros r. unfold row_full.
  now rewrite negb_involutive.
Qed.

Lemma scan_complete_rows (a : Matrix) :
  scan_complete a -> cleared_rows a = full_rows a /\ remaining_rows a = kept_rows a.
Proof.
  unfold cleared_rows, remaining_rows. intros [Htop | Hbelow].
  - destruct (existsb row_full (tail a)) eqn:Htail; [split; reflexivity|].
    destruct a as [|top a]; [split; reflexivity|].
    assert (existsb row_full (top :: a) = false) as Hnone.
    { cbn [existsb tail] in *. rewrite Htail. unfold row_full.
      now rewrite (Htop top eq_refl). }
    destruct (no_full_row _ Hnone) as [-> ->]. split; reflexivity.
  - rewrite Hbelow. split; reflexivity.
Qed.

Lemma kept_rows_have_empty_cell (a : Matrix) :
  Forall (fun r => has_empty_cell r = true) (kept_rows a).
Proof.
  apply Forall_forall. intros r Hin.
  apply list_elem_of_In, List.filter_In in Hin. tauto.
Qed.

Lemma zeroed_rows_have_empty_cell (rows : Matrix) :
  Forall (fun r => r <> []) rows ->
  Forall (fun r => has_empty_cell r = true) (map fill_zero rows).
Proof.
  intros Hrows. apply Forall_map. eapply Forall_impl; [exact Hrows|].
  intros r. apply has_empty_cell_fill_zero.
Qed.

Lemma full_rows_nonempty (a : Matrix) :
  Forall (fun r => r <> []) a -> Forall (fun r => r <> []) (full_rows a).
Proof.
  intros Ha. apply Forall_forall. intros r Hin.
  apply list_elem_of_In, List.filter_In in Hin as [Hin _].
  apply list_elem_of_In in Hin.
  exact (proj1 (Forall_forall _ _) Ha r Hin).
Qed.

Lemma fill_zero_all_zero (row : list cell) :
  Forall (fun v => v = Num 0) (fill_zero row).
Proof.
  unfold fill_zero. apply Forall_map. apply Forall_true. reflexivity.
Qed.

(** A full bottom row below the top row is met by the scan. *)
Lemma bottom_full_scanned (a : Matrix) (bottom : list cell) :
  (2 <= length a)%nat -> last a = Some bottom -> row_full bottom = true ->
  existsb row_full (tail a) = true.
Proof.
  intros Hlen Hlast Hfull. destruct a as [|top a]; [discriminate|].
  cbn [tail]. apply existsb_exists. exists bottom. split; [|exact Hfull].
  apply list_elem_of_In. destruct a as [|r a]; [simpl in Hlen; lia|].
  rewrite last_cons_cons in Hlast. rewrite last_lookup in Hlast.
  apply list_elem_of_lookup. eauto.
Qed.

(** What one sweep does to the arena and the score. *)
Lemma arenaSweep_effect (g : Game) (fuel : nat) :
  mode g = Normal ->
  Forall (fun r => r <> []) (arena g) ->
  (sweep_fuel (arena g) <= fuel)%nat ->
  exists g', arenaSweep fuel g = Ok g'
    /\ arena g' = map fill_zero (cleared_rows (arena g)) ++ remaining_rows (arena g)
    /\ score (player g') = score (player g) + award (rows_cleared (arena g)).
Proof.
  intros Hmode Hrows Hfuel. rewrite arenaSweep_result by assumption.
  unfold rows_cleared, cleared_rows, remaining_rows.
  destruct (existsb row_full (tail (arena g))); eexists; split; try reflexivity.
  - split; reflexivity.
  - split; [reflexivity|]. simpl. lia.
Qed.

(** C3: in Normal mode a sweep that clears n rows, n zeroed rows taking
    the place of n full ones, adds 10 + 20 + ... + 10 * 2^(n-1) to the
    score; with no row cleared the score stays. The sweep returns whenever
    it is given [sweep_fuel] steps or more. *)
Theorem arenaSweep_award (g : Game) (fuel : nat) :
  mode g = Normal ->
  Forall (fun r => r <> []) (arena g) ->
  (sweep_fuel (arena g) <= fuel)%nat ->
  exists g', arenaSweep fuel g = Ok g'
    /\ arena g' = map fill_zero (cleared_rows (arena g)) ++ remaining_rows (arena g)
    /\ score (player g') = score (player g) + award (rows_cleared (arena g))
    /\ award (rows_cleared (arena g)) = 10 * (2 ^ Z.of_nat (rows_cleared (arena g)) - 1)
    /\ (rows_cleared (arena g) = 0%nat -> score (player g') = score (player g)).
Proof.
  intros Hmode Hrows Hfuel.
  destruct (arenaSweep_effect g fuel Hmode Hrows Hfuel) as (g' & Hrun & Ha & Hs).
  exists g'. repeat split; try assumption.
  - apply award_closed.
  - intros Hnone. rewrite Hs, Hnone. simpl. lia.
Qed.

Ltac rows_not_empty :=
  vm_compute; repeat (constructor; [discriminate|]); constructor.

Lemma arenaSweep_award_witness :
  exists g',
    arenaSweep 41 (game_of two_full_arena (player_at 5 0 Piece_T)) = Ok g'
    /\ score (player g') = 0 + (10 + 20).
Proof.
  destruct (arenaSweep_award (game_of two_full_arena (player_at 5 0 Piece_T)) 41)
    as (g' & Hrun & _ & Hscore & _).
  - reflexivity.
  - rows_not_empty.
  - vm_compute. lia.
  - exists g'. split; [exact Hrun|]. rewrite Hscore. vm_compute. reflexivity.
Defined.

(** The rows of a sweep in Normal mode: the height of the arena is kept;
    when the top row has an empty cell or a full row lies below it, the
    sweep removes every row without an empty cell and puts one zeroed row
    on top for each, so that no full row remains; in particular, when the
    bottom row of an arena of height 2 or more is full, it is cleared
    with every other full row and the top row of the result is empty. *)
Lemma arenaSweep_scanned_rows (g : Game) (fuel : nat) :
  mode g = Normal ->
  Forall (fun r => r <> []) (arena g) ->
  (sweep_fuel (arena g) <= fuel)%nat ->
  exists g', arenaSweep fuel g = Ok g'
    /\ length (arena g') = length (arena g)
    /\ (scan_complete (arena g) ->
        arena g' = map fill_zero (full_rows (arena g)) ++ kept_rows (arena g)
        /\ Forall (fun r => has_empty_cell r = true) (arena g'))
    /\ (forall bottom,
          (2 <= length (arena g))%nat ->
          last (arena g) = Some bottom -> row_full bottom = true ->
          arena g' = map fill_zero (full_rows (arena g)) ++ kept_rows (arena g)
          /\ Forall (fun r => has_empty_cell r = true) (arena g')
          /\ exists top, arena g' !! 0%nat = Some top
                         /\ Forall (fun v => v = Num 0) top).
Proof.
  intros Hmode Hrows Hfuel.
  destruct (arenaSweep_effect g fuel Hmode Hrows Hfuel) as (g' & Hrun & Ha & _).
  assert (scan_complete (arena g) ->
          arena g' = map fill_zero (full_rows (arena g)) ++ kept_rows (arena g)
          /\ Forall (fun r => has_empty_cell r = true) (arena g')) as Hcomplete.
  { intros Hscan. destruct (scan_complete_rows _ Hscan) as [Hc Hk].
    rewrite Hc, Hk in Ha. split; [exact Ha|]. rewrite Ha.
    apply Forall_app. split.
    - apply zeroed_rows_have_empty_cell, full_rows_nonempty, Hrows.
    - apply kept_rows_have_empty_cell. }
  exists g'. split; [exact Hrun|]. split; [|split].
  - rewrite Ha. apply sweep_keeps_height.
  - exact Hcomplete.
  - intros bottom Hlen Hlast Hfull.
    pose proof (bottom_full_scanned _ _ Hlen Hlast Hfull) as Hscan.
    destruct (Hcomplete (or_intror Hscan)) as [Heq Hall].
    split; [exact Heq|]. split; [exact Hall|].
    apply existsb_exists in Hscan as (r & Hin & Hr).
    assert (In r (full_rows (arena g))) as Hin_full.
    { apply List.filter_In. split; [|exact Hr].
      destruct (arena g) as [|top rest]; [destruct Hin|]. right. exact Hin. }
    destruct (full_rows (arena g)) as [|f fs]; [destruct Hin_full|].
    exists (fill_zero f). split; [now rewrite Heq|].
    apply fill_zero_all_zero.
Qed.

(** The scan stops above index 1 (its test is [y > 0]): with the top row
    the only full one, the sweep returns the state as it was. The game
    never sweeps such an arena: [playerDrop] calls [arenaSweep] on what
    [playerReset] returns, where the top row has an empty cell. *)
Lemma arenaSweep_lone_top_row :
  mode (game_of top_full_arena (player_at 5 3 Piece_T)) = Normal
  /\ (exists top, top_full_arena !! 0%nat = Some top /\ has_empty_cell top = false)
  /\ (forall fuel, (sweep_fuel top_full_arena <= fuel)%nat ->
        arenaSweep fuel (game_of top_full_arena (player_at 5 3 Piece_T))
        = Ok (game_of top_full_arena (player_at 5 3 Piece_T))).
Proof.
  split; [reflexivity|]. split.
  - exists (replicate 12 (Num 1)). split; reflexivity.
  - intros fuel Hfuel. rewrite arenaSweep_result.
    + reflexivity.
    + reflexivity.
    + rows_not_empty.
    + exact Hfuel.
Qed.

(** ** Rotation with wall kick *)

Section WallKick.

Lemma same_but_column_refl (g : Game) : same_but_column g g.
Proof.
  exists (pos_x (pos (player g))).
  destruct g as [a [[px py] m sc] paused md sp]. reflexivity.
Qed.

Lemma same_but_column_step (g g' : Game) (x : Z) :
  same_but_column (with_player g (with_pos_x (player g) x)) g' ->
  same_but_column g g'.
Proof. intros [x' ->]. exists x'. reflexivity. Qed.

Lemma empty_matrix_no_collision (a : Matrix) (p : Player) :
  matrix p = [] -> collide a p = false.
Proof. intros Hm. unfold collide. now rewrite Hm. Qed.

Variables (n : nat) (dir pos0 : Z).
Hypothesis Hn : (1 <= n)%nat.

(** The walk: the offsets alternate in sign and grow by one in size, so
    within [n + 1] rounds a positive offset exceeds the width [n]. *)
Lemma kick_loop_total (fuel : nat) :
  forall (offset : Z) (g : Game),
    square n (matrix (player g)) ->
    (0 < offset <= Z.of_nat n) \/ (offset < 0 /\ - offset <= Z.of_nat n + 1) ->
    Z.of_nat n + 2 <= Z.of_nat fuel + Z.abs offset ->
    exists g', kick_loop fuel dir pos0 offset g = Ok g'
      /\ (g' = undone dir pos0 g
          \/ (collide (arena g') (player g') = false /\ same_but_column g g')).
Proof.
  induction fuel as [|fuel IH]; intros offset g Hsq Hoff Hfuel; [lia|].
  cbn [kick_loop].
  destruct (collide (arena g) (player g)) eqn:Hcol.
  - destruct (lookup_lt_is_Some_2 (matrix (player g)) 0%nat) as [row0 Hrow0];
      [rewrite (proj1 Hsq); lia|].
    pose proof (square_row _ _ _ _ Hsq Hrow0) as Hlen.
    cbn [player with_player matrix with_pos_x]. rewrite Hrow0, Hlen.
    destruct (Z.gtb_spec (- (offset + (if offset >? 0 then 1 else -1)))
                         (Z.of_nat n)) as [Hout|Hin].
    + eexists. split; [reflexivity|]. left. reflexivity.
    + destruct (IH (- (offset + (if offset >? 0 then 1 else -1)))
                   (with_player g
                      (with_pos_x (player g) (pos_x (pos (player g)) + offset))))
        as (g' & Hrun & Hres).
      * exact Hsq.
      * destruct (Z.gtb_spec offset 0); lia.
      * destruct (Z.gtb_spec offset 0); lia.
      * exists g'. split; [exact Hrun|].
        destruct Hres as [-> | [Hfree Hsame]]; [left; reflexivity|].
        right. split; [exact Hfree|].
        eapply same_but_column_step. exact Hsame.
  - exists g. split; [reflexivity|]. right.
    split; [exact Hcol|apply same_but_column_refl].
Qed.

End WallKick.

(** [playerRotate] on a square piece, in a direction other than 0, with
    fuel for [n + 1] rounds: it returns, and either the turned piece sits
    at a column where it does not collide, or the state is as before. *)
Lemma playerRotate_places_or_restores (n : nat) (dir : Z) (fuel : nat) (g : Game) :
  square n (matrix (player g)) ->
  dir <> 0 ->
  (n + 1 <= fuel)%nat ->
  exists g', playerRotate fuel dir g = Ok g'
    /\ (g' = g
        \/ (collide (arena g') (player g') = false
            /\ same_but_column
                 (with_player g (with_matrix (player g)
                                   (rotate (matrix (player g)) dir))) g')).
Proof.
  intros Hsq Hdir Hfuel. unfold playerRotate.
  destruct (may_move g); [|exists g; split; [reflexivity|left; reflexivity]].
  destruct n as [|n'].
  - destruct fuel as [|fuel]; [lia|]. cbn [kick_loop].
    rewrite empty_matrix_no_collision.
    + eexists. split; [reflexivity|]. right. split.
      * apply empty_matrix_no_collision. simpl.
        apply length_zero_iff_nil, (rotate_square 0 _ _ Hsq).
      * apply same_but_column_refl.
    + simpl. apply length_zero_iff_nil, (rotate_square 0 _ _ Hsq).
  - destruct (kick_loop_total (S n') dir (pos_x (pos (player g))) ltac:(lia) fuel 1
                (with_player g (with_matrix (player g)
                                  (rotate (matrix (player g)) dir))))
      as (g' & Hrun & Hres).
    + simpl. now apply rotate_square.
    + lia.
    + lia.
    + exists g'. split; [exact Hrun|].
      destruct Hres as [-> | Hplaced]; [left|right; exact Hplaced].
      unfold undone. cbn [player with_player matrix with_matrix pos score].
      rewrite (rotate_undo (S n')) by assumption.
      destruct g as [a [[px py] m sc] paused md sp]. reflexivity.
Qed.

(** C6 at [dir = 0], the direction the game passes for a left turn: the
    I piece stands in the well without colliding; the turned piece
    collides at every column the walk tries (offsets 1, -2, 3, -4), the
    next offset 5 exceeds the width 4, and [rotate(matrix, -dir)] turns
    the piece the same way once more since [-0 > 0] is false. The column
    is restored, the matrix is not: the piece ends upside down, on top of
    occupied cells. *)
Theorem playerRotate_zero_not_undone :
  collide (arena game_in_well) (player game_in_well) = false
  /\ exists g',
       playerRotate 6 0 game_in_well = Ok g'
       /\ arena g' = arena game_in_well
       /\ pos (player g') = pos (player game_in_well)
       /\ score (player g') = score (player game_in_well)
       /\ matrix (player g') = rotate (rotate (createPiece Piece_I) 0) 0
       /\ matrix (player g') = [nums [0; 0; 1; 0]; nums [0; 0; 1; 0];
                                nums [0; 0; 1; 0]; nums [0; 0; 1; 0]]
       /\ matrix (player g') <> matrix (player game_in_well)
       /\ collide (arena g') (player g') = true.
Proof.
  split; [vm_compute; reflexivity|].
  eexists. split; [vm_compute; reflexivity|].
  repeat split; try (vm_compute; reflexivity).
  vm_compute. discriminate.
Qed.

(** With a proper counter-clockwise direction the same failed walk gives
    the state back. *)
Lemma playerRotate_minus_one_undone :
  playerRotate 6 (-1) game_in_well = Ok game_in_well.
Proof. vm_compute. reflexivity. Qed.

(** * Further properties of the engine *)

Import Play.

(** ** Rotation *)

(** X1: [rotate] gives a quarter turn of every square matrix, of any
    size: the result is square again, and its cell in row [i], column [j]
    is the cell of the original in row [n - 1 - j], column [i] when
    [dir > 0] (clockwise), in row [j], column [n - 1 - i] otherwise. *)
Theorem rotate_quarter_turn (n : nat) (m : Matrix) (dir : Z) :
  square n m ->
  square n (rotate m dir)
  /\ forall i j, (i < n)%nat -> (j < n)%nat ->
       cell_at (rotate m dir) i j
       = if dir >? 0 then cell_at m (n - S j) i else cell_at m j (n - S i).
Proof.
  intros Hsq. split; [now apply rotate_square|].
  intros i j Hi Hj. destruct (Z.gtb_spec dir 0).
  - apply cell_at_rotate_cw; assumption || lia.
  - apply cell_at_rotate_ccw; assumption || lia.
Qed.

Lemma sample_square_square : square 3 sample_square.
Proof. split; [reflexivity|]. repeat constructor. Qed.

Lemma rotate_quarter_turn_witness :
  cell_at (rotate sample_square 1) 0 2 = cell_at sample_square 0 0.
Proof.
  apply (proj2 (rotate_quarter_turn 3 sample_square 1 sample_square_square) 0%nat 2%nat);
    lia.
Defined.

(** X2: on a square matrix, a turn in a direction other than 0 followed
    by [rotate] with the opposite direction gives back the matrix. *)
Theorem rotate_then_back (n : nat) (m : Matrix) (dir : Z) :
  square n m -> dir <> 0 -> rotate (rotate m dir) (- dir) = m.
Proof. apply rotate_undo. Qed.

Lemma rotate_then_back_witness :
  rotate (rotate sample_square (-1)) (- (-1)) = sample_square.
Proof.
  apply (rotate_then_back 3 sample_square (-1) sample_square_square). lia.
Defined.

(** X3: four [rotate]s in one direction, whatever it is, give back every
    square matrix, not only the seven pieces. *)
Theorem rotate_four_times_square (n : nat) (m : Matrix) (dir : Z) :
  square n m -> rotate4 m dir = m.
Proof.
  intros Hsq. unfold rotate4.
  pose proof (rotate_square n _ dir Hsq) as H1.
  pose proof (rotate_square n _ dir H1) as H2.
  pose proof (rotate_square n _ dir H2) as H3.
  pose proof (rotate_square n _ dir H3) as H4.
  apply (square_ext n); [exact H4|exact Hsq|].
  intros i j Hi Hj. destruct (Z.lt_ge_cases 0 dir).
  - rewrite (cell_at_rotate_cw n) by (assumption || lia).
    rewrite (cell_at_rotate_cw n) by (assumption || lia).
    rewrite (cell_at_rotate_cw n) by (assumption || lia).
    rewrite (cell_at_rotate_cw n) by (assumption || lia).
    f_equal; lia.
  - rewrite (cell_at_rotate_ccw n) by (assumption || lia).
    rewrite (cell_at_rotate_ccw n) by (assumption || lia).
    rewrite (cell_at_rotate_ccw n) by (assumption || lia).
    rewrite (cell_at_rotate_ccw n) by (assumption || lia).
    f_equal; lia.
Qed.

Lemma rotate_four_times_square_witness : rotate4 sample_square 0 = sample_square.
Proof. apply (rotate_four_times_square 3 sample_square 0 sample_square_square). Defined.

(** ** Collision and horizontal moves *)

(** X4: on an arena of [width] x [height] cells, [collide] returns false
    exactly when every non-zero cell of the piece lies within the bounds
    and on a cell of the arena that holds 0. *)
Theorem collide_free_iff (width height : nat) (a : Matrix) (p : Player) :
  is_arena width height a ->
  (collide a p = false <->
   forall y x v, piece_cell p y x v -> v <> Num 0 ->
     in_bounds width height (Z.of_nat y + pos_y (pos p)) (Z.of_nat x + pos_x (pos p))
     /\ arena_cell a (Z.of_nat y + pos_y (pos p)) (Z.of_nat x + pos_x (pos p))
        = Num 0).
Proof.
  intros Harena. rewrite collide_false_iff. split.
  - intros Hfree y x v Hcell Hv. specialize (Hfree y x v Hcell Hv).
    split; [|exact Hfree].
    assert (in_bounds width height (Z.of_nat y + pos_y (pos p))
                                   (Z.of_nat x + pos_x (pos p))
            \/ ~ in_bounds width height (Z.of_nat y + pos_y (pos p))
                                        (Z.of_nat x + pos_x (pos p)))
      as [Hin|Hout] by (unfold in_bounds; lia); [exact Hin|].
    rewrite (arena_cell_outside _ _ _ Harena _ _ Hout) in Hfree. discriminate.
  - intros Hall y x v Hcell Hv. exact (proj2 (Hall y x v Hcell Hv)).
Qed.

Lemma collide_free_iff_witness :
  collide empty_arena (player_at 5 0 Piece_O) = false <->
  forall y x v, piece_cell (player_at 5 0 Piece_O) y x v -> v <> Num 0 ->
    in_bounds 12 20 (Z.of_nat y + pos_y (pos (player_at 5 0 Piece_O)))
                    (Z.of_nat x + pos_x (pos (player_at 5 0 Piece_O)))
    /\ arena_cell empty_arena
         (Z.of_nat y + pos_y (pos (player_at 5 0 Piece_O)))
         (Z.of_nat x + pos_x (pos (player_at 5 0 Piece_O))) = Num 0.
Proof.
  apply (collide_free_iff 12 20 empty_arena (player_at 5 0 Piece_O)).
  split; [reflexivity|]. vm_compute.
  repeat (constructor; [reflexivity|]). constructor.
Defined.

(** [g'] differs from [g] at most in the column of the piece. *)
Lemma playerMove_cases (offset : Z) (g : Game) :
  playerMove offset g = g
  \/ (may_move g = true
      /\ collide (arena g)
                 (with_pos_x (player g) (pos_x (pos (player g)) + offset)) = false
      /\ playerMove offset g
         = with_player g (with_pos_x (player g) (pos_x (pos (player g)) + offset))).
Proof.
  unfold playerMove. destruct (may_move g); [|left; reflexivity].
  cbn [arena player with_player].
  destruct (collide (arena g) _) eqn:Hcol.
  - left. destruct g as [a p paused md sp]. unfold with_player; simpl.
    now rewrite with_pos_x_back.
  - right. repeat split. 
Qed.

(** A move to a free column and the opposite move. *)
Lemma playerMove_round_trip (offset : Z) (g : Game) :
  legal g ->
  collide (arena g)
          (with_pos_x (player g) (pos_x (pos (player g)) + offset)) = false ->
  playerMove (- offset) (playerMove offset g) = g.
Proof.
  intros Hlegal Hfree. unfold playerMove.
  destruct (may_move g) eqn:Hmove; [|now rewrite Hmove].
  cbn [arena player with_player]. rewrite Hfree.
  assert (may_move (with_player g (with_pos_x (player g)
                                     (pos_x (pos (player g)) + offset))) = true)
    as -> by exact Hmove.
  destruct g as [a [[px py] m sc] paused md sp].
  unfold legal in Hlegal. cbn in *.
  replace (px + offset + - offset) with px by lia.
  unfold with_pos_x; cbn. rewrite Hlegal. reflexivity.
Qed.

(** X5: [playerMove] keeps a piece that does not collide from colliding;
    it leaves the arena, the matrix, the score and the row of the piece
    alone, and the column is the old one or the old one plus [offset]. *)
Theorem playerMove_keeps_legal (offset : Z) (g : Game) :
  legal g ->
  legal (playerMove offset g)
  /\ arena (playerMove offset g) = arena g
  /\ matrix (player (playerMove offset g)) = matrix (player g)
  /\ score (player (playerMove offset g)) = score (player g)
  /\ pos_y (pos (player (playerMove offset g))) = pos_y (pos (player g))
  /\ (pos_x (pos (player (playerMove offset g))) = pos_x (pos (player g))
      \/ pos_x (pos (player (playerMove offset g))) = pos_x (pos (player g)) + offset).
Proof.
  intros Hlegal. destruct (playerMove_cases offset g) as [-> | (_ & Hfree & ->)].
  - repeat split; try assumption. left. reflexivity.
  - repeat split; try assumption. right. reflexivity.
Qed.

Lemma playerMove_keeps_legal_witness :
  legal (playerMove 1 (game_of empty_arena (player_at 10 0 Piece_O)))
  /\ legal (playerMove (-1) (game_of empty_arena (player_at 10 0 Piece_O))).
Proof.
  split.
  - apply (playerMove_keeps_legal 1 (game_of empty_arena (player_at 10 0 Piece_O))).
    vm_compute. reflexivity.
  - apply (playerMove_keeps_legal (-1)
             (game_of empty_arena (player_at 10 0 Piece_O))).
    vm_compute. reflexivity.
Defined.

(** X6: when the piece does not collide and the column [offset] away is
    free, [playerMove offset] followed by [playerMove (- offset)] gives
    back the state, paused or not. *)
Theorem playerMove_there_and_back (offset : Z) (g : Game) :
  legal g ->
  collide (arena g)
          (with_pos_x (player g) (pos_x (pos (player g)) + offset)) = false ->
  playerMove (- offset) (playerMove offset g) = g.
Proof. exact (playerMove_round_trip offset g). Qed.

Lemma playerMove_there_and_back_witness :
  playerMove (- -1) (playerMove (-1) (game_of empty_arena (player_at 10 0 Piece_O)))
  = game_of empty_arena (player_at 10 0 Piece_O).
Proof.
  apply (playerMove_there_and_back (-1)
           (game_of empty_arena (player_at 10 0 Piece_O))).
  - vm_compute. reflexivity.
  - vm_compute. reflexivity.
Defined.

(** ** Rotation with wall kicks *)

(** X7: [playerRotate] in a direction other than 0, on a square piece that
    does not collide, with fuel for [n + 1] rounds of the walk: it
    returns, and the piece still does not collide. Arena, score and row
    are as before; either the whole state is, or the matrix is the turned
    one, at a column the walk found free. *)
Theorem playerRotate_keeps_legal (n : nat) (dir : Z) (fuel : nat) (g : Game) :
  square n (matrix (player g)) ->
  dir <> 0 ->
  (n + 1 <= fuel)%nat ->
  legal g ->
  exists g', playerRotate fuel dir g = Ok g'
    /\ legal g'
    /\ arena g' = arena g
    /\ score (player g') = score (player g)
    /\ pos_y (pos (player g')) = pos_y (pos (player g))
    /\ (g' = g \/ matrix (player g') = rotate (matrix (player g)) dir).
Proof.
  intros Hsq Hdir Hfuel Hlegal.
  destruct (playerRotate_places_or_restores n dir fuel g Hsq Hdir Hfuel)
    as (g' & Hrun & [-> | [Hfree [x' ->]]]).
  - exists g. repeat split; try assumption. left. reflexivity.
  - eexists. split; [exact Hrun|]. split; [exact Hfree|].
    repeat split. right. reflexivity.
Qed.

Lemma playerRotate_keeps_legal_witness :
  exists g', playerRotate 6 (-1) game_in_well = Ok g' /\ legal g'.
Proof.
  destruct (playerRotate_keeps_legal 4 (-1) 6 game_in_well)
    as (g' & Hrun & Hlegal & _).
  - split; [reflexivity|]. repeat constructor.
  - lia.
  - lia.
  - vm_compute. reflexivity.
  - exists g'. split; assumption.
Defined.


(** ** Line sweep, once more *)

Lemma is_arena_rows_not_empty (width height : nat) (a : Matrix) :
  is_arena width height a -> (0 < width)%nat -> Forall (fun r => r <> []) a.
Proof.
  intros [_ Hw] Hpos. eapply Forall_impl; [exact Hw|].
  intros r Hr ->. simpl in Hr. lia.
Qed.

Lemma length_fill_zero (row : list cell) : length (fill_zero row) = length row.
Proof. unfold fill_zero. apply length_map. Qed.

Lemma sweep_rows_width (width : nat) (a : Matrix) :
  Forall (fun row => length row = width) a ->
  Forall (fun row => length row = width)
         (map fill_zero (cleared_rows a) ++ remaining_rows a).
Proof.
  intros Hw. unfold cleared_rows, remaining_rows.
  destruct (existsb row_full (tail a)); [|exact Hw].
  apply Forall_app. split.
  - apply Forall_map. apply Forall_forall. intros r Hin. simpl.
    rewrite length_fill_zero.
    apply list_elem_of_In, List.filter_In in Hin as [Hin _].
    apply list_elem_of_In in Hin. exact (proj1 (Forall_forall _ _) Hw r Hin).
  - apply Forall_forall. intros r Hin.
    apply list_elem_of_In, List.filter_In in Hin as [Hin _].
    apply list_elem_of_In in Hin. exact (proj1 (Forall_forall _ _) Hw r Hin).
Qed.

Lemma award_nonneg (n : nat) : 0 <= award n.
Proof. rewrite award_closed. pose proof (Z.pow_pos_nonneg 2 (Z.of_nat n)). lia. Qed.

(** One sweep, on an arena of [width] x [height] cells: what it returns. *)
Lemma arenaSweep_outcome (width height : nat) (g : Game) (fuel : nat) :
  is_arena width height (arena g) ->
  (0 < width)%nat ->
  (sweep_fuel (arena g) <= fuel)%nat ->
  exists a' sc',
    arenaSweep fuel g
    = Ok (with_player (with_arena g a') (with_score (player g) sc'))
    /\ is_arena width height a'
    /\ score (player g) <= sc'.
Proof.
  intros Harena Hpos Hfuel.
  pose proof (is_arena_rows_not_empty _ _ _ Harena Hpos) as Hrows.
  destruct (mode g) eqn:Hmode.
  - rewrite arenaSweep_result by assumption.
    destruct (existsb row_full (tail (arena g))) eqn:Htail.
    + eexists _, _. split; [reflexivity|]. split.
      * pose proof (sweep_keeps_height (arena g)) as Hh.
        pose proof (sweep_rows_width width (arena g) (proj2 Harena)) as Hw.
        unfold cleared_rows, remaining_rows in Hh, Hw. rewrite Htail in Hh, Hw.
        split; [rewrite Hh; apply Harena|exact Hw].
      * pose proof (award_nonneg (length (full_rows (arena g)))). lia.
    + exists (arena g), (score (player g)). split; [|split; [exact Harena|lia]].
      destruct g as [a [ps m sc] paused md sp]. reflexivity.
  - exists (arena g), (score (player g)). split; [|split; [exact Harena|lia]].
    unfold arenaSweep. rewrite Hmode.
    destruct g as [a [ps m sc] paused md sp]. reflexivity.
Qed.

(** X8: a sweep of an arena of [width] x [height] cells returns an arena
    of the same dimensions, whatever rows it clears; it touches nothing
    but the arena and the score, and the score does not go down. *)
Theorem arenaSweep_keeps_shape (width height : nat) (g : Game) (fuel : nat) :
  is_arena width height (arena g) ->
  (0 < width)%nat ->
  (sweep_fuel (arena g) <= fuel)%nat ->
  exists g', arenaSweep fuel g = Ok g'
    /\ is_arena width height (arena g')
    /\ pos (player g') = pos (player g)
    /\ matrix (player g') = matrix (player g)
    /\ score (player g) <= score (player g')
    /\ gamePaused g' = gamePaused g
    /\ mode g' = mode g
    /\ speedModifier g' = speedModifier g.
Proof.
  intros Harena Hpos Hfuel.
  destruct (arenaSweep_outcome width height g fuel Harena Hpos Hfuel)
    as (a' & sc' & -> & Harena' & Hsc).
  eexists. split; [reflexivity|]. cbn. split; [exact Harena'|].
  repeat split. exact Hsc.
Qed.

Lemma arenaSweep_keeps_shape_witness :
  exists g',
    arenaSweep 41 (game_of two_full_arena (player_at 5 0 Piece_T)) = Ok g'
    /\ is_arena 12 20 (arena g')
    /\ 0 <= score (player g').
Proof.
  destruct (arenaSweep_keeps_shape 12 20
              (game_of two_full_arena (player_at 5 0 Piece_T)) 41)
    as (g' & Hrun & Harena & _ & _ & Hscore & _).
  - split; [reflexivity|]. vm_compute.
    repeat (constructor; [reflexivity|]). constructor.
  - lia.
  - vm_compute. lia.
  - exists g'. split; [exact Hrun|]. split; [exact Harena|exact Hscore].
Defined.

Lemma swept_arena_settled (a : Matrix) :
  Forall (fun r => r <> []) a ->
  existsb row_full (tail (map fill_zero (cleared_rows a) ++ remaining_rows a))
  = false.
Proof.
  intros Hrows. unfold cleared_rows, remaining_rows.
  destruct (existsb row_full (tail a)) eqn:Htail; [|exact Htail].
  apply not_true_iff_false. intros (r & Hin & Hfull)%existsb_exists.
  assert (In r (map fill_zero (full_rows a) ++ kept_rows a)) as Hin'.
  { destruct (map fill_zero (full_rows a) ++ kept_rows a); [destruct Hin|].
    right. exact Hin. }
  assert (has_empty_cell r = true) as Hr.
  { apply in_app_or in Hin' as [Hz | Hk].
    - apply list_elem_of_In in Hz.
      exact (proj1 (Forall_forall _ _)
               (zeroed_rows_have_empty_cell _ (full_rows_nonempty _ Hrows)) r Hz).
    - apply list_elem_of_In in Hk.
      exact (proj1 (Forall_forall _ _) (kept_rows_have_empty_cell a) r Hk). }
  unfold row_full in Hfull. rewrite Hr in Hfull. discriminate.
Qed.

Lemma swept_rows_not_empty (a : Matrix) :
  Forall (fun r => r <> []) a ->
  Forall (fun r => r <> []) (map fill_zero (cleared_rows a) ++ remaining_rows a).
Proof.
  intros Hrows. unfold cleared_rows, remaining_rows.
  destruct (existsb row_full (tail a)); [|exact Hrows].
  apply Forall_app. split.
  - apply Forall_map. eapply Forall_impl; [exact (full_rows_nonempty _ Hrows)|].
    intros r Hr. simpl. destruct r; [congruence|discriminate].
  - apply Forall_forall. intros r Hin.
    apply list_elem_of_In, List.filter_In in Hin as [Hin _].
    apply list_elem_of_In in Hin. exact (proj1 (Forall_forall _ _) Hrows r Hin).
Qed.

(** X9: a sweep leaves nothing for a second sweep: [arenaSweep] run on
    the state it has just returned gives that state back. *)
Theorem arenaSweep_twice (g g' : Game) (fuel fuel' : nat) :
  Forall (fun r => r <> []) (arena g) ->
  (sweep_fuel (arena g) <= fuel)%nat ->
  (sweep_fuel (arena g) <= fuel')%nat ->
  arenaSweep fuel g = Ok g' ->
  arenaSweep fuel' g' = Ok g'.
Proof.
  intros Hrows Hfuel Hfuel' Hrun.
  destruct (mode g) eqn:Hmode.
  - destruct (arenaSweep_effect g fuel Hmode Hrows Hfuel) as (g1 & Hrun1 & Ha & _).
    rewrite Hrun in Hrun1. injection Hrun1 as <-.
    assert (mode g' = Normal) as Hmode'.
    { rewrite arenaSweep_result in Hrun by assumption. injection Hrun as <-.
      destruct (existsb row_full (tail (arena g))); exact Hmode. }
    rewrite arenaSweep_result.
    + rewrite Ha, swept_arena_settled by exact Hrows. reflexivity.
    + exact Hmode'.
    + rewrite Ha. now apply swept_rows_not_empty.
    + unfold sweep_fuel in *. rewrite Ha, sweep_keeps_height. exact Hfuel'.
  - unfold arenaSweep in Hrun. rewrite Hmode in Hrun. injection Hrun as <-.
    unfold arenaSweep. now rewrite Hmode.
Qed.

Lemma arenaSweep_twice_witness :
  arenaSweep 41 (game_of empty_arena (mkPlayer (mkPosition 5 0)
                                                (createPiece Piece_T) 10))
  = Ok (game_of empty_arena (mkPlayer (mkPosition 5 0) (createPiece Piece_T) 10)).
Proof.
  apply (arenaSweep_twice (game_of bottom_full_arena (player_at 5 0 Piece_T))
           _ 41 41).
  - vm_compute. repeat (constructor; [discriminate|]). constructor.
  - vm_compute. lia.
  - vm_compute. lia.
  - vm_compute. reflexivity.
Defined.

(** ** Spawning a piece *)

Lemma fill_zero_arena (width height : nat) (a : Matrix) :
  is_arena width height a -> map fill_zero a = createMatrix width height.
Proof.
  intros [Hh Hw]. unfold createMatrix. subst height.
  induction a as [|row a IH]; [reflexivity|].
  apply Forall_cons in Hw as [Hrow Hw]. cbn [map length replicate].
  rewrite IH by exact Hw. f_equal.
  unfold fill_zero. subst width. clear.
  induction row as [|v row IH]; [reflexivity|]. cbn. now rewrite IH.
Qed.

Lemma createMatrix_is_arena (width height : nat) :
  is_arena width height (createMatrix width height).
Proof.
  unfold createMatrix. split; [apply length_replicate|].
  apply Forall_replicate, length_replicate.
Qed.

Lemma createMatrix_empty (width height : nat) :
  arena_empty (createMatrix width height).
Proof.
  unfold arena_empty, createMatrix. apply Forall_replicate, Forall_replicate.
  reflexivity.
Qed.

(** Every cell of a piece lies in its first four rows and within its
    width. *)
Lemma createPiece_cell_bounds (type : PieceType) (y x : nat) (row : list cell) (v : cell) :
  createPiece type !! y = Some row -> row !! x = Some v ->
  (y < 4)%nat /\ (x < piece_width type)%nat.
Proof.
  intros Hrow Hv. apply lookup_lt_Some in Hv.
  destruct type, y as [|[|[|[|y]]]]; cbn in Hrow; try discriminate;
    injection Hrow as <-; cbn in *; lia.
Qed.

Lemma fresh_player_in_bounds (width height : nat) (type : PieceType) (sc : Z)
    (y x : nat) (v : cell) :
  (4 <= width)%nat -> (4 <= height)%nat ->
  piece_cell (fresh_player width type sc) y x v ->
  in_bounds width height
    (Z.of_nat y + pos_y (pos (fresh_player width type sc)))
    (Z.of_nat x + pos_x (pos (fresh_player width type sc))).
Proof.
  intros Hw Hh (row & Hrow & Hv).
  destruct (createPiece_cell_bounds type y x row v Hrow Hv) as [Hy Hx].
  unfold in_bounds, fresh_player, spawn_column; cbn [pos pos_x pos_y].
  pose proof (Z.div_mod (Z.of_nat width) 2 ltac:(lia)) as Hdiv.
  pose proof (Z.mod_pos_bound (Z.of_nat width) 2 ltac:(lia)) as Hmod.
  set (q := Z.of_nat width / 2) in *.
  destruct type; vm_compute in Hx; 
    match goal with
    | |- context [Z.of_nat (piece_width ?t) / 2] =>
        let k := eval vm_compute in (Z.of_nat (piece_width t) / 2) in
        change (Z.of_nat (piece_width t) / 2) with k
    end; clearbody q; lia.
Qed.

Lemma fresh_player_free_on_empty (width height : nat) (type : PieceType) (sc : Z) :
  (4 <= width)%nat -> (4 <= height)%nat ->
  collide (createMatrix width height) (fresh_player width type sc) = false.
Proof.
  intros Hw Hh. apply collide_false_iff. intros y x v Hcell _.
  apply (arena_cell_inside_empty width height).
  - apply createMatrix_is_arena.
  - apply createMatrix_empty.
  - now apply (fresh_player_in_bounds _ _ _ _ _ _ v).
Qed.

Lemma playerReset_unfold (pick : nat) (type : PieceType) (width height : nat) (g : Game) :
  is_arena width height (arena g) -> (0 < height)%nat ->
  pieces !! pick = Some type ->
  playerReset pick g
  = Ok (if collide (arena g) (fresh_player width type (score (player g)))
        then mkGame (map fill_zero (arena g))
                    (fresh_player width type 0)
                    (gamePaused g) (mode g) 1%Q
        else mkGame (arena g) (fresh_player width type (score (player g)))
                    (gamePaused g) (mode g) 1%Q).
Proof.
  intros [Hh Hw] Hpos Hpick. unfold playerReset. rewrite Hpick.
  destruct g as [a pl paused md sp]. cbn [arena player score gamePaused mode] in *.
  destruct a as [|arena0 rest]; [simpl in Hh; lia|].
  cbn [lookup list_lookup].
  apply Forall_cons in Hw as [Hw0 _].
  unfold fresh_player, spawn_column, piece_width. rewrite Hw0.
  cbn [arena player with_player with_speedModifier].
  destruct (collide (arena0 :: rest) _); reflexivity.
Qed.

(** X10: [playerReset] on an arena of at least 4 x 4 cells: the fresh
    piece is at row 0, centred, and sits on free cells; when it does not
    fit at first the arena is wiped and the score set to 0, otherwise
    arena and score are kept; the speed multiplier is back at 1. *)
Theorem playerReset_spawn (width height pick : nat) (type : PieceType) (g : Game) :
  is_arena width height (arena g) ->
  (4 <= width)%nat -> (4 <= height)%nat ->
  pieces !! pick = Some type ->
  exists g', playerReset pick g = Ok g'
    /\ legal g'
    /\ matrix (player g') = createPiece type
    /\ pos (player g') = mkPosition (spawn_column width type) 0
    /\ speedModifier g' = 1%Q
    /\ gamePaused g' = gamePaused g /\ mode g' = mode g
    /\ (if collide (arena g) (fresh_player width type (score (player g)))
        then arena g' = createMatrix width height /\ score (player g') = 0
        else arena g' = arena g /\ score (player g') = score (player g)).
Proof.
  intros Harena Hw Hh Hpick.
  rewrite (playerReset_unfold pick type width height) by (assumption || lia).
  eexists. split; [reflexivity|]. unfold legal.
  destruct (collide (arena g) (fresh_player width type (score (player g))))
    eqn:Hcol; cbn [arena player matrix pos score speedModifier gamePaused mode].
  - rewrite (fill_zero_arena width height) by exact Harena.
    repeat split. now apply fresh_player_free_on_empty.
  - repeat split. exact Hcol.
Qed.

Lemma playerReset_spawn_witness :
  exists g',
    playerReset 3 (game_of empty_arena (player_at 0 7 Piece_T)) = Ok g'
    /\ legal g'
    /\ matrix (player g') = createPiece Piece_O
    /\ pos (player g') = mkPosition 5 0.
Proof.
  destruct (playerReset_spawn 12 20 3 Piece_O
              (game_of empty_arena (player_at 0 7 Piece_T)))
    as (g' & Hrun & Hlegal & Hm & Hp & _).
  - split; [reflexivity|]. vm_compute.
    repeat (constructor; [reflexivity|]). constructor.
  - lia.
  - lia.
  - reflexivity.
  - exists g'. split; [exact Hrun|]. split; [exact Hlegal|].
    split; [exact Hm|exact Hp].
Defined.

(** ** The sweep in play *)

(** [playerReset] returns only for an index of [pieces], on an arena that
    has a top row. *)
Lemma playerReset_returns (pick : nat) (g0 g : Game) :
  playerReset pick g0 = Ok g ->
  exists type, pieces !! pick = Some type /\ (0 < length (arena g0))%nat.
Proof.
  unfold playerReset. destruct (pieces !! pick) as [type|]; [|discriminate].
  destruct (arena g0) as [|top rest]; [discriminate|].
  intros _. exists type. split; [reflexivity|]. cbn. lia.
Qed.

(** The first row of every piece holds a block. *)
Lemma createPiece_top_block (type : PieceType) :
  exists row x v,
    createPiece type !! 0%nat = Some row /\ row !! x = Some v /\ v <> Num 0.
Proof.
  destruct type.
  all: eexists _, _, _; split; [reflexivity|].
  all: first [ split; [exact (eq_refl : _ !! 0%nat = Some _)|discriminate]
             | split; [exact (eq_refl : _ !! 1%nat = Some _)|discriminate] ].
Qed.

(** A fresh piece that does not collide stands on a 0 of the top row. *)
Lemma fresh_player_gap (width : nat) (type : PieceType) (sc : Z) (a : Matrix)
    (top : list cell) :
  collide a (fresh_player width type sc) = false ->
  a !! 0%nat = Some top ->
  has_empty_cell top = true.
Proof.
  intros Hfree Htop.
  destruct (createPiece_top_block type) as (row & x & v & Hrow & Hv & Hnz).
  pose proof (proj1 (collide_false_iff _ _) Hfree 0%nat x v
                (ex_intro _ row (conj Hrow Hv)) Hnz) as Hcell.
  cbn [fresh_player pos pos_y pos_x] in Hcell.
  change (Z.of_nat 0 + 0) with (Z.of_nat 0) in Hcell.
  unfold arena_cell in Hcell. rewrite (get_of_nat a 0), Htop in Hcell.
  unfold read in Hcell.
  destruct (get top _) as [c|] eqn:Hc; [|discriminate]. cbn in Hcell. subst c.
  rewrite has_empty_cell_existsb. apply existsb_exists.
  exists (Num 0). split; [|reflexivity].
  unfold get in Hc. destruct (_ <? 0); [discriminate|].
  apply list_elem_of_In, list_elem_of_lookup. eauto.
Qed.

(** What [playerReset] hands to the sweep: an arena of the same
    dimensions whose top row has an empty cell. *)
Lemma playerReset_scan_complete (width height pick : nat) (g0 g : Game) :
  is_arena width height (arena g0) ->
  (0 < width)%nat ->
  playerReset pick g0 = Ok g ->
  is_arena width height (arena g)
  /\ scan_complete (arena g)
  /\ mode g = mode g0.
Proof.
  intros Harena Hw Hrun.
  destruct (playerReset_returns _ _ _ Hrun) as (type & Hpick & Hh).
  rewrite (playerReset_unfold pick type width height) in Hrun
    by (try assumption; destruct Harena; lia).
  injection Hrun as <-.
  destruct (collide (arena g0) _) eqn:Hcol; cbn [arena mode].
  - rewrite (fill_zero_arena width height) by exact Harena.
    split; [apply createMatrix_is_arena|]. split; [|reflexivity].
    left. intros top Htop. unfold createMatrix in Htop.
    apply lookup_replicate in Htop as [-> _].
    rewrite has_empty_cell_existsb. destruct width; [lia|reflexivity].
  - split; [exact Harena|]. split; [|reflexivity].
    left. intros top Htop. eapply fresh_player_gap; eassumption.
Qed.

(** C4: in Normal mode, on the state [playerReset] has just returned,
    which is what [playerDrop] passes to it, [arenaSweep] removes every
    arena row that has no empty (zero) cell and puts a zeroed row on top
    for each removed row, so that the arena keeps its height and no full
    row remains; in particular, when the bottom row is full it is cleared
    and the top row of the result is empty. *)
Theorem arenaSweep_clears_full_rows (width height pick fuel : nat) (g0 g : Game) :
  is_arena width height (arena g0) ->
  (0 < width)%nat ->
  playerReset pick g0 = Ok g ->
  mode g = Normal ->
  (sweep_fuel (arena g) <= fuel)%nat ->
  exists g', arenaSweep fuel g = Ok g'
    /\ length (arena g) = height
    /\ length (arena g') = height
    /\ arena g' = map fill_zero (full_rows (arena g)) ++ kept_rows (arena g)
    /\ Forall (fun r => has_empty_cell r = true) (arena g')
    /\ (forall bottom,
          last (arena g) = Some bottom -> row_full bottom = true ->
          exists top, arena g' !! 0%nat = Some top
                      /\ Forall (fun v => v = Num 0) top).
Proof.
  intros Harena Hw Hreset Hmode Hfuel.
  destruct (playerReset_scan_complete _ _ _ _ _ Harena Hw Hreset)
    as (Harena' & Hscan & _).
  pose proof (is_arena_rows_not_empty _ _ _ Harena' Hw) as Hrows.
  destruct (arenaSweep_scanned_rows g fuel Hmode Hrows Hfuel)
    as (g' & Hrun & Hlen & Hcomplete & _).
  destruct (Hcomplete Hscan) as [Heq Hall].
  exists g'. split; [exact Hrun|]. split; [exact (proj1 Harena')|].
  split; [rewrite Hlen; exact (proj1 Harena')|].
  split; [exact Heq|]. split; [exact Hall|].
  intros bottom Hlast Hfull.
  assert (In bottom (full_rows (arena g))) as Hin.
  { apply List.filter_In. split; [|exact Hfull].
    apply list_elem_of_In. rewrite last_lookup in Hlast.
    apply list_elem_of_lookup. eauto. }
  destruct (full_rows (arena g)) as [|f fs]; [destruct Hin|].
  exists (fill_zero f). split; [now rewrite Heq|].
  apply fill_zero_all_zero.
Qed.

Lemma arenaSweep_clears_full_rows_witness :
  exists g',
    arenaSweep 41 (game_of bottom_full_arena (player_at 5 0 Piece_O)) = Ok g'
    /\ length (arena g') = 20%nat
    /\ arena g' = empty_arena.
Proof.
  destruct (arenaSweep_clears_full_rows 12 20 3 41
              (game_of bottom_full_arena (player_at 5 17 Piece_T))
              (game_of bottom_full_arena (player_at 5 0 Piece_O)))
    as (g' & Hrun & _ & Hlen & Heq & _).
  - split; [reflexivity|]. vm_compute.
    repeat (constructor; [reflexivity|]). constructor.
  - lia.
  - vm_compute. reflexivity.
  - reflexivity.
  - vm_compute. lia.
  - exists g'. split; [exact Hrun|]. split; [exact Hlen|].
    rewrite Heq. vm_compute. reflexivity.
Defined.

(** One sweep of an arena whose top row has an empty cell or which has a
    full row below it: the state it returns. *)
Lemma arenaSweep_scanned_state (width height : nat) (g : Game) (fuel : nat) :
  is_arena width height (arena g) ->
  (0 < width)%nat ->
  scan_complete (arena g) ->
  (sweep_fuel (arena g) <= fuel)%nat ->
  arenaSweep fuel g
  = Ok (match mode g with
        | Normal =>
            with_player
              (with_arena g (map fill_zero (full_rows (arena g))
                             ++ kept_rows (arena g)))
              (with_score (player g)
                 (score (player g) + award (length (full_rows (arena g)))))
        | Fill => g
        end).
Proof.
  intros Harena Hw Hscan Hfuel.
  pose proof (is_arena_rows_not_empty _ _ _ Harena Hw) as Hrows.
  destruct (mode g) eqn:Hmode.
  - rewrite arenaSweep_result by assumption.
    destruct (scan_complete_rows _ Hscan) as [Hc Hk].
    unfold cleared_rows, remaining_rows in Hc, Hk.
    destruct (existsb row_full (tail (arena g))); [reflexivity|].
    rewrite <- Hc, <- Hk. cbn [map app length award]. rewrite Z.add_0_r.
    destruct g as [a [ps m sc] paused md sp]. reflexivity.
  - unfold arenaSweep. now rewrite Hmode.
Qed.

(** ** Locking a piece: [merge] and [playerDrop] *)

Section Merge.

Lemma same_shape_refl (a : Matrix) : same_shape a a.
Proof. reflexivity. Qed.

Lemma same_shape_trans (a b c : Matrix) :
  same_shape a b -> same_shape b c -> same_shape a c.
Proof. unfold same_shape. congruence. Qed.

Lemma same_shape_length (a b : Matrix) : same_shape a b -> length a = length b.
Proof.
  intros H. apply (f_equal length) in H. now rewrite !length_map in H.
Qed.

Lemma same_shape_row (a b : Matrix) (i : nat) (row : list cell) :
  same_shape a b -> b !! i = Some row ->
  exists row', a !! i = Some row' /\ length row' = length row.
Proof.
  intros Hshape Hrow. apply (f_equal (fun l => l !! i)) in Hshape.
  rewrite !list_lookup_fmap, Hrow in Hshape.
  destruct (a !! i) as [row'|]; [|discriminate].
  exists row'. split; [reflexivity|]. now injection Hshape.
Qed.

Lemma same_shape_in_range (a b : Matrix) (r c : Z) :
  same_shape a b -> in_range b r c -> in_range a r c.
Proof.
  intros Hshape (row & Hget & Hc). unfold in_range, get in *.
  destruct (r <? 0); [discriminate|].
  destruct (same_shape_row _ _ _ _ Hshape Hget) as (row' & Hrow' & Hlen).
  exists row'. split; [exact Hrow'|]. now rewrite Hlen.
Qed.

Lemma same_shape_is_arena (width height : nat) (a b : Matrix) :
  same_shape a b -> is_arena width height b -> is_arena width height a.
Proof.
  intros Hshape [Hh Hw]. split; [now rewrite (same_shape_length _ _ Hshape)|].
  apply Forall_lookup. intros i row' Hrow'.
  destruct (same_shape_row b a i row') as (row & Hrow & Hlen);
    [symmetry; exact Hshape|exact Hrow'|].
  rewrite <- Hlen. exact (proj1 (Forall_lookup _ _) Hw _ _ Hrow).
Qed.

(** A position that reads 0 is an element of the arena. *)
Lemma arena_cell_zero_in_range (a : Matrix) (r c : Z) :
  arena_cell a r c = Num 0 -> in_range a r c.
Proof.
  unfold arena_cell, read, in_range. intros Hcell.
  destruct (get a r) as [row|]; [|discriminate].
  exists row. split; [reflexivity|].
  destruct (get row c) as [v|] eqn:Hv; [|discriminate].
  now apply get_Some in Hv.
Qed.

(** A write inside the arena: the shape stays, the cell holds the value,
    every other position reads as before. *)
Lemma store_in_range (a : Matrix) (r c : Z) (v : cell) :
  in_range a r c ->
  exists a', store a r c v = Ok a'
    /\ same_shape a' a
    /\ arena_cell a' r c = v
    /\ forall r' c', (r', c') <> (r, c) -> arena_cell a' r' c' = arena_cell a r' c'.
Proof.
  intros (row & Hget & Hc). unfold store. rewrite Hget.
  destruct (Z.ltb_spec c 0); [lia|].
  unfold write. destruct (decide (Z.to_nat c < length row)%nat); [|lia].
  eexists. split; [reflexivity|].
  pose proof (get_Some _ _ _ Hget) as Hr.
  unfold get in Hget. destruct (Z.ltb_spec r 0); [lia|].
  split; [|split].
  - unfold same_shape. rewrite list_fmap_insert, length_insert.
    apply list_insert_id. now rewrite list_lookup_fmap, Hget.
  - unfold arena_cell, read, get.
    destruct (Z.ltb_spec r 0); [lia|]. destruct (Z.ltb_spec c 0); [lia|].
    rewrite list_lookup_insert_eq by lia. 
    now rewrite list_lookup_insert_eq by lia.
  - intros r' c' Hne. unfold arena_cell, read, get.
    destruct (Z.ltb_spec r' 0); [reflexivity|].
    destruct (decide (Z.to_nat r = Z.to_nat r')) as [Heq|Hneq].
    + rewrite <- Heq, list_lookup_insert_eq, Hget by lia.
      destruct (Z.ltb_spec c' 0); [reflexivity|].
      rewrite list_lookup_insert_ne; [reflexivity|].
      intros Hc'. apply Hne. f_equal; lia.
    + now rewrite list_lookup_insert_ne by exact Hneq.
Qed.

(** A write never changes the number of rows, and throws exactly when the
    row is missing. *)
Lemma store_rows (a : Matrix) (r c : Z) (v : cell) :
  (0 <= r < Z.of_nat (length a) ->
   exists a', store a r c v = Ok a' /\ length a' = length a)
  /\ (~ 0 <= r < Z.of_nat (length a) -> store a r c v = Throws).
Proof.
  unfold store. split.
  - intros Hr. unfold get. destruct (Z.ltb_spec r 0); [lia|].
    destruct (lookup_lt_is_Some_2 a (Z.to_nat r)) as [row ->]; [lia|].
    destruct (c <? 0); eexists; (split; [reflexivity|]);
      [reflexivity|apply length_insert].
  - intros Hr. now rewrite get_None.
Qed.

Lemma merge_row_spec (p : Position) (y : nat) (row : list cell) (a0 : Matrix) (k : nat) :
  (k <= length row)%nat ->
  (forall x v, row !! x = Some v -> v <> Num 0 ->
     in_range a0 (Z.of_nat y + pos_y p) (Z.of_nat x + pos_x p)) ->
  exists ak,
    for_each k
      (fun acc x =>
         and_then acc (fun a =>
           let value := default undefined (row !! x) in
           if strict_ne_zero value
           then store a (Z.of_nat y + pos_y p) (Z.of_nat x + pos_x p) value
           else Ok a))
      (Ok a0) = Ok ak
    /\ same_shape ak a0
    /\ (forall x v, (x < k)%nat -> row !! x = Some v -> v <> Num 0 ->
          arena_cell ak (Z.of_nat y + pos_y p) (Z.of_nat x + pos_x p) = v)
    /\ (forall r c,
          (forall x v, (x < k)%nat -> row !! x = Some v -> v <> Num 0 ->
             (Z.of_nat y + pos_y p, Z.of_nat x + pos_x p) <> (r, c)) ->
          arena_cell ak r c = arena_cell a0 r c).
Proof.
  intros Hk Hrange. induction k as [|k IH].
  - exists a0. split; [reflexivity|]. split; [reflexivity|].
    split; [intros; lia|reflexivity].
  - destruct IH as (ak & Hrun & Hshape & Hdone & Hrest); [lia|].
    rewrite for_each_S, Hrun. cbn [and_then].
    destruct (lookup_lt_is_Some_2 row k) as [v Hv]; [lia|].
    rewrite Hv. change (default undefined (Some v)) with v. cbv zeta.
    destruct (strict_ne_zero v) eqn:Hnz.
    + apply strict_ne_zero_true in Hnz.
      destruct (store_in_range ak (Z.of_nat y + pos_y p) (Z.of_nat k + pos_x p) v)
        as (a' & Hstore & Hshape' & Hhere & Helse).
      { eapply same_shape_in_range; [exact Hshape|]. eapply Hrange; eassumption. }
      exists a'. split; [exact Hstore|].
      split; [eapply same_shape_trans; eassumption|]. split.
      * intros x w Hx Hw Hwnz. destruct (decide (x = k)) as [->|Hne].
        -- rewrite Hv in Hw. injection Hw as <-. exact Hhere.
        -- rewrite Helse by (intros [= ?]; lia).
           apply Hdone; [lia|assumption|assumption].
      * intros r c Hfree. rewrite Helse.
        -- apply Hrest. intros x w Hx. apply Hfree. lia.
        -- intros Heq. symmetry in Heq. revert Heq. eapply Hfree; [|eassumption..].
           lia.
    + exists ak. split; [reflexivity|]. split; [exact Hshape|]. split.
      * intros x w Hx Hw Hwnz. destruct (decide (x = k)) as [->|Hne].
        -- rewrite Hv in Hw. injection Hw as <-.
           apply strict_ne_zero_true in Hwnz. congruence.
        -- apply Hdone; [lia|assumption|assumption].
      * intros r c Hfree. apply Hrest. intros x w Hx. apply Hfree. lia.
Qed.

Lemma merge_spec (a : Matrix) (p : Player) (k : nat) :
  (k <= length (matrix p))%nat ->
  (forall y x v, piece_cell p y x v -> v <> Num 0 ->
     in_range a (Z.of_nat y + pos_y (pos p)) (Z.of_nat x + pos_x (pos p))) ->
  exists ak,
    for_each k
      (fun acc y =>
         and_then acc (merge_row (pos p) y (default [] (matrix p !! y))))
      (Ok a) = Ok ak
    /\ same_shape ak a
    /\ (forall y x v, (y < k)%nat -> piece_cell p y x v -> v <> Num 0 ->
          arena_cell ak (Z.of_nat y + pos_y (pos p)) (Z.of_nat x + pos_x (pos p))
          = v)
    /\ (forall r c,
          (forall y x v, (y < k)%nat -> piece_cell p y x v -> v <> Num 0 ->
             (Z.of_nat y + pos_y (pos p), Z.of_nat x + pos_x (pos p)) <> (r, c)) ->
          arena_cell ak r c = arena_cell a r c).
Proof.
  intros Hk Hrange. induction k as [|k IH].
  - exists a. split; [reflexivity|]. split; [reflexivity|].
    split; [intros; lia|reflexivity].
  - destruct IH as (ak & Hrun & Hshape & Hdone & Hrest); [lia|].
    rewrite for_each_S, Hrun. cbn [and_then].
    destruct (lookup_lt_is_Some_2 (matrix p) k) as [row Hrow]; [lia|].
    rewrite Hrow. change (default [] (Some row)) with row. unfold merge_row.
    destruct (merge_row_spec (pos p) k row ak (length row))
      as (a' & Hrun' & Hshape' & Hdone' & Hrest'); [lia| |].
    { intros x v Hv Hnz. eapply same_shape_in_range; [exact Hshape|].
      apply (Hrange k x v); [exists row; split; assumption|assumption]. }
    exists a'. split; [exact Hrun'|].
    split; [eapply same_shape_trans; eassumption|]. split.
    + intros y x v Hy Hcell Hnz. destruct (decide (y = k)) as [->|Hne].
      * destruct Hcell as (row' & Hrow' & Hv). rewrite Hrow in Hrow'.
        injection Hrow' as <-. apply Hdone'; [|assumption..].
        eapply lookup_lt_Some; eassumption.
      * rewrite Hrest' by (intros; intros [= ? ?]; lia).
        apply Hdone; [lia|assumption..].
    + intros r c Hfree. rewrite Hrest'.
      * apply Hrest. intros y x v Hy. apply Hfree. lia.
      * intros x v Hx Hv Hnz. apply (Hfree k x v); [lia| |assumption].
        exists row. split; assumption.
Qed.

End Merge.

Lemma merge_free (a : Matrix) (p : Player) :
  collide a p = false ->
  exists a', merge a p = Ok a'
    /\ same_shape a' a
    /\ (forall y x v, piece_cell p y x v -> v <> Num 0 ->
          arena_cell a' (Z.of_nat y + pos_y (pos p)) (Z.of_nat x + pos_x (pos p))
          = v)
    /\ (forall r c,
          (forall y x v, piece_cell p y x v -> v <> Num 0 ->
             (Z.of_nat y + pos_y (pos p), Z.of_nat x + pos_x (pos p)) <> (r, c)) ->
          arena_cell a' r c = arena_cell a r c).
Proof.
  intros Hfree.
  destruct (merge_spec a p (length (matrix p))) as (a' & Hrun & Hshape & Hdone & Hrest);
    [lia| |].
  { intros y x v Hcell Hnz. apply arena_cell_zero_in_range.
    exact (proj1 (collide_false_iff a p) Hfree y x v Hcell Hnz). }
  exists a'. split; [exact Hrun|]. split; [exact Hshape|]. split.
  - intros y x v Hcell. apply Hdone; [|exact Hcell].
    destruct Hcell as (row & Hrow & _). eapply lookup_lt_Some; eassumption.
  - intros r c Hnone. apply Hrest. intros y x v _. apply Hnone.
Qed.

(** X11: [merge] of a piece that does not collide, its cells being
    numbers: it returns, every non-zero cell of the piece is in the arena
    at its position, every other position reads as before, and the rows
    keep their lengths. *)
Theorem merge_writes_piece (a : Matrix) (p : Player) :
  collide a p = false ->
  numeric (matrix p) ->
  exists a', merge a p = Ok a'
    /\ same_shape a' a
    /\ (forall y x v, piece_cell p y x v -> v <> Num 0 ->
          arena_cell a' (Z.of_nat y + pos_y (pos p)) (Z.of_nat x + pos_x (pos p))
          = v)
    /\ (forall r c,
          (forall y x v, piece_cell p y x v -> v <> Num 0 ->
             (Z.of_nat y + pos_y (pos p), Z.of_nat x + pos_x (pos p)) <> (r, c)) ->
          arena_cell a' r c = arena_cell a r c).
Proof. intros Hfree _. now apply merge_free. Qed.

Lemma createPiece_numeric (type : PieceType) : numeric (createPiece type).
Proof.
  unfold numeric. destruct type; cbn;
    repeat (constructor; [repeat (constructor; [discriminate|]); constructor|]);
    constructor.
Qed.

Lemma merge_writes_piece_witness :
  exists a',
    merge empty_arena (player_at 5 18 Piece_O) = Ok a'
    /\ same_shape a' empty_arena
    /\ arena_cell a' 19 6 = Num 4.
Proof.
  destruct (merge_writes_piece empty_arena (player_at 5 18 Piece_O))
    as (a' & Hrun & Hshape & Hcells & _).
  - vm_compute. reflexivity.
  - apply createPiece_numeric.
  - exists a'. split; [exact Hrun|]. split; [exact Hshape|].
    apply (Hcells 1%nat 1%nat (Num 4)).
    + exists (nums [4; 4]). split; reflexivity.
    + discriminate.
Defined.

Section MergeErrors.

Lemma for_any_S (n : nat) (test : nat -> bool) :
  for_any (S n) test = for_any n test || test n.
Proof.
  unfold for_any. rewrite seq_S, existsb_app. cbn. now rewrite orb_false_r.
Qed.

Lemma outside_rows_spec (a : Matrix) (r : Z) :
  outside_rows a r = false <-> 0 <= r < Z.of_nat (length a).
Proof.
  unfold outside_rows. rewrite negb_false_iff, andb_true_iff.
  rewrite Z.leb_le, Z.ltb_lt. tauto.
Qed.

(** A row of the piece over a row of the arena: no exception, whatever
    the columns. *)
Lemma merge_row_over_arena (p : Position) (y : nat) (row : list cell)
    (a0 : Matrix) (k : nat) :
  0 <= Z.of_nat y + pos_y p < Z.of_nat (length a0) ->
  exists ak,
    for_each k
      (fun acc x =>
         and_then acc (fun a =>
           let value := default undefined (row !! x) in
           if strict_ne_zero value
           then store a (Z.of_nat y + pos_y p) (Z.of_nat x + pos_x p) value
           else Ok a))
      (Ok a0) = Ok ak
    /\ length ak = length a0.
Proof.
  intros Hr. induction k as [|k (ak & Hrun & Hlen)].
  - exists a0. split; reflexivity.
  - rewrite for_each_S, Hrun. cbn [and_then]. cbv zeta.
    destruct (strict_ne_zero _); [|exists ak; split; [reflexivity|exact Hlen]].
    destruct (proj1 (store_rows ak (Z.of_nat y + pos_y p) (Z.of_nat k + pos_x p)
                       (default undefined (row !! k))))
      as (a' & Hstore & Hlen'); [lia|].
    exists a'. split; [exact Hstore|congruence].
Qed.

(** A row of the piece outside the rows of the arena: the first cell that
    reads non-zero throws. *)
Lemma merge_row_outside (p : Position) (y : nat) (row : list cell)
    (a0 : Matrix) (k : nat) :
  ~ 0 <= Z.of_nat y + pos_y p < Z.of_nat (length a0) ->
  for_each k
    (fun acc x =>
       and_then acc (fun a =>
         let value := default undefined (row !! x) in
         if strict_ne_zero value
         then store a (Z.of_nat y + pos_y p) (Z.of_nat x + pos_x p) value
         else Ok a))
    (Ok a0)
  = if for_any k (fun x => strict_ne_zero (default undefined (row !! x)))
    then Throws else Ok a0.
Proof.
  intros Hr. induction k as [|k IH]; [reflexivity|].
  rewrite for_each_S, IH, for_any_S.
  destruct (for_any k _); [reflexivity|]. cbn [and_then orb]. cbv zeta.
  destruct (strict_ne_zero _); [|reflexivity].
  apply (proj2 (store_rows a0 _ _ _)). exact Hr.
Qed.

(** The outcome of [merge] after the first [k] rows of the piece. *)
Lemma merge_outcome (a : Matrix) (p : Player) (k : nat) :
  (k <= length (matrix p))%nat ->
  let run := for_each k
               (fun acc y =>
                  and_then acc
                    (merge_row (pos p) y (default [] (matrix p !! y))))
               (Ok a) in
  if for_any k (fun y => outside_rows a (Z.of_nat y + pos_y (pos p))
                         && row_has_block p y)
  then run = Throws
  else exists ak, run = Ok ak /\ length ak = length a.
Proof.
  intros Hk. cbv zeta. induction k as [|k IH].
  - exists a. split; reflexivity.
  - rewrite for_each_S, for_any_S. specialize (IH ltac:(lia)).
    destruct (for_any k _); [now rewrite IH|].
    destruct IH as (ak & -> & Hlen). cbn [and_then orb].
    destruct (lookup_lt_is_Some_2 (matrix p) k) as [row Hrow]; [lia|].
    unfold merge_row, row_has_block. rewrite Hrow.
    change (default [] (Some row)) with row.
    destruct (outside_rows a (Z.of_nat k + pos_y (pos p))) eqn:Hout; cbn [andb].
    + rewrite merge_row_outside.
      * assert (for_any (length row)
                  (fun x => strict_ne_zero (default undefined (row !! x)))
                = for_any (length row)
                    (fun x => strict_ne_zero (cell_at (matrix p) k x))) as ->.
        { unfold cell_at. now rewrite Hrow. }
        destruct (for_any (length row) _); [reflexivity|].
        exists ak. split; [reflexivity|exact Hlen].
      * rewrite Hlen. intros Hin. apply outside_rows_spec in Hin. congruence.
    + apply outside_rows_spec in Hout.
      destruct (merge_row_over_arena (pos p) k row ak (length row))
        as (a' & Hrun & Hlen'); [lia|].
      exists a'. split; [exact Hrun|congruence].
Qed.

Lemma block_outside_rows (a : Matrix) (p : Player) :
  for_any (length (matrix p))
          (fun y => outside_rows a (Z.of_nat y + pos_y (pos p))
                    && row_has_block p y) = true
  <-> exists y x v, piece_cell p y x v /\ v <> Num 0
                    /\ ~ 0 <= Z.of_nat y + pos_y (pos p) < Z.of_nat (length a).
Proof.
  rewrite for_any_true. split.
  - intros (y & Hy & [Hout Hblock]%andb_true_iff).
    apply for_any_true in Hblock as (x & Hx & Hnz).
    apply lookup_lt_is_Some in Hy as [row Hrow]. rewrite Hrow in Hx; simpl in Hx.
    apply lookup_lt_is_Some in Hx as [v Hv].
    exists y, x, v. split; [exists row; split; assumption|].
    unfold cell_at in Hnz. rewrite Hrow, Hv in Hnz.
    split; [now apply strict_ne_zero_true|].
    intros Hin. apply outside_rows_spec in Hin. congruence.
  - intros (y & x & v & Hcell & Hnz & Hout).
    pose proof (piece_cell_cell_at _ _ _ _ Hcell) as Hat.
    destruct Hcell as (row & Hrow & Hv).
    exists y. split; [eapply lookup_lt_Some; eassumption|].
    apply andb_true_iff. split.
    + destruct (outside_rows a _) eqn:E; [reflexivity|].
      apply outside_rows_spec in E. contradiction.
    + apply for_any_true. exists x. rewrite Hrow.
      split; [eapply lookup_lt_Some; eassumption|].
      rewrite Hat. now apply strict_ne_zero_true.
Qed.

End MergeErrors.

Lemma merge_bad_row (a : Matrix) (p : Player) :
  (exists y x v, piece_cell p y x v /\ v <> Num 0
                 /\ ~ 0 <= Z.of_nat y + pos_y (pos p) < Z.of_nat (length a)) ->
  merge a p = Throws.
Proof.
  intros Hbad. apply block_outside_rows in Hbad.
  pose proof (merge_outcome a p (length (matrix p)) ltac:(lia)) as Hrun.
  cbv zeta in Hrun. now rewrite Hbad in Hrun.
Qed.

Lemma merge_rows_ok (a : Matrix) (p : Player) :
  (forall y x v, piece_cell p y x v -> v <> Num 0 ->
     0 <= Z.of_nat y + pos_y (pos p) < Z.of_nat (length a)) ->
  exists a', merge a p = Ok a' /\ length a' = length a.
Proof.
  intros Hok.
  pose proof (merge_outcome a p (length (matrix p)) ltac:(lia)) as Hrun.
  cbv zeta in Hrun.
  destruct (for_any (length (matrix p)) _) eqn:Hany; [|exact Hrun].
  apply block_outside_rows in Hany as (y & x & v & Hcell & Hnz & Hout).
  exfalso. apply Hout. eapply Hok; eassumption.
Qed.

(** X12: [merge] of a piece whose cells are numbers throws when a
    non-zero cell of the piece lies on a row the arena does not have,
    above the top or below the bottom; when every non-zero cell lies on a
    row of the arena it returns an arena with as many rows, whatever the
    columns are. *)
Theorem merge_throws_outside_rows (a : Matrix) (p : Player) :
  numeric (matrix p) ->
  ((exists y x v, piece_cell p y x v /\ v <> Num 0
                  /\ ~ 0 <= Z.of_nat y + pos_y (pos p) < Z.of_nat (length a)) ->
   merge a p = Throws)
  /\ ((forall y x v, piece_cell p y x v -> v <> Num 0 ->
         0 <= Z.of_nat y + pos_y (pos p) < Z.of_nat (length a)) ->
      exists a', merge a p = Ok a' /\ length a' = length a).
Proof.
  intros _. split; [apply merge_bad_row|apply merge_rows_ok].
Qed.

Lemma merge_throws_outside_rows_witness :
  merge empty_arena (player_at 5 (-3) Piece_O) = Throws
  /\ exists a', merge empty_arena (player_at 11 0 Piece_O) = Ok a'
                /\ length a' = length empty_arena.
Proof.
  split.
  - apply (proj1 (merge_throws_outside_rows empty_arena (player_at 5 (-3) Piece_O)
                    (createPiece_numeric Piece_O))).
    exists 0%nat, 0%nat, (Num 4). split; [|split].
    + exists (nums [4; 4]). split; reflexivity.
    + discriminate.
    + cbn. lia.
  - apply (proj2 (merge_throws_outside_rows empty_arena (player_at 11 0 Piece_O)
                    (createPiece_numeric Piece_O))).
    intros y x v Hcell _. apply piece_cell_O in Hcell. cbn. lia.
Defined.

Lemma with_pos_y_back (p : Player) (offset : Z) :
  with_pos_y (with_pos_y p (pos_y (pos p) + offset))
             (pos_y (pos (with_pos_y p (pos_y (pos p) + offset))) - offset) = p.
Proof.
  destruct p as [[px py] m s]; unfold with_pos_y; simpl.
  f_equal. f_equal. lia.
Qed.

(** X13: whenever the step would put a non-zero cell of the piece above
    the arena, as a held DPAD_UP does near the top, [playerDrop] throws:
    the moved piece collides, is backed off one more row up, and [merge]
    writes to a row that does not exist. *)
Theorem playerDrop_above_top_throws (fuel pick : nat) (offset : Z) (s : Session) :
  may_move (game s) = true ->
  numeric (matrix (player (game s))) ->
  (exists y x v, piece_cell (player (game s)) y x v /\ v <> Num 0
                 /\ Z.of_nat y + pos_y (pos (player (game s))) + offset < 0) ->
  playerDrop fuel pick offset s = Throws.
Proof.
  intros Hmove _ (y & x & v & Hcell & Hnz & Habove).
  unfold playerDrop. rewrite Hmove. cbn [arena player with_player].
  assert (collide (arena (game s))
            (with_pos_y (player (game s))
                        (pos_y (pos (player (game s))) + offset)) = true) as ->.
  { apply collide_true_iff. exists y, x, v. split; [exact Hcell|].
    split; [exact Hnz|]. rewrite arena_cell_above; [discriminate|].
    cbn. lia. }
  rewrite merge_bad_row; [reflexivity|].
  exists y, x, v. split; [exact Hcell|]. split; [exact Hnz|]. cbn. lia.
Qed.

Lemma playerDrop_above_top_throws_witness :
  playerDrop 41 0 (-2) session_spawned = Throws.
Proof.
  apply (playerDrop_above_top_throws 41 0 (-2) session_spawned).
  - reflexivity.
  - apply createPiece_numeric.
  - exists 0%nat, 0%nat, (Num 4). split; [|split].
    + exists (nums [4; 4]). split; reflexivity.
    + discriminate.
    + cbn. lia.
Defined.

Lemma updateScore_frame (g : Game) :
  arena (updateScore g) = arena g
  /\ player (updateScore g) = player g
  /\ gamePaused (updateScore g) = gamePaused g
  /\ mode (updateScore g) = mode g.
Proof.
  unfold updateScore.
  repeat match goal with
         | |- context [if ?c then _ else _] => destruct c
         end; repeat split.
Qed.

(** X14: [playerDrop(1)] from a position where the piece does not
    collide, on an arena of at least 4 x 4 cells. It returns and the
    arena keeps its dimensions. When moves are not allowed (paused in
    Normal mode) nothing changes, the drop timer included. Otherwise the
    timer is back at 0, and either the row below is free and the piece is
    one row lower, nothing else changed, or the piece is locked: its
    non-zero cells are written into the arena at its position, the other
    positions staying as they were; the fresh piece stands centred at row
    0, the arena being wiped and the score set to 0 if it collides there;
    in Normal mode the full rows of that arena are then replaced by
    zeroed rows on top and the score grows by the award for them, in Fill
    mode the arena and the score stay. *)
Theorem playerDrop_gravity_step
    (width height fuel pick : nat) (type : PieceType) (s : Session) :
  is_arena width height (arena (game s)) ->
  (4 <= width)%nat -> (4 <= height)%nat ->
  legal (game s) ->
  numeric (matrix (player (game s))) ->
  pieces !! pick = Some type ->
  (sweep_fuel (arena (game s)) <= fuel)%nat ->
  let g := game s in
  let lower := with_pos_y (player g) (pos_y (pos (player g)) + 1) in
  exists s', playerDrop fuel pick 1 s = Ok s'
    /\ is_arena width height (arena (game s'))
    /\ gamePaused (game s') = gamePaused g
    /\ mode (game s') = mode g
    /\ (may_move g = false -> s' = s)
    /\ (may_move g = true -> dropCounter s' = 0%Q)
    /\ (may_move g = true -> collide (arena g) lower = false ->
        game s' = with_player g lower)
    /\ (may_move g = true -> collide (arena g) lower = true ->
        exists locked,
          merge (arena g) (player g) = Ok locked
          /\ (forall y x v, piece_cell (player g) y x v -> v <> Num 0 ->
                arena_cell locked (Z.of_nat y + pos_y (pos (player g)))
                                  (Z.of_nat x + pos_x (pos (player g))) = v)
          /\ (forall r c,
                (forall y x v, piece_cell (player g) y x v -> v <> Num 0 ->
                   (Z.of_nat y + pos_y (pos (player g)),
                    Z.of_nat x + pos_x (pos (player g))) <> (r, c)) ->
                arena_cell locked r c = arena_cell (arena g) r c)
          /\ let fresh := fresh_player width type (score (player g)) in
             let reset := if collide locked fresh
                          then createMatrix width height else locked in
             let kept_score := if collide locked fresh
                               then 0 else score (player g) in
             matrix (player (game s')) = createPiece type
             /\ pos (player (game s')) = mkPosition (spawn_column width type) 0
             /\ match mode g with
                | Normal =>
                    arena (game s')
                    = map fill_zero (full_rows reset) ++ kept_rows reset
                    /\ score (player (game s'))
                       = kept_score + award (length (full_rows reset))
                | Fill =>
                    arena (game s') = reset
                    /\ score (player (game s')) = kept_score
                end).
Proof.
  intros Harena Hw Hh Hlegal _ Hpick Hfuel. cbv zeta.
  unfold playerDrop. destruct (may_move (game s)) eqn:Hmove.
  2:{ exists s. split; [reflexivity|]. split; [exact Harena|].
      repeat split; discriminate. }
  cbn [arena player with_player].
  destruct (collide (arena (game s)) _) eqn:Hcol.
  2:{ eexists. split; [reflexivity|].
      cbn [dropCounter game arena with_player gamePaused mode].
      split; [exact Harena|]. repeat split; discriminate. }
  rewrite with_pos_y_back.
  destruct (merge_free _ _ Hlegal) as (a1 & Hmerge & Hshape & Hcells & Hrest).
  rewrite Hmerge. cbn [and_then].
  pose proof (same_shape_is_arena _ _ _ _ Hshape Harena) as Harena1.
  set (g2 := with_arena _ a1).
  assert (is_arena width height (arena g2)) as Harena2 by exact Harena1.
  pose proof (playerReset_unfold pick type width height g2 Harena2 ltac:(lia) Hpick)
    as Hreset.
  destruct (playerReset_scan_complete width height pick g2 _ Harena2 ltac:(lia) Hreset)
    as (Harena3 & Hscan3 & Hmode3).
  rewrite Hreset. cbn [and_then].
  set (g3 := if collide (arena g2) _ then _ else _) in *.
  assert (sweep_fuel (arena g3) <= fuel)%nat as Hfuel3.
  { unfold sweep_fuel in *. rewrite (proj1 Harena3), <- (proj1 Harena). exact Hfuel. }
  rewrite (arenaSweep_scanned_state width height g3 fuel Harena3 ltac:(lia) Hscan3 Hfuel3).
  cbn [and_then]. eexists. split; [reflexivity|].
  cbn [dropCounter game].
  set (g4 := match mode g3 with Normal => _ | Fill => _ end).
  destruct (updateScore_frame g4) as (-> & -> & -> & ->).
  assert (arena g3 = (if collide a1 (fresh_player width type (score (player (game s))))
                      then createMatrix width height else a1)
          /\ player g3
             = fresh_player width type
                 (if collide a1 (fresh_player width type (score (player (game s))))
                  then 0 else score (player (game s)))
          /\ gamePaused g3 = gamePaused (game s)
          /\ mode g3 = mode (game s)) as (Ha3 & Hp3 & Hpa3 & Hmo3).
  { subst g3 g2. cbn [arena with_arena player score gamePaused mode].
    destruct (collide a1 _); cbn [arena player gamePaused mode].
    - rewrite (fill_zero_arena width height) by exact Harena1. repeat split.
    - repeat split. }
  assert (is_arena width height (arena g4)) as Harena4.
  { destruct (arenaSweep_outcome width height g3 fuel Harena3 ltac:(lia) Hfuel3)
      as (a4 & sc4 & Hrun4 & Ha4 & _).
    rewrite (arenaSweep_scanned_state width height g3 fuel Harena3 ltac:(lia) Hscan3 Hfuel3)
      in Hrun4.
    injection Hrun4 as Hrun4. fold g4 in Hrun4. rewrite Hrun4. exact Ha4. }
  split; [exact Harena4|].
  assert (gamePaused g4 = gamePaused g3 /\ mode g4 = mode g3
          /\ matrix (player g4) = matrix (player g3)
          /\ pos (player g4) = pos (player g3)) as (Hpa4 & Hmo4 & Hm4 & Hpos4).
  { subst g4. destruct (mode g3) eqn:E;
      cbn [gamePaused mode matrix pos player with_player with_arena with_score];
      repeat split; exact E. }
  split; [congruence|]. split; [congruence|].
  split; [discriminate|]. split; [reflexivity|]. split; [discriminate|].
  intros _ _. exists a1. split; [reflexivity|]. split; [exact Hcells|].
  split; [exact Hrest|].
  split; [rewrite Hm4, Hp3; reflexivity|].
  split; [rewrite Hpos4, Hp3; reflexivity|].
  rewrite <- Hmo3. subst g4. destruct (mode g3).
  - cbn [arena player with_player with_arena with_score score].
    rewrite Ha3, Hp3. split; reflexivity.
  - rewrite Ha3, Hp3. split; reflexivity.
Qed.

Lemma playerDrop_gravity_step_witness :
  exists s',
    playerDrop 41 3 1 session_resting = Ok s'
    /\ dropCounter s' = 0%Q
    /\ score (player (game s')) = 10
    /\ arena_cell (arena (game s')) 19 5 = Num 7
    /\ matrix (player (game s')) = createPiece Piece_O.
Proof.
  destruct (playerDrop_gravity_step 12 20 41 3 Piece_O session_resting)
    as (s' & Hrun & _ & _ & _ & _ & Hclock & _ & Hlock).
  - split; [reflexivity|]. vm_compute.
    repeat (constructor; [reflexivity|]). constructor.
  - lia.
  - lia.
  - vm_compute. reflexivity.
  - apply createPiece_numeric.
  - reflexivity.
  - vm_compute. lia.
  - destruct (Hlock eq_refl eq_refl) as (locked & Hmerge & _ & _ & Hm & _ & Ha & Hsc).
    vm_compute in Hmerge. injection Hmerge as <-.
    exists s'. split; [exact Hrun|]. split; [exact (Hclock eq_refl)|].
    split; [rewrite Hsc; vm_compute; reflexivity|].
    split; [rewrite Ha; vm_compute; reflexivity|exact Hm].
Defined.

(** * Properties of the controls *)

Import Events Controls.

Lemma playerMove_paused (offset : Z) (g : Game) :
  may_move g = false -> playerMove offset g = g.
Proof. intros Hmove. unfold playerMove. now rewrite Hmove. Qed.

(** X15: with left and right held together the tick moves the piece left and
    back again when the column on its left is free, and one column to
    the right, if that one is free, when the left is blocked: the piece
    never ends on the left of where it was. *)
Theorem tick_left_and_right (fuel pick_down pick_up : nat) (h : Holds) (s : Session) :
  inputStepPause <= inputStep h ->
  holdLeft h = true -> holdRight h = true ->
  holdDown h = false -> holdUp h = false ->
  legal (game s) ->
  on_tick fuel pick_down pick_up h s
  = Ok (with_inputStep h 0,
        with_game s
          (if collide (arena (game s))
                      (with_pos_x (player (game s))
                                  (pos_x (pos (player (game s))) + -1))
           then playerMove 1 (game s)
           else game s)).
Proof.
  intros Hstep Hleft Hright Hdown Hup Hlegal. unfold on_tick.
  apply Z.leb_le in Hstep. rewrite Hstep, Hleft, Hright, Hdown, Hup.
  cbn [when_held move and_then]. destruct s as [g dc].
  unfold with_game. cbn [game dropCounter] in *. do 3 f_equal.
  destruct (may_move g) eqn:Hmove.
  - destruct (collide (arena g) _) eqn:Hfree.
    + assert (playerMove (-1) g = g) as ->; [|reflexivity].
      unfold playerMove. rewrite Hmove.
      cbn [arena player with_player]. rewrite Hfree.
      destruct g as [a p paused md sp]. unfold with_player; simpl.
      now rewrite with_pos_x_back.
    + exact (playerMove_round_trip (-1) g Hlegal Hfree).
  - rewrite (playerMove_paused (-1)) by exact Hmove.
    rewrite playerMove_paused by exact Hmove. now destruct (collide _ _).
Qed.

Lemma tick_left_and_right_witness :
  on_tick 41 0 0 holding_both session_at_wall
  = Ok (with_inputStep holding_both 0,
        with_game session_at_wall
          (game_of empty_arena (player_at 1 0 Piece_O))).
Proof.
  rewrite (tick_left_and_right 41 0 0 holding_both session_at_wall).
  - reflexivity.
  - vm_compute. discriminate.
  - reflexivity.
  - reflexivity.
  - reflexivity.
  - reflexivity.
  - vm_compute. reflexivity.
Defined.

(** X16: as long as the counter has not reached [inputStepPause], a tick only
    counts: whatever is held, the game is left alone, so that held
    directions act on every seventh tick. *)
Theorem ticks_only_count (fuel pick_down pick_up n : nat) (h : Holds) (s : Session) :
  inputStep h + Z.of_nat n <= inputStepPause ->
  ticks fuel pick_down pick_up n h s
  = Ok (with_inputStep h (inputStep h + Z.of_nat n), s).
Proof.
  revert h. induction n as [|n IH]; intros h Hle.
  - cbn. rewrite Z.add_0_r. now destruct h.
  - cbn [ticks]. unfold on_tick.
    assert ((inputStepPause <=? inputStep h) = false) as -> by (apply Z.leb_gt; lia).
    cbn [and_then]. rewrite IH by (cbn; lia). cbn. do 3 f_equal. lia.
Qed.

Lemma ticks_only_count_witness :
  ticks 41 0 0 6 (with_inputStep holding_both 0) session_at_wall
  = Ok (holding_both, session_at_wall).
Proof.
  rewrite (ticks_only_count 41 0 0 6 (with_inputStep holding_both 0) session_at_wall).
  - reflexivity.
  - vm_compute. discriminate.
Defined.

(** X17: the stick alone decides the horizontal flags: after a change of
    LEFT_STICK_X, left is held exactly when the value is below -0.5 and
    right exactly when it is above 0.5, never both, whatever was held
    before; the last test of the listener holds of every value. After a
    change of LEFT_STICK_Y, down is held exactly when the value is above
    0.5, but a value of exactly 0.5 leaves the flag as it was. *)
Theorem stick_sets_holds (value : Q) (h : Holds) :
  let hx := on_axis_changed "LEFT_STICK_X" value h in
  let hy := on_axis_changed "LEFT_STICK_Y" value h in
  holdLeft hx = Gamepad.Qltb value (-0.5)
  /\ holdRight hx = Gamepad.Qltb 0.5 value
  /\ holdLeft hx && holdRight hx = false
  /\ (holdDown hx, holdUp hx, inputStep hx) = (holdDown h, holdUp h, inputStep h)
  /\ holdDown hy = (if Qeq_bool value 0.5 then holdDown h else Gamepad.Qltb 0.5 value)
  /\ (holdLeft hy, holdRight hy, holdUp hy, inputStep hy)
     = (holdLeft h, holdRight h, holdUp h, inputStep h).
Proof.
  cbv zeta. unfold on_axis_changed.
  change (String.eqb "LEFT_STICK_X" "LEFT_STICK_X") with true.
  change (String.eqb "LEFT_STICK_Y" "LEFT_STICK_X") with false.
  change (String.eqb "LEFT_STICK_Y" "LEFT_STICK_Y") with true.
  cbv iota.
  destruct (Qeq_bool value 0.5) eqn:Heq;
    [apply Qeq_bool_iff in Heq | apply Qeq_bool_neq in Heq];
    decide_filter; cbn; repeat split; try reflexivity; exfalso; lra.
Qed.

(** * Properties of the gamepad library *)


(** ** The dead-zone filter, any thresholds *)

(** X18: the filter applied twice is the filter applied once, as long as the
    dead zone does not exceed 1. *)
Theorem applyDeadzoneMaximize_idempotent
    (this : Gamepad.Thresholds) (value : Q) (deadzone maximizeThreshold : option Q) :
  (default (Gamepad.deadzone this) deadzone <= 1)%Q ->
  Gamepad._applyDeadzoneMaximize this
    (Gamepad._applyDeadzoneMaximize this value deadzone maximizeThreshold)
    deadzone maximizeThreshold
  = Gamepad._applyDeadzoneMaximize this value deadzone maximizeThreshold.
Proof.
  intros Hdz. unfold Gamepad._applyDeadzoneMaximize.
  set (dz := default (Gamepad.deadzone this) deadzone) in *.
  set (mt := default (Gamepad.maximizeThreshold this) maximizeThreshold) in *.
  clearbody dz mt. cbv zeta.
  decide_filter; try reflexivity; exfalso; lra.
Qed.

Lemma applyDeadzoneMaximize_idempotent_witness :
  Gamepad._applyDeadzoneMaximize Gamepad.default_thresholds
    (Gamepad._applyDeadzoneMaximize Gamepad.default_thresholds 0.99%Q None None)
    None None
  = Gamepad._applyDeadzoneMaximize Gamepad.default_thresholds 0.99%Q None None.
Proof.
  apply (applyDeadzoneMaximize_idempotent Gamepad.default_thresholds 0.99%Q None None).
  vm_compute. discriminate.
Defined.

(** X19: the filter keeps the order of its inputs as long as the saturation
    threshold does not exceed 1, and it keeps every input of [-1, 1]
    within [-1, 1] whatever the thresholds. *)
Theorem applyDeadzoneMaximize_monotone
    (this : Gamepad.Thresholds) (deadzone maximizeThreshold : option Q) :
  ((default (Gamepad.maximizeThreshold this) maximizeThreshold <= 1)%Q ->
   forall v1 v2 : Q, (v1 <= v2)%Q ->
     (Gamepad._applyDeadzoneMaximize this v1 deadzone maximizeThreshold
      <= Gamepad._applyDeadzoneMaximize this v2 deadzone maximizeThreshold)%Q)
  /\ (forall v : Q, (-1 <= v)%Q -> (v <= 1)%Q ->
        (-1 <= Gamepad._applyDeadzoneMaximize this v deadzone maximizeThreshold)%Q
        /\ (Gamepad._applyDeadzoneMaximize this v deadzone maximizeThreshold <= 1)%Q).
Proof.
  unfold Gamepad._applyDeadzoneMaximize.
  set (dz := default (Gamepad.deadzone this) deadzone) in *.
  set (mt := default (Gamepad.maximizeThreshold this) maximizeThreshold) in *.
  clearbody dz mt. cbv zeta. split.
  - intros Hmt v1 v2 Hle. decide_filter; lra.
  - intros v Hlo Hhi. decide_filter; lra.
Qed.

Lemma applyDeadzoneMaximize_monotone_witness :
  (Gamepad._applyDeadzoneMaximize Gamepad.default_thresholds 0.02%Q None None
   <= Gamepad._applyDeadzoneMaximize Gamepad.default_thresholds 0.5%Q None None)%Q
  /\ (Gamepad._applyDeadzoneMaximize Gamepad.default_thresholds (-0.5)%Q None None
      <= 1)%Q.
Proof.
  destruct (applyDeadzoneMaximize_monotone Gamepad.default_thresholds None None)
    as [Hmono Hrange].
  split.
  - apply Hmono; vm_compute; discriminate.
  - apply (Hrange (-0.5)%Q); vm_compute; discriminate.
Defined.

(** ** Filters and mappings *)

Lemma strict_ne_false (a : string) (b : option string) :
  Gamepad.strict_ne a b = false <-> b = Some a.
Proof.
  unfold Gamepad.strict_ne. destruct b as [b'|]; [|split; discriminate].
  rewrite negb_false_iff, String.eqb_eq. split; congruence.
Qed.

Lemma envMatchesFilter_fold (filter env : Gamepad.object) (start : bool) :
  foldl (fun result '(field, v) =>
           if Gamepad.strict_ne v (Gamepad.prop env field) then false else result)
        start filter
  = start && forallb (fun '(field, v) =>
                        negb (Gamepad.strict_ne v (Gamepad.prop env field))) filter.
Proof.
  revert start. induction filter as [|[field v] filter IH]; intros start.
  - cbn. now rewrite andb_true_r.
  - cbn [foldl forallb]. rewrite IH.
    destruct (Gamepad.strict_ne v (Gamepad.prop env field)); cbn.
    + now rewrite andb_false_r.
    + reflexivity.
Qed.

(** X20: [envMatchesFilter] holds exactly when the environment has every field
    of the filter, with the same value; the empty filter covers every
    environment. *)
Theorem envMatchesFilter_covers (filter env : Gamepad.object) :
  Gamepad.envMatchesFilter filter env = true
  <-> forall field v, In (field, v) filter -> Gamepad.prop env field = Some v.
Proof.
  unfold Gamepad.envMatchesFilter. rewrite envMatchesFilter_fold.
  cbn [andb]. rewrite forallb_forall. split.
  - intros Hall field v Hin. specialize (Hall (field, v) Hin). cbn in Hall.
    apply negb_true_iff, strict_ne_false in Hall. exact Hall.
  - intros Hall [field v] Hin. apply negb_true_iff, strict_ne_false.
    now apply Hall.
Qed.

Lemma first_match_some (mappings : list Gamepad.Mapping) (e : Gamepad.object)
    (m : Gamepad.Mapping) :
  Gamepad.first_match mappings e = Some m ->
  exists before after,
    mappings = before ++ m :: after
    /\ Gamepad.envMatchesFilter (Gamepad.env m) e = true
    /\ Forall (fun test => Gamepad.envMatchesFilter (Gamepad.env test) e = false)
              before.
Proof.
  induction mappings as [|test rest IH]; [discriminate|]. cbn.
  destruct (Gamepad.envMatchesFilter (Gamepad.env test) e) eqn:Htest.
  - intros [= <-]. exists [], rest. repeat split; [exact Htest|constructor].
  - intros Hrest. destruct (IH Hrest) as (before & after & -> & Hm & Hbefore).
    exists (test :: before), after. repeat split; [exact Hm|].
    constructor; assumption.
Qed.

(** X21: the mapping [_resolveMapping] returns is the standard one or the
    first entry of [Mappings] whose [env] covers the environment; its
    [env] covers the environment, and it provides the 17 standard buttons
    and the 4 standard axes. *)
Theorem resolveMapping_sound (platform id : string) :
  let m := Gamepad._resolveMapping platform id in
  Gamepad.envMatchesFilter (Gamepad.env m) (environment platform id) = true
  /\ length (Gamepad.byButton (Gamepad.buttons m)) = 17%nat
  /\ length (Gamepad.byAxis (Gamepad.axes m)) = 4%nat
  /\ ((m = Gamepad.StandardMapping
       /\ Forall (fun test =>
                    Gamepad.envMatchesFilter (Gamepad.env test)
                                             (environment platform id) = false)
                 Gamepad.Mappings)
      \/ exists before after,
           Gamepad.Mappings = before ++ m :: after
           /\ Forall (fun test =>
                        Gamepad.envMatchesFilter (Gamepad.env test)
                                                 (environment platform id) = false)
                     before).
Proof.
  cbv zeta. unfold Gamepad._resolveMapping. fold (environment platform id).
  destruct (Gamepad.first_match Gamepad.Mappings (environment platform id))
    as [m|] eqn:Hfirst; cbn [default].
  - destruct (first_match_some _ _ _ Hfirst) as (before & after & Hsplit & Hm & Hb).
    split; [exact Hm|].
    assert (In m Gamepad.Mappings) as Hin
      by (rewrite Hsplit; apply in_or_app; right; left; reflexivity).
    assert (Forall (fun m => length (Gamepad.byButton (Gamepad.buttons m)) = 17%nat
                             /\ length (Gamepad.byAxis (Gamepad.axes m)) = 4%nat)
                   Gamepad.Mappings) as Hsizes
      by (repeat constructor).
    apply list_elem_of_In in Hin.
    destruct (proj1 (Forall_forall _ _) Hsizes m Hin) as [Hb17 Ha4].
    split; [exact Hb17|]. split; [exact Ha4|].
    right. exists before, after. split; assumption.
  - split; [reflexivity|]. split; [reflexivity|]. split; [reflexivity|].
    left. split; [reflexivity|].
    clear -Hfirst. induction Gamepad.Mappings as [|test rest IH]; [constructor|].
    cbn in Hfirst.
    destruct (Gamepad.envMatchesFilter (Gamepad.env test) _) eqn:Htest;
      [discriminate|].
    constructor; [exact Htest|apply IH, Hfirst].
Qed.

(** ** Controller types *)

Section Keywords.

Open Scope string_scope.

#[local] Arguments String.append !s1 s2 : simpl nomatch.

Lemma toLowerCase_app (a b : string) :
  Gamepad.toLowerCase (a ++ b) = Gamepad.toLowerCase a ++ Gamepad.toLowerCase b.
Proof. induction a as [|c a IH]; [reflexivity|]. cbn. now rewrite IH. Qed.

Lemma squeeze_word (k rest : string) (in_run : bool) :
  no_space k = true ->
  Gamepad.squeeze_spaces in_run (k ++ rest)
  = k ++ Gamepad.squeeze_spaces
           (match k with EmptyString => in_run | String _ _ => false end) rest.
Proof.
  revert in_run. induction k as [|c k IH]; intros in_run Hk; [reflexivity|].
  cbn in Hk. apply andb_true_iff in Hk as [Hc Hk]. apply negb_true_iff in Hc.
  cbn. rewrite Hc. f_equal. rewrite IH by exact Hk. now destruct k.
Qed.

Lemma squeeze_around_word (pre k rest : string) (in_run : bool) :
  k <> "" -> no_space k = true ->
  Gamepad.squeeze_spaces in_run (pre ++ k ++ rest)
  = Gamepad.squeeze_spaces in_run pre ++ k ++ Gamepad.squeeze_spaces false rest.
Proof.
  intros Hne Hk. revert in_run. induction pre as [|c pre IH]; intros in_run.
  - cbn. rewrite squeeze_word by exact Hk. now destruct k.
  - cbn. destruct (Gamepad.is_space c), in_run; cbn; now rewrite IH.
Qed.

Lemma trim_start_keeps_word (x k rest : string) :
  k <> "" -> no_space k = true ->
  exists x', Gamepad.trim_start (x ++ k ++ rest) = x' ++ k ++ rest.
Proof.
  intros Hne Hk. induction x as [|c x IH].
  - exists "". destruct k as [|c k]; [congruence|].
    cbn in Hk |- *. apply andb_true_iff in Hk as [Hc _].
    apply negb_true_iff in Hc. now rewrite Hc.
  - cbn. destruct (Gamepad.is_space c); [exact IH|].
    exists (String c x). reflexivity.
Qed.

Lemma trim_end_cons (c : ascii) (s : string) :
  Gamepad.is_space c = false ->
  Gamepad.trim_end (String c s) = String c (Gamepad.trim_end s).
Proof. intros Hc. cbn. rewrite Hc. now destruct (Gamepad.trim_end s). Qed.

Lemma trim_end_word (k rest : string) :
  no_space k = true -> Gamepad.trim_end (k ++ rest) = k ++ Gamepad.trim_end rest.
Proof.
  induction k as [|c k IH]; intros Hk; [reflexivity|].
  cbn in Hk. apply andb_true_iff in Hk as [Hc Hk]. apply negb_true_iff in Hc.
  cbn [append]. rewrite trim_end_cons by exact Hc. now rewrite IH.
Qed.

Lemma trim_end_keeps_word (x k rest : string) :
  k <> "" -> no_space k = true ->
  Gamepad.trim_end (x ++ k ++ rest) = x ++ k ++ Gamepad.trim_end rest.
Proof.
  intros Hne Hk. induction x as [|c x IH]; [cbn [append]; now apply trim_end_word|].
  cbn [append Gamepad.trim_end]. rewrite IH.
  destruct (x ++ k ++ Gamepad.trim_end rest) eqn:E; [|reflexivity].
  exfalso. destruct x; [|discriminate]. destruct k; [congruence|discriminate].
Qed.

Lemma prefix_app (k rest : string) : String.prefix k (k ++ rest) = true.
Proof.
  induction k as [|c k IH]; [now destruct rest|].
  cbn. destruct (ascii_dec c c); [exact IH|congruence].
Qed.

Lemma index_finds_word (x k rest : string) :
  k <> "" -> String.index 0 k (x ++ k ++ rest) <> None.
Proof.
  intros Hne. induction x as [|c x IH].
  - destruct k as [|c k]; [congruence|].
    cbn [append String.index]. 
    change (String c (k ++ rest)) with (String c k ++ rest).
    now rewrite prefix_app.
  - cbn [append String.index].
    destruct (String.prefix k (String c (x ++ k ++ rest))); [discriminate|].
    destruct (String.index 0 k (x ++ k ++ rest)); [discriminate|congruence].
Qed.

(** A word without white space survives the normalisation of the id,
    lower-cased, whatever stands around it. *)
Lemma normalised_contains (pre word post : string) :
  word <> "" -> no_space (Gamepad.toLowerCase word) = true ->
  Gamepad.found (Gamepad.indexOf (normalised (pre ++ word ++ post))
                                 (Gamepad.toLowerCase word)) = true.
Proof.
  intros Hne Hk.
  assert (Gamepad.toLowerCase word <> "") as Hne' by (now destruct word).
  unfold normalised, Gamepad.trim.
  rewrite !toLowerCase_app, squeeze_around_word by assumption.
  destruct (trim_start_keeps_word
              (Gamepad.squeeze_spaces false (Gamepad.toLowerCase pre))
              (Gamepad.toLowerCase word)
              (Gamepad.squeeze_spaces false (Gamepad.toLowerCase post))
              Hne' Hk) as [x' ->].
  rewrite trim_end_keeps_word by assumption.
  unfold Gamepad.found, Gamepad.indexOf.
  destruct (String.index 0 _ _) as [n|] eqn:E.
  - apply negb_true_iff, Z.eqb_neq. lia.
  - exfalso. revert E. now apply index_finds_word.
Qed.

End Keywords.

(** X22: an id that contains the word "playstation", in any mix of upper and
    lower case and whatever stands around it, is a PlayStation controller:
    the first test of [_resolveControllerType] wins over the later ones. *)
Theorem resolveControllerType_playstation_first (pre word post : string) :
  Gamepad.toLowerCase word = "playstation"%string ->
  Gamepad._resolveControllerType (pre ++ word ++ post) = Gamepad.Type_PLAYSTATION.
Proof.
  intros Hword. unfold Gamepad._resolveControllerType.
  fold (normalised (pre ++ word ++ post)).
  pose proof (normalised_contains pre word post) as Hfound.
  rewrite Hword in Hfound. rewrite Hfound; [reflexivity| |reflexivity].
  intros ->. discriminate.
Qed.

Lemma resolveControllerType_playstation_first_witness :
  Gamepad._resolveControllerType
    ("Logitech Xbox 360 pad for "
     ++ "PLAYStation" ++ " 3 (Vendor: 0079 Product: 0006)")%string
  = Gamepad.Type_PLAYSTATION.
Proof.
  apply (resolveControllerType_playstation_first
           "Logitech Xbox 360 pad for " "PLAYStation"
           " 3 (Vendor: 0079 Product: 0006)").
  reflexivity.
Defined.

(** ** Buttons *)

Lemma button_updater_lastState (c : string) (v : Q) (pad : Pad) :
  lastState (button_updater c v pad).1 !! c = Some v.
Proof. unfold button_updater. cbn. apply lookup_insert_eq. Qed.

Lemma edges_from_app (down : bool) (a b : list Event) :
  edges_from down (a ++ b)
  = match edges_from down a with
    | Some down' => edges_from down' b
    | None => None
    end.
Proof.
  revert down. induction a as [|e a IH]; intros down; [reflexivity|].
  destruct e, down; cbn; auto.
Qed.

Lemma button_updater_edges (c : string) (v : Q) (pad : Pad) :
  edges_from (above_half (lastState pad !! c)) (button_updater c v pad).2
  = Some (above_half (Some v)).
Proof.
  unfold button_updater. cbn [snd].
  destruct (above_half (Some v)) eqn:Hv, (above_half (lastState pad !! c)) eqn:Hl;
    cbn; destruct (_ && _); reflexivity.
Qed.

Lemma button_updater_fired (c : string) (v : Q) (pad : Pad) :
  Forall (fun e => partial_value e /\ control_of e = c) (button_updater c v pad).2.
Proof.
  unfold button_updater. cbn [snd]. apply Forall_app. split.
  - repeat match goal with |- context [if ?b then _ else _] => destruct b end;
      repeat constructor.
  - destruct (differs v (Some 0%Q)) eqn:H0; [|constructor].
    destruct (differs v (Some 1%Q)) eqn:H1; [|constructor].
    cbn [andb]. destruct (differs v (lastState pad !! c)); [|constructor].
    repeat constructor.
    + intros E. apply Qeq_bool_iff in E. cbn in H0. now rewrite E in H0.
    + intros E. apply Qeq_bool_iff in E. cbn in H1. now rewrite E in H1.
Qed.

(** X23: whatever values a button takes tick after tick, its presses and
    releases alternate, starting from what the last value seen says: a
    press is fired only when the button was up and a release only when it
    was down, and the button is down afterwards exactly when the last
    sample exceeds 0.5. Every event names the button, and a change of
    value is never reported with the value 0 or 1. *)
Theorem button_samples_alternate (c : string) (samples : list Q) (pad : Pad) :
  let after := (button_samples c samples pad).1 in
  let fired := (button_samples c samples pad).2 in
  edges_from (above_half (lastState pad !! c)) fired
  = Some (above_half (lastState after !! c))
  /\ lastState after !! c
     = match last samples with
       | Some v => Some v
       | None => lastState pad !! c
       end
  /\ Forall (fun e => partial_value e /\ control_of e = c) fired.
Proof.
  cbv zeta. revert pad. induction samples as [|v rest IH]; intros pad.
  - cbn. repeat split. constructor.
  - cbn [button_samples].
    pose proof (button_updater_edges c v pad) as Hedge.
    pose proof (button_updater_fired c v pad) as Hfired.
    pose proof (button_updater_lastState c v pad) as Hlast.
    destruct (button_updater c v pad) as [pad1 fired1]. cbn [fst snd] in *.
    specialize (IH pad1).
    destruct (button_samples c rest pad1) as [pad2 fired2]. cbn [fst snd] in *.
    destruct IH as (IHe & IHl & IHf). split; [|split].
    + rewrite edges_from_app, Hedge. rewrite Hlast in IHe. exact IHe.
    + rewrite IHl, Hlast. destruct rest as [|w rest]; [reflexivity|].
      change (last (v :: w :: rest)) with (last (w :: rest)).
      destruct (last (w :: rest)) eqn:E; [reflexivity|].
      apply last_None in E. discriminate.
    + apply Forall_app. split; assumption.
Qed.

(** ** Polling *)

Section PollingFacts.

Context {P : Type} `{EqDecision P}.

Lemma drop_loop (gamepads : list (option P)) (pre suf : list P) (calls : list Call) :
  foldl (drop_gone gamepads) (pre ++ suf, calls) (reverse (seq 0 (length pre)))
  = (filter (fun p => Some p ∈ gamepads) pre ++ suf,
     calls ++ (_disconnect <$> reverse (filter (fun p => Some p ∉ gamepads) pre))).
Proof.
  revert suf calls. induction pre as [|p pre IH] using rev_ind; intros suf calls.
  - cbn. now rewrite app_nil_r.
  - rewrite length_app, seq_app, reverse_app. cbn [length seq reverse foldl app].
    change (reverse [(0 + length pre)%nat]) with [(0 + length pre)%nat].
    cbn [app foldl plus]. unfold drop_gone at 2. cbn [fst snd].
    rewrite <- app_assoc. cbn [app]. rewrite list_lookup_middle by reflexivity.
    rewrite !filter_app, !filter_cons, !filter_nil.
    destruct (decide (Some p ∈ gamepads)) as [Hin|Hout].
    + rewrite IH. rewrite decide_False by (intros Hn; now apply Hn).
      rewrite app_nil_r, <- app_assoc. reflexivity.
    + rewrite delete_middle. rewrite IH.
      rewrite decide_True by exact Hout.
      rewrite reverse_app, app_nil_r, <- app_assoc. reflexivity.
Qed.

Lemma add_loop (gamepads : list (option P)) (known : list P) (calls : list Call) :
  exists added,
    foldl add_new (known, calls) gamepads
    = (known ++ added, calls ++ (_connect <$> added))
    /\ (forall p, p ∈ added <-> Some p ∈ gamepads /\ p ∉ known)
    /\ NoDup added.
Proof.
  revert known calls.
  induction gamepads as [|entry gamepads IH]; intros known calls.
  - exists []. cbn. rewrite !app_nil_r. split; [reflexivity|].
    split; [|constructor]. intros p. rewrite !elem_of_nil. tauto.
  - cbn [foldl]. unfold add_new at 2. cbn [fst snd].
    destruct entry as [g|].
    + destruct (decide (g ∈ known)) as [Hin|Hout].
      * destruct (IH known calls) as (added & -> & Hmem & Hnd).
        exists added. split; [reflexivity|]. split; [|exact Hnd].
        intros p. rewrite Hmem, elem_of_cons. split; [tauto|].
        intros [[E|Hp] Hn]; [|tauto]. injection E as ->. contradiction.
      * destruct (IH (known ++ [g]) (calls ++ [_connect g]))
          as (added & -> & Hmem & Hnd).
        exists (g :: added). rewrite <- !app_assoc. split; [reflexivity|].
        split.
        -- intros p. rewrite !elem_of_cons, Hmem, elem_of_app, list_elem_of_singleton.
           split.
           ++ intros [->|[Hp Hn]]; [tauto|]. tauto.
           ++ intros [[E|Hp] Hn].
              ** left. congruence.
              ** destruct (decide (p = g)); [tauto|]. right. tauto.
        -- constructor; [|exact Hnd]. rewrite Hmem, elem_of_app, list_elem_of_singleton.
           tauto.
    + destruct (IH known calls) as (added & -> & Hmem & Hnd).
      exists added. split; [reflexivity|]. split; [|exact Hnd].
      intros p. rewrite Hmem, elem_of_cons. split; [tauto|].
      intros [[E|Hp] Hn]; [discriminate|tauto].
Qed.

(** What [update] returns: the known gamepads the poll still lists, then
    the new ones; the disconnections, from the last known gamepad to the
    first, then the connections. *)
Lemma update_shape (gamepads : list (option P)) (known : list P) :
  exists added,
    update gamepads known
    = (filter (fun p => Some p ∈ gamepads) known ++ added,
       (_disconnect <$> reverse (filter (fun p => Some p ∉ gamepads) known))
       ++ (_connect <$> added))
    /\ (forall p, p ∈ added <-> Some p ∈ gamepads /\ p ∉ known)
    /\ NoDup added.
Proof.
  unfold update.
  pose proof (drop_loop gamepads known [] []) as Hdrop.
  rewrite !app_nil_r in Hdrop. cbn [app] in Hdrop. rewrite Hdrop.
  destruct (add_loop gamepads (filter (fun p => Some p ∈ gamepads) known)
              (_disconnect <$> reverse (filter (fun p => Some p ∉ gamepads) known)))
    as (added & -> & Hmem & Hnd).
  exists added. split; [reflexivity|]. split; [|exact Hnd].
  intros p. rewrite Hmem, list_elem_of_filter. tauto.
Qed.

Lemma filter_all (A : Type) (Q : A -> Prop) `{forall x, Decision (Q x)} (l : list A) :
  (forall x, x ∈ l -> Q x) -> filter Q l = l.
Proof.
  induction l as [|x l IH]; intros Hall; [reflexivity|].
  rewrite filter_cons, decide_True by (apply Hall; left).
  f_equal. apply IH. intros y Hy. apply Hall. now right.
Qed.

Lemma filter_none (A : Type) (Q : A -> Prop) `{forall x, Decision (Q x)} (l : list A) :
  (forall x, x ∈ l -> ~ Q x) -> filter Q l = [].
Proof.
  induction l as [|x l IH]; intros Hall; [reflexivity|].
  rewrite filter_cons, decide_False by (apply Hall; left).
  apply IH. intros y Hy. apply Hall. now right.
Qed.

(** X24: after [update] the known gamepads are exactly the gamepads the poll
    lists. A disconnection is reported for exactly the known gamepads the
    poll no longer lists, a connection for exactly the listed gamepads
    that were not known, and the disconnections come first. *)
Theorem update_syncs (gamepads : list (option P)) (known : list P) :
  (forall p, p ∈ (update gamepads known).1 <-> Some p ∈ gamepads)
  /\ (forall p, _disconnect p ∈ (update gamepads known).2
                <-> p ∈ known /\ Some p ∉ gamepads)
  /\ (forall p, _connect p ∈ (update gamepads known).2
                <-> Some p ∈ gamepads /\ p ∉ known)
  /\ exists gone new,
       (update gamepads known).2 = (_disconnect <$> gone) ++ (_connect <$> new).
Proof.
  destruct (update_shape gamepads known) as (added & -> & Hmem & _).
  cbn [fst snd]. split; [|split; [|split]].
  - intros p. rewrite elem_of_app, list_elem_of_filter, Hmem.
    destruct (decide (p ∈ known)); tauto.
  - intros p. rewrite elem_of_app, !list_elem_of_fmap. split.
    + intros [(q & [= <-] & Hq)|(q & [=] & _)].
      apply elem_of_reverse, list_elem_of_filter in Hq. tauto.
    + intros [Hk Hg]. left. exists p. split; [reflexivity|].
      apply elem_of_reverse, list_elem_of_filter. tauto.
  - intros p. rewrite elem_of_app, !list_elem_of_fmap. split.
    + intros [(q & [=] & _)|(q & [= <-] & Hq)]. now apply Hmem.
    + intros Hp. right. exists p. split; [reflexivity|]. now apply Hmem.
  - eexists _, _. reflexivity.
Qed.

(** X25: a second [update] on the same poll changes nothing and reports
    nothing. *)
Theorem update_settles (gamepads : list (option P)) (known : list P) :
  update gamepads (update gamepads known).1 = ((update gamepads known).1, []).
Proof.
  pose proof (update_syncs gamepads known) as (Hsync & _).
  set (known' := (update gamepads known).1) in *. clearbody known'.
  destruct (update_shape gamepads known') as (added & -> & Hmem & _).
  assert (added = []) as ->.
  { apply elem_of_nil_inv. intros p Hp. apply Hmem in Hp as [Hg Hn].
    apply Hn, Hsync, Hg. }
  rewrite filter_all by (intros p Hp; now apply Hsync).
  rewrite filter_none by (intros p Hp Hn; now apply Hn, Hsync).
  cbn. now rewrite app_nil_r.
Qed.

(** X26: when no gamepad is known twice, none is known twice after [update]
    and none is reported twice. *)
Theorem update_reports_once (gamepads : list (option P)) (known : list P) :
  NoDup known ->
  NoDup (update gamepads known).1 /\ NoDup (update gamepads known).2.
Proof.
  intros Hnd. destruct (update_shape gamepads known) as (added & -> & Hmem & Hadd).
  cbn [fst snd]. split.
  - apply NoDup_app. split; [now apply NoDup_filter|]. split; [|exact Hadd].
    intros p Hp Ha. apply list_elem_of_filter in Hp. apply Hmem in Ha. tauto.
  - apply NoDup_app. split; [|split].
    + apply NoDup_fmap_2; [intros a b [=]; congruence|].
      rewrite reverse_Permutation. now apply NoDup_filter.
    + intros c Hc Ha. apply list_elem_of_fmap in Hc as (q & -> & _).
      apply list_elem_of_fmap in Ha as (q' & [=] & _).
    + apply NoDup_fmap_2; [intros a b [=]; congruence|exact Hadd].
Qed.

End PollingFacts.

Lemma update_reports_once_witness :
  NoDup (update [Some 1%nat; None; Some 3%nat; Some 3%nat] [2%nat; 1%nat; 5%nat]).1
  /\ NoDup (update [Some 1%nat; None; Some 3%nat; Some 3%nat] [2%nat; 1%nat; 5%nat]).2.
Proof.
  apply (update_reports_once [Some 1%nat; None; Some 3%nat; Some 3%nat]
                             [2%nat; 1%nat; 5%nat]).
  apply (bool_decide_unpack _). vm_compute. reflexivity.
Defined.

(** ** Listeners *)

Section ListenerFacts.

Context {L : Type} `{EqDecision L}.

Lemma event_key_inj (e e' : EventName) : event_key e = event_key e' -> e = e'.
Proof. destruct e, e'; (reflexivity || discriminate). Qed.

Lemma fire_bind (event event' : EventName) (listener : L)
    (listeners : gmap string (list L)) :
  _fire event' (bind event listener listeners)
  = if decide (event' = event) then _fire event listeners ++ [listener]
    else _fire event' listeners.
Proof.
  unfold bind, _fire.
  destruct (listeners !! event_key event) as [arr|] eqn:Harr.
  - rewrite Harr. destruct (decide (event' = event)) as [->|Hne].
    + now rewrite lookup_insert_eq.
    + now rewrite lookup_insert_ne by (intros E; apply event_key_inj in E; congruence).
  - rewrite lookup_insert_eq. destruct (decide (event' = event)) as [->|Hne].
    + now rewrite lookup_insert_eq.
    + now rewrite !lookup_insert_ne by (intros E; apply event_key_inj in E; congruence).
Qed.

Lemma splice_first_spec (listener : L) (arr : list L) :
  match splice_first listener arr with
  | Some arr' =>
      exists before after,
        arr = before ++ listener :: after
        /\ (listener ∉ before)
        /\ arr' = before ++ after
  | None => listener ∉ arr
  end.
Proof.
  induction arr as [|x arr IH]; cbn.
  - apply not_elem_of_nil.
  - destruct (decide (x = listener)) as [->|Hne].
    + exists [], arr. split; [reflexivity|]. split; [apply not_elem_of_nil|reflexivity].
    + destruct (splice_first listener arr) as [arr'|].
      * destruct IH as (before & after & -> & Hb & ->).
        exists (x :: before), after. split; [reflexivity|].
        split; [|reflexivity]. rewrite not_elem_of_cons. split; congruence.
      * rewrite not_elem_of_cons. split; congruence.
Qed.

(** X27: [unbind] returns true exactly when the listener is bound to the
    event. It then takes out the first occurrence of the listener and
    keeps the other listeners of the event in order; otherwise it leaves
    the listeners as they are. The other events fire as before. *)
Theorem unbind_removes_first (type : EventName) (listener : L)
    (listeners : gmap string (list L)) :
  let after := (unbind (Some type) (Some listener) listeners).1 in
  let removed := (unbind (Some type) (Some listener) listeners).2 in
  (removed = true <-> listener ∈ _fire type listeners)
  /\ (removed = false -> after = listeners)
  /\ (removed = true ->
      exists before behind,
        _fire type listeners = before ++ listener :: behind
        /\ (listener ∉ before)
        /\ _fire type after = before ++ behind)
  /\ (forall event, event <> type -> _fire event after = _fire event listeners).
Proof.
  cbv zeta. unfold unbind, _fire.
  destruct (listeners !! event_key type) as [arr|] eqn:Harr; cbn [fst snd].
  - pose proof (splice_first_spec listener arr) as Hspec.
    destruct (splice_first listener arr) as [arr'|]; cbn [fst snd].
    + destruct Hspec as (before & behind & -> & Hb & ->).
      split; [|split; [|split]].
      * split; [|reflexivity]. intros _. apply elem_of_app. right. left.
      * discriminate.
      * intros _. exists before, behind. rewrite lookup_insert_eq. split; [reflexivity|].
        split; [exact Hb|reflexivity].
      * intros event Hne. rewrite lookup_insert_ne; [reflexivity|].
        intros E. apply event_key_inj in E. congruence.
    + split; [|split; [|split]].
      * split; [discriminate|]. intros Hin. contradiction.
      * reflexivity.
      * discriminate.
      * reflexivity.
  - split; [|split; [|split]].
    + split; [discriminate|]. intros Hin. now apply elem_of_nil in Hin.
    + reflexivity.
    + discriminate.
    + reflexivity.
Qed.

Lemma splice_first_fresh (listener : L) (arr : list L) :
  listener ∉ arr -> splice_first listener (arr ++ [listener]) = Some arr.
Proof.
  induction arr as [|x arr IH]; intros Hout; cbn.
  - now rewrite decide_True.
  - apply not_elem_of_cons in Hout as [Hne Hout].
    rewrite decide_False by congruence. now rewrite IH.
Qed.

Lemma splice_first_last (listener : L) (arr : list L) :
  exists arr', splice_first listener (arr ++ [listener]) = Some arr'
               /\ arr' ≡ₚ arr.
Proof.
  induction arr as [|x arr IH]; cbn.
  - exists []. now rewrite decide_True.
  - destruct (decide (x = listener)) as [->|Hne].
    + exists (arr ++ [listener]). split; [reflexivity|].
      symmetry. apply Permutation_cons_append.
    + destruct IH as (arr' & -> & Hperm). exists (x :: arr').
      split; [reflexivity|]. now constructor.
Qed.

(** X28: unbinding a listener right after binding it succeeds and leaves every
    event with the listeners it had, up to their order; when the listener
    was not bound to the event before, every event fires exactly the
    listeners it fired before, in the same order. *)
Theorem bind_then_unbind (event : EventName) (listener : L)
    (listeners : gmap string (list L)) :
  let after := (unbind (Some event) (Some listener) (bind event listener listeners)).1 in
  (unbind (Some event) (Some listener) (bind event listener listeners)).2 = true
  /\ (forall e, _fire e after ≡ₚ _fire e listeners)
  /\ (listener ∉ _fire event listeners ->
      forall e, _fire e after = _fire e listeners).
Proof.
  cbv zeta.
  pose proof (fire_bind event event listener listeners) as Hfire.
  rewrite decide_True in Hfire by reflexivity.
  pose proof (fun e => fire_bind event e listener listeners) as Hother.
  set (bound := bind event listener listeners) in *. clearbody bound.
  unfold unbind. unfold _fire in Hfire at 1.
  destruct (bound !! event_key event) as [arr|] eqn:Harr.
  2:{ exfalso. destruct (_fire event listeners); discriminate. }
  subst arr.
  destruct (splice_first_last listener (_fire event listeners))
    as (arr' & Hsplice & Hperm).
  rewrite Hsplice. cbn [fst snd].
  assert (forall e, _fire e (<[event_key event := arr']> bound)
                    = if decide (e = event) then arr' else _fire e listeners) as Hafter.
  { intros e. unfold _fire at 1. destruct (decide (e = event)) as [->|Hne].
    - now rewrite lookup_insert_eq.
    - rewrite lookup_insert_ne by (intros E; apply event_key_inj in E; congruence).
      specialize (Hother e). rewrite decide_False in Hother by exact Hne.
      exact Hother. }
  split; [reflexivity|]. split.
  - intros e. rewrite Hafter.
    destruct (decide (e = event)) as [->|]; [exact Hperm|reflexivity].
  - intros Hfresh e. rewrite Hafter.
    destruct (decide (e = event)) as [->|]; [|reflexivity].
    rewrite splice_first_fresh in Hsplice by exact Hfresh. congruence.
Qed.

End ListenerFacts.

Lemma unbind_removes_first_witness :
  (unbind (Some tick) (Some 7%nat) sample_listeners).1 = sample_listeners.
Proof.
  apply (unbind_removes_first tick 7%nat sample_listeners). reflexivity.
Defined.

Lemma bind_then_unbind_witness :
  _fire tick (unbind (Some tick) (Some 4%nat) (bind tick 4%nat sample_listeners)).1
  = _fire tick sample_listeners
  /\ _fire button_down
       (unbind (Some tick) (Some 4%nat) (bind tick 4%nat sample_listeners)).1
     = _fire button_down sample_listeners.
Proof.
  assert (4%nat ∉ _fire tick sample_listeners) as Hfresh.
  { change (4%nat ∉ [1%nat; 2%nat]). rewrite !not_elem_of_cons.
    repeat split; try discriminate. apply not_elem_of_nil. }
  split;
    apply (proj2 (proj2 (bind_then_unbind tick 4%nat sample_listeners)) Hfresh).
Defined.
